(** * Sensor-array server: alarm state machine, line parser, event router
      and command dispatcher of [server.py], embedded in Rocq.

    Python strings are [string]s, Python integers are [Z], wall-clock
    readings ([time.time()]) are binary64 [float]s, the JSON command
    messages are a small inductive type whose objects are [gmap]s, and
    every operation that takes the lock of [SensorState] is one atomic
    function on the record below.  Code that can raise returns a
    [result].  The clock and the text of the ingestion timestamp are
    arguments of the functions that read them.  The serial port is the
    list of what was written to it, the broadcast queue the list of what
    was put on it; the pauses between serial commands, the registry of
    observers and the threads are left out. *)

From Stdlib Require Import ZArith List Sorted Permutation Ascii String DecimalString.
From Stdlib Require Import Bool Lia Floats.
From stdpp Require Import gmap strings.

Open Scope string_scope.

(** ** Configuration *)

Definition AUTO_RESET_TIMEOUT : float := 4.0%float.

(** ** Events, as [parse_line] builds them *)

Record peer_info := PeerInfo {
  peer_id : Z;
  peer_threshold : Z;
  peer_rssi : Z;
  peer_dt : Z
}.

Record detection_event := DetectionEvent {
  det_unit_a : Z; det_unit_b : Z;
  det_id_a : string; det_id_b : string;
  det_threshold : Z; det_value : Z; det_count : Z;
  det_device_ts : Z; det_timestamp : string
}.

Record comm_loss_event := CommLossEvent {
  cl_unit_a : Z; cl_unit_b : Z;
  cl_id_a : string; cl_id_b : string;
  cl_value : Z;
  cl_device_ts : Z; cl_timestamp : string
}.

Record connected_event := ConnectedEvent {
  con_unit : Z; con_id_unit : string;
  con_peer : Z; con_id_peer : string;
  con_connected : bool;
  con_device_ts : Z; con_timestamp : string
}.

Record map_event := MapEvent {
  unit_id : Z;
  version : string;
  gain : Z;
  voltage : Z;
  peers : list peer_info;
  map_device_ts : Z; map_timestamp : string
}.

(** The dictionaries [parse_line] returns carry a ["type"] tag that
    selects one of four shapes. *)
Inductive event :=
  | Detection (d : detection_event)
  | CommLoss (c : comm_loss_event)
  | Connected (c : connected_event)
  | Map (m : map_event).

Definition event_type (e : event) : string :=
  match e with
  | Detection _ => "detection"
  | CommLoss _ => "comm_loss"
  | Connected _ => "connected"
  | Map _ => "map"
  end.

(** ** Sensor state *)

(** The serial port handle: whether it is open, and what was written. *)
Record serial_port := SerialPort {
  is_open : bool;
  written : list string
}.

Record SensorState := mkSensorState {
  serial_connected : bool;
  alarm_state : string;
  alarm_mode : string;
  last_detection_time : float;
  events : list event;
  max_events : nat;
  map_data : list map_event;
  serial_conn : option serial_port;
  _acknowledged : bool;
  detection_enabled : bool;
  saved_threshold : Z
}.

(** [SensorState.__init__] *)
Definition SensorState_init : SensorState :=
  {| serial_connected := false;
     alarm_state := "disconnected";
     alarm_mode := "auto";
     last_detection_time := 0%float;
     events := [];
     max_events := 50;
     map_data := [];
     serial_conn := None;
     _acknowledged := false;
     detection_enabled := true;
     saved_threshold := 500 |}.

Definition with_alarm (st : string) (ack : bool) (s : SensorState) : SensorState :=
  {| serial_connected := serial_connected s;
     alarm_state := st;
     alarm_mode := alarm_mode s;
     last_detection_time := last_detection_time s;
     events := events s;
     max_events := max_events s;
     map_data := map_data s;
     serial_conn := serial_conn s;
     _acknowledged := ack;
     detection_enabled := detection_enabled s;
     saved_threshold := saved_threshold s |}.

Definition with_events (evs : list event) (s : SensorState) : SensorState :=
  {| serial_connected := serial_connected s;
     alarm_state := alarm_state s;
     alarm_mode := alarm_mode s;
     last_detection_time := last_detection_time s;
     events := evs;
     max_events := max_events s;
     map_data := map_data s;
     serial_conn := serial_conn s;
     _acknowledged := _acknowledged s;
     detection_enabled := detection_enabled s;
     saved_threshold := saved_threshold s |}.

(** [add_event]: [insert(0, event)], then [pop()] drops the last entry
    when the list has grown past [max_events]. *)
Definition add_event (ev : event) (s : SensorState) : SensorState :=
  let evs := ev :: events s in
  if Nat.ltb (max_events s) (length evs)
  then with_events (removelast evs) s
  else with_events evs s.

(** [set_alarm]: the re-trigger branch first, then the assignment, then
    the reset of the acknowledgement when the state changed. *)
Definition set_alarm (state : string) (s : SensorState) : SensorState :=
  let ack1 :=
    if String.eqb state "alarm" && String.eqb (alarm_state s) "alarm" && _acknowledged s
    then (if String.eqb (alarm_mode s) "manual" then false else _acknowledged s)
    else _acknowledged s in
  let prev := alarm_state s in
  let ack2 := if negb (String.eqb state prev) then false else ack1 in
  with_alarm state ack2 s.

Definition acknowledge (s : SensorState) : SensorState :=
  if String.eqb (alarm_mode s) "manual"
  then with_alarm "clear" true s
  else with_alarm (alarm_state s) true s.

Definition get_effective_state (s : SensorState) : string :=
  if String.eqb (alarm_state s) "alarm" && String.eqb (alarm_mode s) "manual" && _acknowledged s
  then "clear"
  else alarm_state s.

(** ** Text: character classes, [str.strip], [int], decimal printing

    A [string] stands for a Python [str] whose code points lie below
    256; the classes are the ones Python's [re] and [str] methods use on
    that range. *)

Definition code (c : ascii) : N := N_of_ascii c.

Definition between (lo hi : N) (c : ascii) : bool :=
  (lo <=? code c)%N && (code c <=? hi)%N.

(** [str.isspace], also the class [\s] of a [str] pattern. *)
Definition is_space (c : ascii) : bool :=
  between 9 13 c || between 28 32 c || (code c =? 133)%N || (code c =? 160)%N.

(** Decimal digits, the class [\d]. *)
Definition is_decimal (c : ascii) : bool := between 48 57 c.

Definition is_alnum (c : ascii) : bool :=
  is_decimal c || between 65 90 c || between 97 122 c
  || (code c =? 170)%N || between 178 179 c || (code c =? 181)%N
  || between 185 186 c || between 188 190 c
  || between 192 214 c || between 216 246 c || between 248 255 c.

(** Word characters, the class [\w]. *)
Definition is_word (c : ascii) : bool := is_alnum c || (code c =? 95)%N.

Fixpoint all_chars (p : ascii -> bool) (s : string) : bool :=
  match s with
  | EmptyString => true
  | String c s' => p c && all_chars p s'
  end.

Fixpoint lstrip (s : string) : string :=
  match s with
  | EmptyString => EmptyString
  | String c s' => if is_space c then lstrip s' else s
  end.

Fixpoint rstrip (s : string) : string :=
  match s with
  | EmptyString => EmptyString
  | String c s' =>
      match rstrip s' with
      | EmptyString => if is_space c then EmptyString else String c EmptyString
      | t => String c t
      end
  end.

Definition strip (s : string) : string := rstrip (lstrip s).

(** Python exceptions that the modelled code can raise. *)
Inductive exn :=
  | ValueError | TypeError | KeyError | IndexError | OverflowError | AttributeError.

Inductive result (A : Type) :=
  | Ok (a : A)
  | Raise (e : exn).
Arguments Ok {A} a.
Arguments Raise {A} e.

(** Sequencing stops at the first exception. *)
#[global] Instance result_bind : MBind result := fun A B f r =>
  match r with
  | Ok a => f a
  | Raise e => Raise e
  end.

#[global] Instance result_ret : MRet result := fun A a => Ok a.

Definition digit_value (c : ascii) : Z := Z.of_N (code c) - 48.

(** The digits of an integer literal: decimal digits, with single
    underscores allowed between two digits. *)
Fixpoint digits_value (acc : Z) (after_digit : bool) (s : string) : option Z :=
  match s with
  | EmptyString => if after_digit then Some acc else None
  | String c s' =>
      if is_decimal c then digits_value (10 * acc + digit_value c) true s'
      else if (code c =? 95)%N && after_digit then digits_value acc false s'
      else None
  end.

(** The interpreter's limit on the digits of a decimal literal that
    [int] converts, [sys.get_int_max_str_digits()]; the program runs
    with the default. *)
Definition INT_MAX_STR_DIGITS : N := 4300.

(** The digit characters of a literal; the sign and the underscores do
    not count towards the limit. *)
Fixpoint count_digits (s : string) : N :=
  match s with
  | EmptyString => 0
  | String c s' => if is_decimal c then N.succ (count_digits s') else count_digits s'
  end.

(** [int(s)] for a [str]: surrounding whitespace is dropped, one sign is
    allowed, the rest is a base-10 literal; anything else is a
    [ValueError], and so is a literal of more than
    [INT_MAX_STR_DIGITS] digits.  Integers themselves are unbounded. *)
Definition int_of_str (s : string) : result Z :=
  let body := strip s in
  let signed :=
    match body with
    | String "-" ds => (true, ds)
    | String "+" ds => (false, ds)
    | _ => (false, body)
    end in
  match digits_value 0 false (snd signed) with
  | Some z =>
      if (INT_MAX_STR_DIGITS <? count_digits (snd signed))%N then Raise ValueError
      else Ok (if fst signed then (- z)%Z else z)
  | None => Raise ValueError
  end.

(** [str(z)], as an f-string prints an [int]. *)
Definition str_of_int (z : Z) : string := NilZero.string_of_int (Z.to_int z).

(** ** Regular expressions

    Every pattern of the program is a sequence of single-character
    classes, each with a greedy quantifier, some of them inside a
    capturing group, and at most an anchor in front.  The matcher is a
    backtracking one, as Python's: a quantifier first takes as many
    characters as it can and gives them back one at a time while the
    rest of the pattern fails. *)

Inductive cclass :=
  | CChar (c : ascii)                     (* a literal character *)
  | CDigit                                (* \d *)
  | CWord                                 (* \w *)
  | CSpace                                (* \s *)
  | CNotSpace                             (* \S *)
  | CDot                                  (* .  : anything but a newline *)
  | CSet (ranges : list (ascii * ascii)). (* [a-bc-d...] *)

Inductive quant :=
  | Once
  | Star                                  (* *  *)
  | Plus                                  (* +  *)
  | Opt.                                  (* ?  *)

Definition atom : Type := cclass * quant.

Inductive node :=
  | At (cl : cclass) (q : quant)
  | Group (body : list atom)              (* ( ... ) *)
  | Bol.                                  (* ^ *)

Definition regex : Type := list node.

Definition cmatch (cl : cclass) (c : ascii) : bool :=
  match cl with
  | CChar d => Ascii.eqb c d
  | CDigit => is_decimal c
  | CWord => is_word c
  | CSpace => is_space c
  | CNotSpace => negb (is_space c)
  | CDot => negb (code c =? 10)%N
  | CSet ranges => existsb (fun r => between (code (fst r)) (code (snd r)) c) ranges
  end.

Section Matcher.
Context {R : Type}.

Fixpoint m_star (cl : cclass) (k : string -> option R) (s : string) : option R :=
  match s with
  | String c s' =>
      if cmatch cl c
      then match m_star cl k s' with
           | Some r => Some r
           | None => k s
           end
      else k s
  | EmptyString => k s
  end.

Definition m_atom (a : atom) (k : string -> option R) (s : string) : option R :=
  match snd a, s with
  | Once, String c s' => if cmatch (fst a) c then k s' else None
  | Once, EmptyString => None
  | Star, _ => m_star (fst a) k s
  | Plus, String c s' => if cmatch (fst a) c then m_star (fst a) k s' else None
  | Plus, EmptyString => None
  | Opt, String c s' =>
      if cmatch (fst a) c
      then match k s' with
           | Some r => Some r
           | None => k s
           end
      else k s
  | Opt, EmptyString => k s
  end.

Fixpoint m_atoms (l : list atom) (k : string -> option R) (s : string) : option R :=
  match l with
  | [] => k s
  | a :: l' => m_atom a (m_atoms l' k) s
  end.
End Matcher.

(** The text between the position [s] and the later position [s1]. *)
Definition consumed (s s1 : string) : string :=
  substring 0 (String.length s - String.length s1) s.

(** A match object: the text of the groups, in order, and what follows
    the match in the subject. *)
Record match_obj := MatchObj {
  groups : list string;
  rest : string
}.

Fixpoint m_nodes (subject : string) (r : regex) (caps : list string) (s : string)
  : option match_obj :=
  match r with
  | [] => Some (MatchObj caps s)
  | At cl q :: r' => m_atom (cl, q) (m_nodes subject r' caps) s
  | Group body :: r' =>
      m_atoms body (fun s1 => m_nodes subject r' (caps ++ [consumed s s1]) s1) s
  | Bol :: r' =>
      if Nat.eqb (String.length s) (String.length subject)
      then m_nodes subject r' caps s
      else None
  end.

(** [pattern.match(s)]: at the start of [s] only. *)
Definition re_match (r : regex) (s : string) : option match_obj :=
  m_nodes s r [] s.

Fixpoint search_from (subject : string) (r : regex) (s : string) : option match_obj :=
  match m_nodes subject r [] s with
  | Some m => Some m
  | None =>
      match s with
      | String _ s' => search_from subject r s'
      | EmptyString => None
      end
  end.

(** [pattern.search(s)]: the leftmost position where the pattern matches. *)
Definition re_search (r : regex) (s : string) : option match_obj :=
  search_from s r s.

(** [pattern.finditer(s)]: the successive matches from left to right,
    none overlapping the one before.  [skip] counts the characters of
    the previous match that are still to be passed. *)
Fixpoint finditer_from (subject : string) (r : regex) (skip : nat) (s : string)
  : list match_obj :=
  match skip, s with
  | S n, String _ s' => finditer_from subject r n s'
  | S n, EmptyString => []
  | O, _ =>
      match m_nodes subject r [] s with
      | Some m =>
          m :: match s with
               | String _ s' =>
                   finditer_from subject r
                     (String.length s - String.length (rest m) - 1) s'
               | EmptyString => []
               end
      | None =>
          match s with
          | String _ s' => finditer_from subject r O s'
          | EmptyString => []
          end
      end
  end.

Definition re_finditer (r : regex) (s : string) : list match_obj :=
  finditer_from s r O s.

(** [pattern.sub("", s)]: [s] without the matches of the pattern. *)
Fixpoint sub_empty_from (subject : string) (r : regex) (skip : nat) (s : string) : string :=
  match s with
  | EmptyString => EmptyString
  | String c s' =>
      match skip with
      | S n => sub_empty_from subject r n s'
      | O =>
          match m_nodes subject r [] s with
          | Some m =>
              match String.length s - String.length (rest m) with
              | O => String c (sub_empty_from subject r O s')
              | S n => sub_empty_from subject r n s'
              end
          | None => String c (sub_empty_from subject r O s')
          end
      end
  end.

Definition re_sub_empty (r : regex) (s : string) : string :=
  sub_empty_from s r O s.

(** [m.group(i)], for [i >= 1]. *)
Definition group (m : match_obj) (i : nat) : result string :=
  match i with
  | O => Raise IndexError
  | S j =>
      match nth_error (groups m) j with
      | Some g => Ok g
      | None => Raise IndexError
      end
  end.

(** A run of literal characters. *)
Fixpoint lit (s : string) : regex :=
  match s with
  | EmptyString => []
  | String c s' => At (CChar c) Once :: lit s'
  end.

(** ** The patterns of the program *)

(** [\x1b\[[0-9;]*m] *)
Definition ANSI_RE : regex :=
  [At (CChar (ascii_of_N 27)) Once; At (CChar "[") Once;
   At (CSet [("0", "9"); (";", ";")]%char) Star; At (CChar "m") Once].

(** [CMD:DETECTION\s+(\w+)\((\d+)\)-(\w+)\((\d+)\)\s+th:(\d+)\s+val:(\d+)\s+c:(\d+)] *)
Definition DETECTION_RE : regex :=
  (lit "CMD:DETECTION" ++ [At CSpace Plus; Group [(CWord, Plus)]]
  ++ lit "(" ++ [Group [(CDigit, Plus)]] ++ lit ")-"
  ++ [Group [(CWord, Plus)]] ++ lit "(" ++ [Group [(CDigit, Plus)]] ++ lit ")"
  ++ [At CSpace Plus] ++ lit "th:" ++ [Group [(CDigit, Plus)]]
  ++ [At CSpace Plus] ++ lit "val:" ++ [Group [(CDigit, Plus)]]
  ++ [At CSpace Plus] ++ lit "c:" ++ [Group [(CDigit, Plus)]])%list.

(** [CMD:DETECTION-COMM\s+(\w+)\((\d+)\)-(\w+)\((\d+)\)\s+(\d+)] *)
Definition DETECTION_COMM_RE : regex :=
  (lit "CMD:DETECTION-COMM" ++ [At CSpace Plus; Group [(CWord, Plus)]]
  ++ lit "(" ++ [Group [(CDigit, Plus)]] ++ lit ")-"
  ++ [Group [(CWord, Plus)]] ++ lit "(" ++ [Group [(CDigit, Plus)]] ++ lit ")"
  ++ [At CSpace Plus; Group [(CDigit, Plus)]])%list.

(** [CMD:CONNECTED\s+(\w+)\((\d+)\)\s+connected:(\w+)\((\d+)\)\s+([01])] *)
Definition CONNECTED_RE : regex :=
  (lit "CMD:CONNECTED" ++ [At CSpace Plus; Group [(CWord, Plus)]]
  ++ lit "(" ++ [Group [(CDigit, Plus)]] ++ lit ")"
  ++ [At CSpace Plus] ++ lit "connected:"
  ++ [Group [(CWord, Plus)]] ++ lit "(" ++ [Group [(CDigit, Plus)]] ++ lit ")"
  ++ [At CSpace Plus; Group [(CSet [("0", "1")]%char, Once)]])%list.

(** [CMD:MAP_RSP\s+from\s+(\d+)\s+ver:(\S+)\s+gain:(\d+)\s+voltage:(\d+)\s+scan:(\d+)\s+adv:(\d+):\s+(T)],
    where the last group [T] is [.*], the text up to the end of the line *)
Definition MAP_RSP_RE : regex :=
  (lit "CMD:MAP_RSP" ++ [At CSpace Plus] ++ lit "from"
  ++ [At CSpace Plus; Group [(CDigit, Plus)]]
  ++ [At CSpace Plus] ++ lit "ver:" ++ [Group [(CNotSpace, Plus)]]
  ++ [At CSpace Plus] ++ lit "gain:" ++ [Group [(CDigit, Plus)]]
  ++ [At CSpace Plus] ++ lit "voltage:" ++ [Group [(CDigit, Plus)]]
  ++ [At CSpace Plus] ++ lit "scan:" ++ [Group [(CDigit, Plus)]]
  ++ [At CSpace Plus] ++ lit "adv:" ++ [Group [(CDigit, Plus)]] ++ lit ":"
  ++ [At CSpace Plus; Group [(CDot, Star)]])%list.

(** [\[(\d+)\s+th3:(\d+)\s+(-?\d+)dBm\s+dt:(\d+)\]] *)
Definition MAP_PEER_RE : regex :=
  (lit "[" ++ [Group [(CDigit, Plus)]; At CSpace Plus] ++ lit "th3:"
  ++ [Group [(CDigit, Plus)]; At CSpace Plus]
  ++ [Group [(CChar "-", Opt); (CDigit, Plus)]] ++ lit "dBm"
  ++ [At CSpace Plus] ++ lit "dt:" ++ [Group [(CDigit, Plus)]] ++ lit "]")%list.

(** [^\[(\d+)\]\s+I\s+(T)], where the last group [T] is [.*] *)
Definition TIMESTAMP_RE : regex :=
  ([Bol] ++ lit "[" ++ [Group [(CDigit, Plus)]] ++ lit "]"
  ++ [At CSpace Plus] ++ lit "I" ++ [At CSpace Plus; Group [(CDot, Star)]])%list.

(** ** The line parser *)

(** [int(m.group(i))] *)
Definition int_group (m : match_obj) (i : nat) : result Z :=
  g ← group m i; int_of_str g.

(** One dictionary of the [peers] list. *)
Definition peer_of_match (pm : match_obj) : result peer_info :=
  id ← int_group pm 1;
  threshold ← int_group pm 2;
  rssi ← int_group pm 3;
  dt ← int_group pm 4;
  mret (PeerInfo id threshold rssi dt).

(** [parse_line]; [now] is the text that
    [datetime.now().isoformat(timespec="milliseconds")] returns. *)
Definition parse_line (now : string) (raw_line : string) : result (option event) :=
  let line := strip (re_sub_empty ANSI_RE raw_line) in
  if String.eqb line "" then mret None else
  match re_match TIMESTAMP_RE line with
  | None => mret None
  | Some ts_match =>
      device_ts ← int_group ts_match 1;
      content ← group ts_match 2;
      match re_search DETECTION_RE content with
      | Some m =>
          unit_a ← int_group m 2;
          unit_b ← int_group m 4;
          id_a ← group m 1;
          id_b ← group m 3;
          threshold ← int_group m 5;
          value ← int_group m 6;
          count ← int_group m 7;
          mret (Some (Detection
            (DetectionEvent unit_a unit_b id_a id_b threshold value count device_ts now)))
      | None =>
      match re_search DETECTION_COMM_RE content with
      | Some m =>
          unit_a ← int_group m 2;
          unit_b ← int_group m 4;
          id_a ← group m 1;
          id_b ← group m 3;
          value ← int_group m 5;
          mret (Some (CommLoss
            (CommLossEvent unit_a unit_b id_a id_b value device_ts now)))
      | None =>
      match re_search CONNECTED_RE content with
      | Some m =>
          unit ← int_group m 2;
          id_unit ← group m 1;
          peer ← int_group m 4;
          id_peer ← group m 3;
          g5 ← group m 5;
          mret (Some (Connected
            (ConnectedEvent unit id_unit peer id_peer (String.eqb g5 "1") device_ts now)))
      | None =>
      match re_search MAP_RSP_RE content with
      | Some m =>
          peers_str ← group m 7;
          peers ← mapM peer_of_match (re_finditer MAP_PEER_RE peers_str);
          unit_id ← int_group m 1;
          version ← group m 2;
          gain ← int_group m 3;
          voltage ← int_group m 4;
          mret (Some (Map
            (MapEvent unit_id version gain voltage peers device_ts now)))
      | None => mret None
      end end end end
  end.

(** ** Broadcast queue and the process state *)

(** The payload of a status message. *)
Record status_msg := StatusMsg {
  st_serial_connected : bool;
  st_alarm_state : string;
  st_alarm_mode : string;
  st_detection_enabled : bool
}.

(** What [broadcast_event] and [broadcast_status] enqueue; the payloads
    stand for their JSON text. *)
Inductive queued :=
  | QEvent (e : event)
  | QStatus (s : status_msg).

(** The two globals of the module: [state] and [_broadcast_queue], the
    latter [None] until the application has started. *)
Record World := mkWorld {
  state : SensorState;
  _broadcast_queue : option (list queued)
}.

Definition World_init : World := mkWorld SensorState_init None.

Definition on_state (f : SensorState -> SensorState) (w : World) : World :=
  mkWorld (f (state w)) (_broadcast_queue w).

Definition put_nowait (q : queued) (w : World) : World :=
  match _broadcast_queue w with
  | Some items => mkWorld (state w) (Some (items ++ [q])%list)
  | None => w
  end.

Definition status_of (s : SensorState) : status_msg :=
  {| st_serial_connected := serial_connected s;
     st_alarm_state := get_effective_state s;
     st_alarm_mode := alarm_mode s;
     st_detection_enabled := detection_enabled s |}.

Definition broadcast_event (e : event) (w : World) : World :=
  put_nowait (QEvent e) w.

Definition broadcast_status (w : World) : World :=
  put_nowait (QStatus (status_of (state w))) w.

Definition with_last_detection_time (t : float) (s : SensorState) : SensorState :=
  {| serial_connected := serial_connected s;
     alarm_state := alarm_state s;
     alarm_mode := alarm_mode s;
     last_detection_time := t;
     events := events s;
     max_events := max_events s;
     map_data := map_data s;
     serial_conn := serial_conn s;
     _acknowledged := _acknowledged s;
     detection_enabled := detection_enabled s;
     saved_threshold := saved_threshold s |}.

Definition with_map_data (units : list map_event) (s : SensorState) : SensorState :=
  {| serial_connected := serial_connected s;
     alarm_state := alarm_state s;
     alarm_mode := alarm_mode s;
     last_detection_time := last_detection_time s;
     events := events s;
     max_events := max_events s;
     map_data := units;
     serial_conn := serial_conn s;
     _acknowledged := _acknowledged s;
     detection_enabled := detection_enabled s;
     saved_threshold := saved_threshold s |}.

Definition with_alarm_mode (mode : string) (s : SensorState) : SensorState :=
  {| serial_connected := serial_connected s;
     alarm_state := alarm_state s;
     alarm_mode := mode;
     last_detection_time := last_detection_time s;
     events := events s;
     max_events := max_events s;
     map_data := map_data s;
     serial_conn := serial_conn s;
     _acknowledged := _acknowledged s;
     detection_enabled := detection_enabled s;
     saved_threshold := saved_threshold s |}.

Definition with_detection (enabled : bool) (threshold : Z) (s : SensorState) : SensorState :=
  {| serial_connected := serial_connected s;
     alarm_state := alarm_state s;
     alarm_mode := alarm_mode s;
     last_detection_time := last_detection_time s;
     events := events s;
     max_events := max_events s;
     map_data := map_data s;
     serial_conn := serial_conn s;
     _acknowledged := _acknowledged s;
     detection_enabled := enabled;
     saved_threshold := threshold |}.

Definition with_serial_conn (conn : option serial_port) (s : SensorState) : SensorState :=
  {| serial_connected := serial_connected s;
     alarm_state := alarm_state s;
     alarm_mode := alarm_mode s;
     last_detection_time := last_detection_time s;
     events := events s;
     max_events := max_events s;
     map_data := map_data s;
     serial_conn := conn;
     _acknowledged := _acknowledged s;
     detection_enabled := detection_enabled s;
     saved_threshold := saved_threshold s |}.

(** [send_serial]: the command and a carriage return go to the port when
    there is one and it is open; otherwise nothing happens. *)
Definition send_serial (cmd : string) (w : World) : World :=
  match serial_conn (state w) with
  | Some port =>
      if is_open port
      then on_state (with_serial_conn
             (Some (SerialPort (is_open port)
                      (written port ++ [(cmd ++ String (ascii_of_N 13) "")%string])%list))) w
      else w
  | None => w
  end.

(** ** Auto reset *)

(** [check_auto_reset]; [now] is the reading of [time.time()]. *)
Definition check_auto_reset (now : float) (w : World) : World :=
  if String.eqb (alarm_mode (state w)) "auto" && String.eqb (alarm_state (state w)) "alarm"
  then
    if PrimFloat.ltb AUTO_RESET_TIMEOUT (PrimFloat.sub now (last_detection_time (state w)))
    then broadcast_status (on_state (set_alarm "clear") w)
    else w
  else w.

(** ** The event router *)

(** [list.sort(key=lambda u: u["unit_id"])]: a stable sort, written as
    insertion from the right. *)
Fixpoint insert_by_unit_id (m : map_event) (l : list map_event) : list map_event :=
  match l with
  | [] => [m]
  | y :: l' =>
      if (unit_id m <=? unit_id y)%Z then m :: y :: l' else y :: insert_by_unit_id m l'
  end.

Definition sort_by_unit_id (l : list map_event) : list map_event :=
  fold_right insert_by_unit_id [] l.

(** The update of the map cache: drop the unit's old entry, append the
    new one, sort. *)
Definition update_map_data (m : map_event) (s : SensorState) : SensorState :=
  let kept := List.filter (fun u => negb (unit_id u =? unit_id m)%Z) (map_data s) in
  with_map_data (sort_by_unit_id (kept ++ [m])%list) s.

(** [handle_event]; [now] is the reading of [time.time()]. *)
Definition handle_event (now : float) (ev : event) (w : World) : World :=
  let w1 :=
    match ev with
    | Detection _ =>
        on_state (set_alarm "alarm") (on_state (with_last_detection_time now) w)
    | CommLoss _ => on_state (set_alarm "comm_loss") w
    | Connected _ => w
    | Map m => on_state (update_map_data m) w
    end in
  let w2 :=
    if negb (String.eqb (event_type ev) "map")
    then on_state (add_event ev) w1
    else w1 in
  broadcast_status (broadcast_event ev w2).

(** ** Command messages *)

(** A decoded JSON value, as [json.loads] returns it. *)
#[local] Set Warnings "-register-all".
Inductive json :=
  | JNull
  | JBool (b : bool)
  | JInt (z : Z)
  | JFloat (f : float)
  | JStr (s : string)
  | JArr (items : list json)
  | JObj (fields : gmap string json).
#[local] Set Warnings "register-all".

(** [int(f)] for a [float]: truncation towards zero. *)
Definition int_of_float (f : float) : result Z :=
  match Prim2SF f with
  | S754_zero _ => Ok 0%Z
  | S754_infinity _ => Raise OverflowError
  | S754_nan => Raise ValueError
  | S754_finite sign m e =>
      let magnitude :=
        if (0 <=? e)%Z then (Z.pos m * 2 ^ e)%Z else (Z.pos m / 2 ^ (- e))%Z in
      Ok (if sign then (- magnitude)%Z else magnitude)
  end.

(** [int(v)] for a decoded JSON value. *)
Definition int_of_json (v : json) : result Z :=
  match v with
  | JNull => Raise TypeError
  | JBool b => Ok (if b then 1%Z else 0%Z)
  | JInt z => Ok z
  | JFloat f => int_of_float f
  | JStr s => int_of_str s
  | JArr _ => Raise TypeError
  | JObj _ => Raise TypeError
  end.

(** [msg[key]] *)
Definition getitem (fields : gmap string json) (key : string) : result json :=
  match fields !! key with
  | Some v => Ok v
  | None => Raise KeyError
  end.

(** [v == s] for a string literal [s] and the result [v] of [msg.get]. *)
Definition is_str (v : option json) (s : string) : bool :=
  match v with
  | Some (JStr t) => String.eqb t s
  | _ => false
  end.

(** Commands written one after the other; the pauses between them are
    not part of the state. *)
Definition send_all (cmds : list string) (w : World) : World :=
  fold_left (fun w' cmd => send_serial cmd w') cmds w.

(** [handle_ws_command] *)
Definition handle_ws_command (msg : json) (w : World) : result World :=
  match msg with
  | JObj fields =>
      let cmd := fields !! "cmd" in
      if is_str cmd "set_threshold" then
        v ← getitem fields "value";
        value ← int_of_json v;
        let w1 := on_state (with_detection true value) w in
        mret (send_all ["/"; "mpedT"; "threshold " ++ str_of_int value;
                        "/"; "cmd"; "re 3 4"] w1)
      else if is_str cmd "set_gain" then
        v ← getitem fields "value";
        value ← int_of_json v;
        mret (send_all ["/"; "mpedT"; "gain " ++ str_of_int value;
                        "/"; "cmd"; "re 3 4"] w)
      else if is_str cmd "map" then
        mret (send_all ["/"; "cmd"; "map"] w)
      else if is_str cmd "acknowledge" then
        mret (broadcast_status (on_state acknowledge w))
      else if is_str cmd "toggle_detection" then
        let enabled := negb (detection_enabled (state w)) in
        let w1 := on_state (with_detection enabled (saved_threshold (state w))) w in
        let value := if enabled then saved_threshold (state w1) else 0%Z in
        mret (broadcast_status
                (send_all ["/"; "mpedT"; "threshold " ++ str_of_int value;
                           "/"; "cmd"; "re 3 4"] w1))
      else if is_str cmd "set_alarm_mode" then
        let mode := default (JStr "auto") (fields !! "mode") in
        match mode with
        | JStr m =>
            if String.eqb m "auto" || String.eqb m "manual"
            then mret (broadcast_status (on_state (with_alarm_mode m) w))
            else mret w
        | _ => mret w
        end
      else mret w
  | _ => Raise AttributeError
  end.

(** ** The observer endpoint *)

(** What an observer is sent. *)
Inductive ws_msg :=
  | WsStatus (s : status_msg)
  | WsEvent (e : event)
  | WsMapFull (units : list map_event).

(** The messages [websocket_endpoint] sends to an observer that
    connects: the status, the buffered events, the map if there is one. *)
Definition connect_messages (w : World) : list ws_msg :=
  (WsStatus (status_of (state w))
   :: List.map WsEvent (events (state w))
   ++ match map_data (state w) with
      | [] => []
      | units => [WsMapFull units]
      end)%list.

(** How the receive loop of [websocket_endpoint] ends. *)
Inductive loop_exit :=
  | Disconnected             (* WebSocketDisconnect, caught *)
  | Escaped (e : exn).       (* any other exception leaves the function *)

(** The receive loop over the decoded messages of one observer; the
    third component is what was never handled. *)
Fixpoint receive_loop (frames : list json) (w : World) : World * loop_exit * list json :=
  match frames with
  | [] => (w, Disconnected, [])
  | msg :: frames' =>
      match handle_ws_command msg w with
      | Ok w' => receive_loop frames' w'
      | Raise e => (w, Escaped e, frames')
      end
  end.

(** The inner loop of the serial reader hands the parsed events to
    [handle_event] one after the other, each at its own clock reading. *)
Definition route (timed : list (float * event)) (w : World) : World :=
  fold_left (fun w' te => handle_event (fst te) (snd te) w') timed w.

(** ** The serial reader *)

Definition with_serial_connected (connected : bool) (s : SensorState) : SensorState :=
  {| serial_connected := connected;
     alarm_state := alarm_state s;
     alarm_mode := alarm_mode s;
     last_detection_time := last_detection_time s;
     events := events s;
     max_events := max_events s;
     map_data := map_data s;
     serial_conn := serial_conn s;
     _acknowledged := _acknowledged s;
     detection_enabled := detection_enabled s;
     saved_threshold := saved_threshold s |}.

(** The port has been opened: the handle is stored, the link is marked
    connected, the alarm is set to [clear], a status is published and
    the bring-up commands are sent. *)
Definition serial_opened (w : World) : World :=
  let w1 := on_state (with_serial_conn (Some (SerialPort true []))) w in
  let w2 := on_state (with_serial_connected true) w1 in
  let w3 := on_state (set_alarm "clear") w2 in
  send_all ["/"; "cmd"; "re 3 4"] (broadcast_status w3).

(** The handler of [serial.SerialException]. *)
Definition serial_failed (w : World) : World :=
  let w1 := on_state (with_serial_connected false) w in
  let w2 := on_state (set_alarm "disconnected") w1 in
  let w3 := on_state (with_serial_conn None) w2 in
  broadcast_status w3.

Definition is_newline (c : ascii) : bool := (code c =? 10)%N.

(** [buffer.split("\n", 1)] when the buffer holds a newline: the text
    before the first newline and the text after it. *)
Fixpoint split_newline (buffer : string) : option (string * string) :=
  match buffer with
  | EmptyString => None
  | String c s' =>
      if is_newline c then Some (EmptyString, s')
      else match split_newline s' with
           | Some (line, after) => Some (String c line, after)
           | None => None
           end
  end.

(** The loop [while "\n" in buffer]: the lines taken off the buffer, in
    order, and what stays in it.  [fuel] bounds the number of rounds. *)
Fixpoint take_lines (fuel : nat) (buffer : string) : list string * string :=
  match fuel with
  | O => ([], buffer)
  | S fuel' =>
      match split_newline buffer with
      | Some (line, after) =>
          let (lines, remainder) := take_lines fuel' after in
          (line :: lines, remainder)
      | None => ([], buffer)
      end
  end.

(** One read: the decoded text is appended to the buffer and the
    complete lines are taken off. *)
Definition feed (buffer text : string) : list string * string :=
  take_lines (String.length (buffer ++ text)) (buffer ++ text).

(** ** The broadcast worker *)

(** [list.remove]: the first occurrence goes. *)
Fixpoint remove_first (ws : nat) (l : list nat) : list nat :=
  match l with
  | [] => []
  | x :: l' => if Nat.eqb x ws then l' else x :: remove_first ws l'
  end.

(** One round of [broadcast_worker] over the registered observers, each
    named by a number.  [send_ok ws] tells whether [ws.send_text(msg)]
    returns; the observers whose send raised are collected and then
    removed from the registry.  The result is who received the message
    and the registry after the round. *)
Definition deliver (send_ok : nat -> bool) (websockets : list nat)
  : list nat * list nat :=
  let disconnected := List.filter (fun ws => negb (send_ok ws)) websockets in
  (List.filter send_ok websockets,
   fold_left (fun registry ws =>
                if existsb (Nat.eqb ws) registry
                then remove_first ws registry
                else registry)
             disconnected websockets).

(** ** Vocabulary of the properties *)

(** What [add_event] does to the list alone. *)
Definition push_bounded (cap : nat) (ev : event) (evs : list event) : list event :=
  if Nat.ltb cap (length (ev :: evs)) then removelast (ev :: evs) else ev :: evs.

Definition not_map (ev : event) : bool := negb (String.eqb (event_type ev) "map").

Definition is_detection (ev : event) : bool :=
  match ev with Detection _ => true | _ => false end.

(** The events of a routed sequence that go to the history, newest first. *)
Definition history_of_routed (timed : list (float * event)) : list event :=
  rev (List.filter not_map (List.map snd timed)).

(** The history entries among the messages sent to a new observer. *)
Definition history_entries (msgs : list ws_msg) : list event :=
  flat_map (fun msg => match msg with WsEvent e => [e] | _ => [] end) msgs.

Definition same_unit (m u : map_event) : bool := (unit_id u =? unit_id m)%Z.

(** The words of one quantified class. *)
Definition atom_lang (a : atom) (w : string) : Prop :=
  match snd a with
  | Once => exists c, w = String c "" /\ cmatch (fst a) c = true
  | Star => all_chars (cmatch (fst a)) w = true
  | Plus => w <> "" /\ all_chars (cmatch (fst a)) w = true
  | Opt => w = "" \/ exists c, w = String c "" /\ cmatch (fst a) c = true
  end.

Fixpoint atoms_lang (l : list atom) (w : string) : Prop :=
  match l with
  | [] => w = ""
  | a :: l' => exists w1 w2, w = (w1 ++ w2)%string /\ atom_lang a w1 /\ atoms_lang l' w2
  end.

(** The words of a pattern, with the text of its groups. *)
Fixpoint nodes_lang (r : regex) (w : string) (caps : list string) : Prop :=
  match r with
  | [] => w = "" /\ caps = []
  | At cl q :: r' =>
      exists w1 w2, w = (w1 ++ w2)%string /\ atom_lang (cl, q) w1 /\ nodes_lang r' w2 caps
  | Group body :: r' =>
      exists w1 w2 caps',
        w = (w1 ++ w2)%string /\ caps = w1 :: caps'
        /\ atoms_lang body w1 /\ nodes_lang r' w2 caps'
  | Bol :: r' => nodes_lang r' w caps
  end.

(** The bodies of the groups of a pattern, in order. *)
Definition group_bodies (r : regex) : list (list atom) :=
  flat_map (fun n => match n with Group body => [body] | _ => [] end) r.

(** The group bodies whose text the parser hands to [int]. *)
Definition numeric (body : list atom) : Prop :=
  body = [(CDigit, Plus)] \/ body = [(CChar "-", Opt); (CDigit, Plus)].

(** A line begins with the timestamp prefix: a bracketed run of digits,
    white space, the letter I, white space. *)
Definition has_ts_prefix (line : string) : Prop :=
  exists ds ws1 ws2 tail : string,
    ds <> "" /\ all_chars is_decimal ds = true
    /\ ws1 <> "" /\ all_chars is_space ws1 = true
    /\ ws2 <> "" /\ all_chars is_space ws2 = true
    /\ line = ("[" ++ ds ++ "]" ++ ws1 ++ "I" ++ ws2 ++ tail)%string.


(** The [acknowledge] and [set_alarm_mode] messages of an observer. *)
Definition acknowledge_msg : json := JObj {[ "cmd" := JStr "acknowledge" ]}.

Definition set_mode_msg (mode : string) : json :=
  JObj {[ "cmd" := JStr "set_alarm_mode"; "mode" := JStr mode ]}.


(** The part of the state that only observers' commands and the serial
    link change. *)
Definition configuration (s : SensorState)
  : bool * string * nat * option serial_port * bool * Z :=
  (serial_connected s, alarm_mode s, max_events s, serial_conn s,
   detection_enabled s, saved_threshold s).

(** What [send_serial] writes for a command. *)
Definition wire (cmd : string) : string := (cmd ++ String (ascii_of_N 13) "")%string.

(** The commands that set the threshold of the device to [value]. *)
Definition threshold_sequence (value : Z) : list string :=
  ["/"; "mpedT"; "threshold " ++ str_of_int value; "/"; "cmd"; "re 3 4"].

Definition set_threshold_msg (value : Z) : json :=
  JObj {[ "cmd" := JStr "set_threshold"; "value" := JInt value ]}.

Definition toggle_detection_msg : json := JObj {[ "cmd" := JStr "toggle_detection" ]}.

(** The names [handle_ws_command] knows. *)
Definition known_commands : list string :=
  ["set_threshold"; "set_gain"; "map"; "acknowledge"; "toggle_detection"; "set_alarm_mode"].

(** The part of the state that only the serial reader changes. *)
Definition ingested (s : SensorState)
  : bool * float * list event * nat * list map_event :=
  (serial_connected s, last_detection_time s, events s, max_events s, map_data s).

(** The map reports among the routed events, in arrival order. *)
Definition map_reports (timed : list (float * event)) : list map_event :=
  flat_map (fun te => match snd te with Map m => [m] | _ => [] end) timed.

Definition of_unit (u : Z) (m : map_event) : bool := (unit_id m =? u)%Z.

(** What the cache should hold for a unit: its latest report. *)
Definition latest_report (u : Z) (timed : list (float * event)) : list map_event :=
  match List.find (of_unit u) (rev (map_reports timed)) with
  | Some m => [m]
  | None => []
  end.

(** The text that a list of lines and a remainder came from. *)
Definition unsplit (lines : list string) (remainder : string) : string :=
  fold_right (fun line acc => (line ++ String (ascii_of_N 10) acc)%string) remainder lines.

Definition no_newline (s : string) : bool := all_chars (fun c => negb (is_newline c)) s.

(** A name of the protocol: a non-empty run of word characters. *)
Definition is_name (s : string) : Prop := s <> "" /\ all_chars is_word s = true.

Definition peer_wf (p : peer_info) : Prop :=
  (0 <= peer_id p)%Z /\ (0 <= peer_threshold p)%Z /\ (0 <= peer_dt p)%Z.

(** What every event built by [parse_line] satisfies: the counters are
    not negative, the names are names, and the ingestion timestamp is
    the one given. *)
Definition event_wf (now : string) (ev : event) : Prop :=
  match ev with
  | Detection d =>
      (0 <= det_unit_a d)%Z /\ (0 <= det_unit_b d)%Z
      /\ is_name (det_id_a d) /\ is_name (det_id_b d)
      /\ (0 <= det_threshold d)%Z /\ (0 <= det_value d)%Z /\ (0 <= det_count d)%Z
      /\ (0 <= det_device_ts d)%Z /\ det_timestamp d = now
  | CommLoss c =>
      (0 <= cl_unit_a c)%Z /\ (0 <= cl_unit_b c)%Z
      /\ is_name (cl_id_a c) /\ is_name (cl_id_b c)
      /\ (0 <= cl_value c)%Z
      /\ (0 <= cl_device_ts c)%Z /\ cl_timestamp c = now
  | Connected c =>
      (0 <= con_unit c)%Z /\ is_name (con_id_unit c)
      /\ (0 <= con_peer c)%Z /\ is_name (con_id_peer c)
      /\ (0 <= con_device_ts c)%Z /\ con_timestamp c = now
  | Map m =>
      (0 <= unit_id m)%Z /\ version m <> ""
      /\ (0 <= gain m)%Z /\ (0 <= voltage m)%Z
      /\ Forall peer_wf (peers m)
      /\ (0 <= map_device_ts m)%Z /\ map_timestamp m = now
  end.

(** A greedy quantifier stops in front of [s]: at the end of the text
    or at a character outside the class. *)
Definition stops (cl : cclass) (s : string) : bool :=
  match s with
  | EmptyString => true
  | String c _ => negb (cmatch cl c)
  end.

(** The word [w] of a quantified class, in front of [s], is the one the
    matcher takes first. *)
Definition atom_first (a : atom) (w s : string) : Prop :=
  match snd a with
  | Once => exists c, w = String c "" /\ cmatch (fst a) c = true
  | Star => all_chars (cmatch (fst a)) w = true /\ stops (fst a) s = true
  | Plus => w <> "" /\ all_chars (cmatch (fst a)) w = true /\ stops (fst a) s = true
  | Opt => (w = "" /\ stops (fst a) s = true)
           \/ exists c, w = String c "" /\ cmatch (fst a) c = true
  end.

Fixpoint atoms_first (l : list atom) (w s : string) : Prop :=
  match l with
  | [] => w = ""
  | a :: l' =>
      exists w1 w2, w = (w1 ++ w2)%string
                    /\ atom_first a w1 (w2 ++ s) /\ atoms_first l' w2 s
  end.

(** The word [w] of a pattern without anchor, in front of [s], with the
    text of its groups, where every quantifier has taken all it can. *)
Fixpoint nodes_first (r : regex) (w : string) (caps : list string) (s : string) : Prop :=
  match r with
  | [] => w = "" /\ caps = []
  | At cl q :: r' =>
      exists w1 w2, w = (w1 ++ w2)%string
                    /\ atom_first (cl, q) w1 (w2 ++ s) /\ nodes_first r' w2 caps s
  | Group body :: r' =>
      exists w1 w2 caps',
        w = (w1 ++ w2)%string /\ caps = w1 :: caps'
        /\ atoms_first body w1 (w2 ++ s) /\ nodes_first r' w2 caps' s
  | Bol :: r' => False
  end.

(** The number that a run of decimal digits writes. *)
Definition number (digits : string) : Z :=
  match digits_value 0 false digits with
  | Some z => z
  | None => 0%Z
  end.

(** A non-empty run of decimal digits. *)
Definition is_digits (s : string) : Prop := s <> "" /\ all_chars is_decimal s = true.

(** A text of at most [INT_MAX_STR_DIGITS] characters. *)
Definition short (s : string) : Prop :=
  (N.of_nat (String.length s) <=? INT_MAX_STR_DIGITS)%N = true.

(** A number that [int] converts: a non-empty run of at most
    [INT_MAX_STR_DIGITS] decimal digits. *)
Definition is_number (s : string) : Prop := is_digits s /\ short s.

(** The number of occurrences of a character in a text. *)
Fixpoint count_char (c : ascii) (s : string) : nat :=
  match s with
  | EmptyString => 0
  | String d s' => (if Ascii.eqb d c then 1 else 0) + count_char c s'
  end.

(** The number of times a pattern asks for the literal character [c]. *)
Fixpoint literal_count (c : ascii) (r : regex) : nat :=
  match r with
  | [] => 0
  | At (CChar d) Once :: r' => (if Ascii.eqb d c then 1 else 0) + literal_count c r'
  | _ :: r' => literal_count c r'
  end.

(** Neither the escape character nor a newline. *)
Definition plain (c : ascii) : bool :=
  negb (Ascii.eqb c (ascii_of_N 27)) && negb (is_newline c).

(** A detection line of the protocol. *)
Definition detection_line (ts a n1 b n2 th val cnt : string) : string :=
  "[" ++ ts ++ "] I CMD:DETECTION " ++ a ++ "(" ++ n1 ++ ")-" ++ b ++ "(" ++ n2
  ++ ") th:" ++ th ++ " val:" ++ val ++ " c:" ++ cnt.

(** A communication-loss line of the protocol. *)
Definition comm_loss_line (ts a n1 b n2 val : string) : string :=
  "[" ++ ts ++ "] I CMD:DETECTION-COMM " ++ a ++ "(" ++ n1 ++ ")-" ++ b ++ "(" ++ n2
  ++ ") " ++ val.

(** A connection line of the protocol; [flag] is ["0"] or ["1"]. *)
Definition connected_line (ts a n1 b n2 flag : string) : string :=
  "[" ++ ts ++ "] I CMD:CONNECTED " ++ a ++ "(" ++ n1 ++ ") connected:" ++ b
  ++ "(" ++ n2 ++ ") " ++ flag.

(** The fields of one peer record of a map response, as written. *)
Record peer_fields := PeerFields {
  pf_id : string;
  pf_threshold : string;
  pf_negative : bool;
  pf_rssi : string;
  pf_dt : string
}.

Definition peer_fields_ok (p : peer_fields) : Prop :=
  is_number (pf_id p) /\ is_number (pf_threshold p)
  /\ is_number (pf_rssi p) /\ is_number (pf_dt p).

Definition rssi_text (p : peer_fields) : string :=
  if pf_negative p then ("-" ++ pf_rssi p)%string else pf_rssi p.

(** One peer record of the protocol. *)
Definition peer_text (p : peer_fields) : string :=
  "[" ++ pf_id p ++ " th3:" ++ pf_threshold p ++ " " ++ rssi_text p
  ++ "dBm dt:" ++ pf_dt p ++ "]".

(** The peer records of a map response, a blank in front of each. *)
Definition peers_tail (ps : list peer_fields) : string :=
  fold_right (fun p acc => (" " ++ peer_text p ++ acc)%string) "" ps.

(** The peer that a record describes. *)
Definition peer_value (p : peer_fields) : peer_info :=
  PeerInfo (number (pf_id p)) (number (pf_threshold p))
           (if pf_negative p then (- number (pf_rssi p))%Z else number (pf_rssi p))
           (number (pf_dt p)).

(** The characters a version token is made of here: no white space, no
    escape character, no opening parenthesis. *)
Definition version_char (c : ascii) : bool :=
  negb (is_space c) && plain c && negb (Ascii.eqb c "(").

Definition is_version (s : string) : Prop :=
  s <> "" /\ all_chars version_char s = true.

(** A map response of the protocol with the given peer records. *)
Definition map_line (ts unit ver gain voltage scan adv : string)
                    (ps : list peer_fields) : string :=
  "[" ++ ts ++ "] I CMD:MAP_RSP from " ++ unit ++ " ver:" ++ ver ++ " gain:" ++ gain
  ++ " voltage:" ++ voltage ++ " scan:" ++ scan ++ " adv:" ++ adv ++ ":"
  ++ peers_tail ps.

(** The number of white-space characters of a text, and the number of
    white-space runs a pattern asks for. *)
Fixpoint space_count (s : string) : nat :=
  match s with
  | EmptyString => 0
  | String c s' => (if is_space c then 1 else 0) + space_count s'
  end.

Fixpoint space_runs (r : regex) : nat :=
  match r with
  | [] => 0
  | At CSpace Plus :: r' => 1 + space_runs r'
  | _ :: r' => space_runs r'
  end.

(** Any character but the escape character. *)
Definition no_escape (c : ascii) : bool := negb (Ascii.eqb c (ascii_of_N 27)).






(** ** Concrete states and inputs *)

(** A line whose timestamp has 4301 digits, one more than [int] takes. *)
Definition long_timestamp_line : string :=
  "[" ++ string_of_list_ascii (repeat "1"%char (N.to_nat 4301)) ++ "] I x".

(** The state reached from the initial one by a detection and an
    acknowledgement, both in the initial mode [auto]. *)
Definition acknowledged_auto_alarm : SensorState :=
  acknowledge (set_alarm "alarm" SensorState_init).

(** A connected sensor in manual mode with nothing to report. *)
Definition manual_clear : SensorState :=
  {| serial_connected := true;
     alarm_state := "clear";
     alarm_mode := "manual";
     last_detection_time := 0%float;
     events := [];
     max_events := 50;
     map_data := [];
     serial_conn := None;
     _acknowledged := false;
     detection_enabled := true;
     saved_threshold := 500 |}.

(** The running application in that state, nothing queued yet. *)
Definition manual_world : World := mkWorld manual_clear (Some []).

(** A world whose port is open and has seen nothing yet. *)
Definition open_world : World :=
  mkWorld (with_serial_conn (Some (SerialPort true [])) manual_clear) (Some []).

(** A world in mode [auto] whose last detection was at clock reading 100. *)
Definition alarmed_world : World :=
  mkWorld (with_last_detection_time 100%float (set_alarm "alarm" SensorState_init))
          (Some []).

(** Sixty detections, numbered 1 to 60 by their device timestamp. *)
Definition sixty_detections : list (float * event) :=
  List.map (fun n => (1%float,
               Detection (DetectionEvent 1 2 "A" "B" 500 600 3 (Z.of_nat n) "t")))
           (seq 1 60).

(** A [set_alarm_mode] message with no other field. *)
Definition set_alarm_mode_no_mode : gmap string json :=
  {[ "cmd" := JStr "set_alarm_mode" ]}.

(** A [set_threshold] message whose value is not a number. *)
Definition set_threshold_abc : gmap string json :=
  {[ "cmd" := JStr "set_threshold"; "value" := JStr "abc" ]}.

(** * Properties *)

#[local] Arguments String.eqb : simpl never.
#[local] Arguments String.append : simpl nomatch.

(** ** The alarm state machine *)

Section AlarmMachine.
Variable s : SensorState.

Lemma set_alarm_state (st : string) : alarm_state (set_alarm st s) = st.
Proof. reflexivity. Qed.

Lemma set_alarm_mode_unchanged (st : string) :
  alarm_mode (set_alarm st s) = alarm_mode s.
Proof. reflexivity. Qed.

(** A call that changes the raw state always drops the acknowledgement. *)
Lemma set_alarm_change_resets (st : string) :
  st <> alarm_state s -> _acknowledged (set_alarm st s) = false.
Proof.
  intros Hne. unfold set_alarm. simpl.
  destruct (String.eqb_spec st (alarm_state s)) as [Heq | _]; [contradiction | reflexivity].
Qed.

Lemma acknowledge_manual :
  alarm_mode s = "manual" ->
  alarm_state (acknowledge s) = "clear" /\ _acknowledged (acknowledge s) = true
  /\ alarm_mode (acknowledge s) = "manual".
Proof.
  intros Hm. unfold acknowledge. rewrite Hm. simpl. rewrite Hm. auto.
Qed.

Lemma acknowledge_not_manual :
  alarm_mode s <> "manual" ->
  alarm_state (acknowledge s) = alarm_state s /\ _acknowledged (acknowledge s) = true.
Proof.
  intros Hm. unfold acknowledge.
  destruct (String.eqb_spec (alarm_mode s) "manual"); [contradiction | auto].
Qed.
End AlarmMachine.

(** C1, as stated, fails under [auto]: from a state that is already in
    raw state [alarm] and acknowledged, the first [set_alarm("alarm")]
    of the sequence leaves the acknowledgement in place. *)
Lemma set_alarm_auto_keeps_acknowledgement :
  alarm_mode acknowledged_auto_alarm = "auto"
  /\ _acknowledged (set_alarm "alarm" acknowledged_auto_alarm) = true.
Proof. split; reflexivity. Qed.

(** C1, amended: under [manual] the sequence [set_alarm("alarm")],
    [acknowledge()], [set_alarm("alarm")] ends, from any state, in raw
    state [alarm] with the acknowledgement dropped; under [auto] the
    first [set_alarm("alarm")] leaves the acknowledgement dropped unless
    the state was already [alarm] and acknowledged, in which case it
    stays. *)
Theorem set_alarm_rearm (s : SensorState) :
  (alarm_mode s = "manual" ->
     alarm_state (set_alarm "alarm" (acknowledge (set_alarm "alarm" s))) = "alarm"
     /\ _acknowledged (set_alarm "alarm" (acknowledge (set_alarm "alarm" s))) = false)
  /\ (alarm_mode s = "auto" ->
        _acknowledged (set_alarm "alarm" s)
        = (String.eqb (alarm_state s) "alarm" && _acknowledged s)).
Proof.
  split; intros Hmode.
  - split; [reflexivity |].
    apply set_alarm_change_resets.
    destruct (acknowledge_manual (set_alarm "alarm" s)) as [Hst _]; [exact Hmode |].
    rewrite Hst. discriminate.
  - unfold set_alarm. simpl. rewrite Hmode.
    rewrite (String.eqb_sym "alarm" (alarm_state s)).
    destruct (String.eqb (alarm_state s) "alarm"), (_acknowledged s); reflexivity.
Qed.

Lemma set_alarm_rearm_witness :
  (alarm_state (set_alarm "alarm" (acknowledge (set_alarm "alarm" manual_clear))) = "alarm"
   /\ _acknowledged (set_alarm "alarm" (acknowledge (set_alarm "alarm" manual_clear))) = false)
  /\ _acknowledged (set_alarm "alarm" SensorState_init)
     = (String.eqb (alarm_state SensorState_init) "alarm" && _acknowledged SensorState_init).
Proof.
  split.
  - apply (proj1 (set_alarm_rearm manual_clear)). reflexivity.
  - apply (proj2 (set_alarm_rearm SensorState_init)). reflexivity.
Defined.

(** C2: the effective state is [clear] exactly when the raw state is
    [alarm], the mode [manual] and the alarm acknowledged, or when the
    raw state is [clear] itself; in every other case it is the raw
    state. *)
Theorem effective_state_clear_iff (s : SensorState) :
  (get_effective_state s = "clear" <->
     (alarm_state s = "alarm" /\ alarm_mode s = "manual" /\ _acknowledged s = true)
     \/ alarm_state s = "clear")
  /\ (~ ((alarm_state s = "alarm" /\ alarm_mode s = "manual" /\ _acknowledged s = true)
          \/ alarm_state s = "clear") ->
      get_effective_state s = alarm_state s).
Proof.
  unfold get_effective_state.
  destruct (String.eqb_spec (alarm_state s) "alarm") as [Ha | Ha];
    destruct (String.eqb_spec (alarm_mode s) "manual") as [Hm | Hm];
    destruct (_acknowledged s) eqn:Hack; simpl; (split; [split |]);
    try tauto; try (intros H; right; exact H);
    try (intros H; rewrite Ha in H; discriminate);
    intros [(_ & _ & H) | H]; [discriminate H | exact H].
Qed.

Lemma effective_state_clear_iff_witness :
  get_effective_state SensorState_init = alarm_state SensorState_init.
Proof.
  apply (proj2 (effective_state_clear_iff SensorState_init)).
  intros [[H _] | H]; discriminate H.
Defined.

(** ** Auto reset *)

(** Exchanging the operands of a comparison of two floating-point values
    reverses its result. *)
Lemma SFcompare_swap (a b : spec_float) :
  SFcompare b a = option_map CompOpp (SFcompare a b).
Proof.
  destruct a as [sa | sa | | sa ma ea], b as [sb | sb | | sb mb eb];
    simpl; try reflexivity;
    try (destruct sa; reflexivity); try (destruct sb; reflexivity);
    try (destruct sa, sb; reflexivity).
  destruct sa, sb; simpl; try reflexivity;
    rewrite (Z.compare_antisym ea eb);
    destruct (ea ?= eb)%Z; simpl; try reflexivity;
    change (PosDef.Pos.compare_cont Eq mb ma) with (Pos.compare_cont (CompOpp Eq) mb ma);
    rewrite <- (Pos.compare_cont_antisym ma mb Eq);
    reflexivity.
Qed.

(** A value that is at most the timeout does not exceed it. *)
Lemma float_leb_not_ltb (x y : float) :
  PrimFloat.leb x y = true -> PrimFloat.ltb y x = false.
Proof.
  rewrite leb_spec, ltb_spec. unfold SFleb, SFltb.
  rewrite (SFcompare_swap (Prim2SF x) (Prim2SF y)).
  destruct (SFcompare (Prim2SF x) (Prim2SF y)) as [[ | | ] | ];
    simpl; intros H; try reflexivity; discriminate H.
Qed.

(** C8: in mode [auto] and raw state [alarm], the check moves the raw
    state to [clear] exactly when the clock reading minus
    [last_detection_time] is greater than 4.0, and changes nothing when
    that difference is 4.0 or less. *)
Theorem check_auto_reset_threshold (now : float) (w : World) :
  alarm_mode (state w) = "auto" ->
  alarm_state (state w) = "alarm" ->
  (alarm_state (state (check_auto_reset now w)) = "clear"
   <-> PrimFloat.ltb 4.0 (PrimFloat.sub now (last_detection_time (state w))) = true)
  /\ (PrimFloat.leb (PrimFloat.sub now (last_detection_time (state w))) 4.0 = true ->
      check_auto_reset now w = w).
Proof.
  intros Hmode Hstate. unfold check_auto_reset, AUTO_RESET_TIMEOUT.
  rewrite Hmode, Hstate. simpl.
  split.
  - destruct (PrimFloat.ltb 4.0 (PrimFloat.sub now (last_detection_time (state w)))).
    + split; [reflexivity |]. intros _.
      unfold broadcast_status, put_nowait. simpl.
      destruct (_broadcast_queue w); reflexivity.
    + split; [| discriminate]. rewrite Hstate. discriminate.
  - intros Hle. rewrite (float_leb_not_ltb _ _ Hle). reflexivity.
Qed.

Lemma check_auto_reset_threshold_witness :
  ((alarm_state (state (check_auto_reset 104.5%float alarmed_world)) = "clear"
    <-> PrimFloat.ltb 4.0 (PrimFloat.sub 104.5 (last_detection_time (state alarmed_world))) = true)
   /\ (PrimFloat.leb (PrimFloat.sub 104.5 (last_detection_time (state alarmed_world))) 4.0 = true ->
       check_auto_reset 104.5%float alarmed_world = alarmed_world))
  /\ check_auto_reset 104%float alarmed_world = alarmed_world.
Proof.
  split.
  - apply (check_auto_reset_threshold 104.5%float alarmed_world); reflexivity.
  - apply (proj2 (check_auto_reset_threshold 104%float alarmed_world eq_refl eq_refl)).
    reflexivity.
Defined.

(** ** The event router *)

Lemma state_put_nowait (q : queued) (w : World) : state (put_nowait q w) = state w.
Proof. unfold put_nowait. destruct (_broadcast_queue w); reflexivity. Qed.

Lemma state_broadcast_status (w : World) : state (broadcast_status w) = state w.
Proof. apply state_put_nowait. Qed.

Lemma state_broadcast_event (e : event) (w : World) : state (broadcast_event e w) = state w.
Proof. apply state_put_nowait. Qed.

Lemma route_app (l1 l2 : list (float * event)) (w : World) :
  route (l1 ++ l2) w = route l2 (route l1 w).
Proof. unfold route. apply fold_left_app. Qed.

Lemma add_event_events (ev : event) (s : SensorState) :
  events (add_event ev s) = push_bounded (max_events s) ev (events s).
Proof.
  unfold add_event, push_bounded.
  destruct (Nat.ltb (max_events s) (length (ev :: events s))); reflexivity.
Qed.

Lemma add_event_max_events (ev : event) (s : SensorState) :
  max_events (add_event ev s) = max_events s.
Proof.
  unfold add_event.
  destruct (Nat.ltb (max_events s) (length (ev :: events s))); reflexivity.
Qed.

(** Pushing on a window of the [cap] newest entries gives the window of
    the longer history. *)
Lemma push_bounded_firstn (cap : nat) (ev : event) (history : list event) :
  0 < cap ->
  push_bounded cap ev (firstn cap history) = firstn cap (ev :: history).
Proof.
  intros Hcap. unfold push_bounded.
  destruct cap as [| n]; [lia |].
  destruct (Nat.ltb_spec (S n) (length (ev :: firstn (S n) history))) as [Hlt | Hge].
  - simpl in Hlt. rewrite length_firstn in Hlt.
    assert (Hlen : n < length history) by lia.
    change (ev :: firstn (S n) history) with ([ev] ++ firstn (S n) history)%list.
    rewrite removelast_app.
    + simpl app. rewrite (removelast_firstn history Hlen). reflexivity.
    + destruct history; simpl in *; [lia | discriminate].
  - simpl in Hge. rewrite length_firstn in Hge.
    assert (Hlen : length history <= n) by lia.
    rewrite (firstn_all2 (n := S n) history) by lia.
    simpl. rewrite (firstn_all2 (n := n) history) by lia. reflexivity.
Qed.

Lemma in_firstn {A : Type} (n : nat) (l : list A) (x : A) :
  In x (firstn n l) -> In x l.
Proof.
  intros Hin. rewrite <- (firstn_skipn n l). apply in_or_app. now left.
Qed.

Lemma handle_event_max_events (now : float) (ev : event) (w : World) :
  max_events (state (handle_event now ev w)) = max_events (state w).
Proof.
  unfold handle_event.
  rewrite state_broadcast_status, state_broadcast_event.
  destruct ev; simpl; try rewrite add_event_max_events; reflexivity.
Qed.

Lemma handle_event_events (now : float) (ev : event) (w : World) :
  events (state (handle_event now ev w))
  = if not_map ev
    then push_bounded (max_events (state w)) ev (events (state w))
    else events (state w).
Proof.
  unfold handle_event.
  rewrite state_broadcast_status, state_broadcast_event.
  destruct ev; simpl; try rewrite add_event_events; reflexivity.
Qed.

Lemma route_max_events (timed : list (float * event)) (w : World) :
  max_events (state (route timed w)) = max_events (state w).
Proof.
  revert w. induction timed as [| te timed IH]; intros w; [reflexivity |].
  change (route (te :: timed) w) with (route timed (handle_event (fst te) (snd te) w)).
  rewrite IH. apply handle_event_max_events.
Qed.

(** After any routed sequence the history is the window of the 50
    newest events that are not map events. *)
Lemma route_events (timed : list (float * event)) :
  events (state (route timed World_init)) = firstn 50 (history_of_routed timed).
Proof.
  induction timed as [| te timed IH] using rev_ind; [reflexivity |].
  rewrite route_app.
  change (route [te] (route timed World_init))
    with (handle_event (fst te) (snd te) (route timed World_init)).
  rewrite handle_event_events, route_max_events, IH.
  unfold history_of_routed. rewrite List.map_app, List.filter_app, List.rev_app_distr. simpl.
  destruct (not_map (snd te)); simpl rev; simpl app.
  - apply (push_bounded_firstn 50). lia.
  - reflexivity.
Qed.

Lemma history_entries_connect (w : World) :
  history_entries (connect_messages w) = events (state w).
Proof.
  unfold connect_messages, history_entries. simpl.
  rewrite flat_map_app.
  replace (flat_map _ (match map_data (state w) with [] => [] | _ :: _ => _ end))
    with (@nil event) by (destruct (map_data (state w)); reflexivity).
  rewrite app_nil_r.
  induction (events (state w)) as [| e l IH]; simpl; [reflexivity | now rewrite IH].
Qed.

(** C6: after any routed sequence the history holds at most 50 entries,
    they are the newest events that are not map events, newest first,
    and none is a map event; after 60 detections a connecting observer
    is sent exactly the 50 newest, newest first. *)
Theorem event_history_bounded (timed : list (float * event)) :
  length (events (state (route timed World_init))) <= 50
  /\ events (state (route timed World_init)) = firstn 50 (history_of_routed timed)
  /\ Forall (fun ev => event_type ev <> "map") (events (state (route timed World_init)))
  /\ (length timed = 60 ->
      forallb (fun te => is_detection (snd te)) timed = true ->
      history_entries (connect_messages (route timed World_init))
        = firstn 50 (rev (List.map snd timed))
      /\ length (history_entries (connect_messages (route timed World_init))) = 50).
Proof.
  rewrite history_entries_connect, route_events.
  split; [| split; [| split]].
  - rewrite length_firstn. lia.
  - reflexivity.
  - apply List.Forall_forall. intros ev Hin.
    apply in_firstn in Hin. unfold history_of_routed in Hin.
    apply List.in_rev, List.filter_In in Hin. destruct Hin as [_ Hnm].
    unfold not_map in Hnm. intros Heq. rewrite Heq in Hnm. discriminate.
  - intros Hlen Hdet.
    assert (Hall : List.filter not_map (List.map snd timed) = List.map snd timed).
    { clear Hlen. induction timed as [| te l IH]; [reflexivity |].
      simpl in Hdet. apply andb_prop in Hdet. destruct Hdet as [Hd Hl].
      simpl. destruct (snd te); try discriminate. simpl. now rewrite IH. }
    unfold history_of_routed. rewrite Hall. split; [reflexivity |].
    rewrite length_firstn, length_rev, length_map. lia.
Qed.

Lemma event_history_bounded_witness :
  history_entries (connect_messages (route sixty_detections World_init))
    = firstn 50 (rev (List.map snd sixty_detections))
  /\ length (history_entries (connect_messages (route sixty_detections World_init))) = 50.
Proof.
  apply (proj2 (proj2 (proj2 (event_history_bounded sixty_detections))));
    vm_compute; reflexivity.
Defined.

(** ** The map cache *)

Lemma insert_by_unit_id_perm (m : map_event) (l : list map_event) :
  Permutation (insert_by_unit_id m l) (m :: l).
Proof.
  induction l as [| y l IH]; simpl; [reflexivity |].
  destruct (unit_id m <=? unit_id y)%Z; [reflexivity |].
  rewrite IH. apply perm_swap.
Qed.

Lemma sort_by_unit_id_perm (l : list map_event) :
  Permutation (sort_by_unit_id l) l.
Proof.
  induction l as [| x l IH]; simpl; [reflexivity |].
  rewrite insert_by_unit_id_perm. now apply perm_skip.
Qed.

Lemma insert_by_unit_id_sorted (m : map_event) (l : list map_event) :
  StronglySorted Z.le (List.map unit_id l) ->
  StronglySorted Z.le (List.map unit_id (insert_by_unit_id m l)).
Proof.
  induction l as [| y l IH]; simpl; intros Hs.
  - constructor; constructor.
  - destruct (Z.leb_spec (unit_id m) (unit_id y)) as [Hle | Hgt]; simpl.
    + constructor; [exact Hs |].
      apply StronglySorted_inv in Hs. destruct Hs as [_ Hall].
      constructor; [exact Hle |].
      eapply List.Forall_impl; [| exact Hall]. simpl. intros a Ha. lia.
    + apply StronglySorted_inv in Hs. destruct Hs as [Hs Hall].
      constructor; [now apply IH |].
      rewrite List.Forall_forall in *. intros k Hk.
      apply (Permutation_in (l' := List.map unit_id (m :: l))) in Hk;
        [| apply Permutation_map, insert_by_unit_id_perm].
      destruct Hk as [<- | Hk]; [lia | now apply Hall].
Qed.

(** The sort leaves the unit identifiers in ascending order. *)
Lemma sort_by_unit_id_sorted (l : list map_event) :
  StronglySorted Z.le (List.map unit_id (sort_by_unit_id l)).
Proof.
  induction l as [| x l IH]; simpl; [constructor |].
  now apply insert_by_unit_id_sorted.
Qed.

Lemma filter_permutation {A : Type} (p : A -> bool) (l l' : list A) :
  Permutation l l' -> Permutation (List.filter p l) (List.filter p l').
Proof.
  induction 1 as [| x l l' _ IH | x y l | l l' l'' _ IH1 _ IH2]; simpl.
  - reflexivity.
  - destruct (p x); [now apply perm_skip | exact IH].
  - destruct (p x), (p y); try reflexivity. apply perm_swap.
  - now transitivity (List.filter p l').
Qed.

Lemma map_data_handle_map (now : float) (m : map_event) (w : World) :
  map_data (state (handle_event now (Map m) w))
  = sort_by_unit_id
      (List.filter (fun u => negb (same_unit m u)) (map_data (state w)) ++ [m]).
Proof.
  unfold handle_event.
  rewrite state_broadcast_status, state_broadcast_event. reflexivity.
Qed.

Lemma map_data_handle_other (now : float) (ev : event) (w : World) :
  not_map ev = true ->
  map_data (state (handle_event now ev w)) = map_data (state w).
Proof.
  unfold handle_event.
  rewrite state_broadcast_status, state_broadcast_event.
  destruct ev; simpl; intros H; try discriminate H;
    unfold add_event;
    match goal with |- context [Nat.ltb ?a ?b] => destruct (Nat.ltb a b) end;
    reflexivity.
Qed.

Lemma map_data_handle_perm (now : float) (m : map_event) (w : World) :
  Permutation (map_data (state (handle_event now (Map m) w)))
    (List.filter (fun u => negb (same_unit m u)) (map_data (state w)) ++ [m]).
Proof. rewrite map_data_handle_map. apply sort_by_unit_id_perm. Qed.

(** Replacing the entry of a unit keeps the unit identifiers distinct. *)
Lemma replace_unit_nodup (m : map_event) (l : list map_event) :
  List.NoDup (List.map unit_id l) ->
  List.NoDup (List.map unit_id (List.filter (fun u => negb (same_unit m u)) l ++ [m])).
Proof.
  induction l as [| u l IH]; simpl; intros Hnd.
  - constructor; [intros [] | constructor].
  - apply List.NoDup_cons_iff in Hnd. destruct Hnd as [Hnotin Hnd].
    destruct (same_unit m u) eqn:Hsame; simpl; [now apply IH |].
    constructor; [| now apply IH].
    rewrite List.map_app. intros Hin.
    apply in_app_or in Hin. destruct Hin as [Hin | [Heq | []]].
    + apply Hnotin. apply in_map_iff in Hin. destruct Hin as (v & Hv & Hin).
      apply List.filter_In in Hin. apply in_map_iff. exists v. tauto.
    + unfold same_unit in Hsame. apply Z.eqb_neq in Hsame. congruence.
Qed.

(** One step of the router keeps the unit identifiers of the cache
    distinct and in ascending order. *)
Lemma handle_event_map_invariant (now : float) (ev : event) (w : World) :
  List.NoDup (List.map unit_id (map_data (state w))) ->
  StronglySorted Z.le (List.map unit_id (map_data (state w))) ->
  List.NoDup (List.map unit_id (map_data (state (handle_event now ev w))))
  /\ StronglySorted Z.le (List.map unit_id (map_data (state (handle_event now ev w)))).
Proof.
  intros Hnd Hs.
  destruct ev as [d | c | c | m];
    try (rewrite map_data_handle_other by reflexivity; now split).
  split.
  - eapply Permutation_NoDup.
    + symmetry. apply Permutation_map, map_data_handle_perm.
    + now apply replace_unit_nodup.
  - rewrite map_data_handle_map. apply sort_by_unit_id_sorted.
Qed.

Lemma route_map_invariant (timed : list (float * event)) :
  List.NoDup (List.map unit_id (map_data (state (route timed World_init))))
  /\ StronglySorted Z.le (List.map unit_id (map_data (state (route timed World_init)))).
Proof.
  induction timed as [| te timed IH] using rev_ind.
  - split; constructor.
  - rewrite route_app.
    change (route [te] (route timed World_init))
      with (handle_event (fst te) (snd te) (route timed World_init)).
    destruct IH as [Hnd Hs]. now apply handle_event_map_invariant.
Qed.

(** C7: after any routed sequence the cache holds no two entries with
    the same [unit_id] and is in ascending order of [unit_id]; routing
    one more map event leaves that event as the only entry of its unit,
    and keeps the entries of the other units. *)
Theorem map_data_unique_sorted (timed : list (float * event)) (now : float) (m : map_event) :
  List.NoDup (List.map unit_id (map_data (state (route timed World_init))))
  /\ StronglySorted Z.le (List.map unit_id (map_data (state (route timed World_init))))
  /\ List.filter (same_unit m)
       (map_data (state (handle_event now (Map m) (route timed World_init)))) = [m]
  /\ (forall u, unit_id u <> unit_id m ->
        In u (map_data (state (handle_event now (Map m) (route timed World_init))))
        <-> In u (map_data (state (route timed World_init)))).
Proof.
  destruct (route_map_invariant timed) as [Hnd Hs].
  split; [exact Hnd | split; [exact Hs | split]].
  - apply Permutation_length_1_inv. symmetry.
    etransitivity;
      [apply filter_permutation, map_data_handle_perm |].
    rewrite List.filter_app.
    replace (List.filter (same_unit m) [m]) with [m]
      by (simpl; unfold same_unit; now rewrite Z.eqb_refl).
    replace (List.filter (same_unit m) (List.filter _ _)) with (@nil map_event);
      [reflexivity |].
    clear Hnd Hs.
    induction (map_data (state (route timed World_init))) as [| u l IH];
      simpl; [reflexivity |].
    destruct (same_unit m u) eqn:Hsame; simpl; [exact IH |].
    rewrite Hsame. exact IH.
  - intros u Hne. split; intros Hin.
    + apply (Permutation_in _ (map_data_handle_perm now m _)) in Hin.
      apply in_app_or in Hin. destruct Hin as [Hin | [Heq | []]].
      * apply List.filter_In in Hin. tauto.
      * subst u. contradiction.
    + apply (Permutation_in _ (Permutation_sym (map_data_handle_perm now m _))).
      apply in_or_app. left. apply List.filter_In. split; [exact Hin |].
      unfold same_unit. apply negb_true_iff, Z.eqb_neq. exact Hne.
Qed.

(** Two reports of unit 5 that differ in their gain: the cache keeps the
    second one only. *)
Example map_data_unit_5_replaced :
  let first := MapEvent 5 "1.0" 3 3300 [] 10 "t1" in
  let second := MapEvent 5 "1.0" 7 3300 [] 20 "t2" in
  map_data (state (route [(1%float, Map first); (2%float, Map second)] World_init))
  = [second].
Proof. reflexivity. Qed.

(** ** The command dispatcher *)

Lemma handle_set_alarm_mode (fields : gmap string json) (w : World) :
  fields !! "cmd" = Some (JStr "set_alarm_mode") ->
  handle_ws_command (JObj fields) w
  = match default (JStr "auto") (fields !! "mode") with
    | JStr m =>
        if String.eqb m "auto" || String.eqb m "manual"
        then Ok (broadcast_status (on_state (with_alarm_mode m) w))
        else Ok w
    | _ => Ok w
    end.
Proof. intros Hcmd. unfold handle_ws_command. rewrite Hcmd. reflexivity. Qed.

(** Publishing a status on an existing queue makes the queue longer. *)
Lemma broadcast_status_queue (w : World) (q : list queued) :
  _broadcast_queue w = Some q ->
  _broadcast_queue (broadcast_status w) = Some (q ++ [QStatus (status_of (state w))])%list.
Proof.
  intros Hq. unfold broadcast_status, put_nowait. rewrite Hq. reflexivity.
Qed.

Lemma broadcast_status_changes (f : SensorState -> SensorState) (w : World) (q : list queued) :
  _broadcast_queue w = Some q -> broadcast_status (on_state f w) <> w.
Proof.
  intros Hq Heq.
  assert (Hq' : _broadcast_queue (broadcast_status (on_state f w))
                = Some (q ++ [QStatus (status_of (f (state w)))])%list)
    by (apply broadcast_status_queue; exact Hq).
  rewrite Heq, Hq in Hq'. injection Hq' as Hq'.
  apply (f_equal (@length queued)) in Hq'. rewrite length_app in Hq'. simpl in Hq'. lia.
Qed.

(** C9: a [set_alarm_mode] message without a [mode] field sets the mode
    to [auto] and publishes a status; the message is left without any
    effect only when a [mode] value is present and is neither [auto]
    nor [manual]. *)
Theorem set_alarm_mode_absent_is_auto
  (fields : gmap string json) (w : World) (q : list queued) :
  fields !! "cmd" = Some (JStr "set_alarm_mode") ->
  _broadcast_queue w = Some q ->
  exists w',
    handle_ws_command (JObj fields) w = Ok w'
    /\ (fields !! "mode" = None ->
        alarm_mode (state w') = "auto"
        /\ _broadcast_queue w' = Some (q ++ [QStatus (status_of (state w'))])%list)
    /\ (w' = w <->
        exists v, fields !! "mode" = Some v /\ v <> JStr "auto" /\ v <> JStr "manual").
Proof.
  intros Hcmd Hq. rewrite (handle_set_alarm_mode fields w Hcmd).
  destruct (fields !! "mode") as [v |] eqn:Hmode; simpl.
  - assert (Hignored :
      v <> JStr "auto" -> v <> JStr "manual" ->
      exists w' : World,
        Ok w = Ok w'
        /\ (Some v = None ->
            alarm_mode (state w') = "auto"
            /\ _broadcast_queue w' = Some (q ++ [QStatus (status_of (state w'))])%list)
        /\ (w' = w <->
            exists v', Some v = Some v' /\ v' <> JStr "auto" /\ v' <> JStr "manual")).
    { intros Ha Hm. exists w. split; [reflexivity |]. split; [discriminate |].
      split; [intros _; exists v; auto | reflexivity]. }
    destruct v as [| b | z | f | m | items | fs];
      try (apply Hignored; discriminate).
    destruct (String.eqb_spec m "auto") as [-> | Hna]; simpl.
    + eexists; split; [reflexivity |]. split; [discriminate |].
      split.
      * intros Heq. exfalso. exact (broadcast_status_changes _ w q Hq Heq).
      * intros (v' & Hv' & Ha & _). injection Hv' as <-. contradiction.
    + destruct (String.eqb_spec m "manual") as [-> | Hnm].
      * eexists; split; [reflexivity |]. split; [discriminate |].
        split.
        -- intros Heq. exfalso. exact (broadcast_status_changes _ w q Hq Heq).
        -- intros (v' & Hv' & _ & Hm). injection Hv' as <-. contradiction.
      * apply Hignored; congruence.
  - eexists; split; [reflexivity |]. split.
    + intros _. rewrite state_broadcast_status. split; [reflexivity |].
      apply broadcast_status_queue. exact Hq.
    + split.
      * intros Heq. exfalso. exact (broadcast_status_changes _ w q Hq Heq).
      * intros (v' & Hv' & _). discriminate Hv'.
Qed.

Lemma set_alarm_mode_absent_is_auto_witness :
  exists w',
    handle_ws_command (JObj set_alarm_mode_no_mode) manual_world = Ok w'
    /\ (set_alarm_mode_no_mode !! "mode" = None ->
        alarm_mode (state w') = "auto"
        /\ _broadcast_queue w' = Some ([] ++ [QStatus (status_of (state w'))])%list)
    /\ (w' = manual_world <->
        exists v, set_alarm_mode_no_mode !! "mode" = Some v
                  /\ v <> JStr "auto" /\ v <> JStr "manual").
Proof.
  apply (set_alarm_mode_absent_is_auto set_alarm_mode_no_mode manual_world []);
    reflexivity.
Defined.

Lemma handle_set_threshold (fields : gmap string json) (w : World) :
  is_str (fields !! "cmd") "set_threshold" = true ->
  handle_ws_command (JObj fields) w
  = (v ← getitem fields "value";
     value ← int_of_json v;
     mret (send_all ["/"; "mpedT"; "threshold " ++ str_of_int value; "/"; "cmd"; "re 3 4"]
             (on_state (with_detection true value) w))).
Proof. intros Hcmd. unfold handle_ws_command. rewrite Hcmd. reflexivity. Qed.

Lemma handle_set_gain (fields : gmap string json) (w : World) :
  is_str (fields !! "cmd") "set_gain" = true ->
  handle_ws_command (JObj fields) w
  = (v ← getitem fields "value";
     value ← int_of_json v;
     mret (send_all ["/"; "mpedT"; "gain " ++ str_of_int value; "/"; "cmd"; "re 3 4"] w)).
Proof.
  intros Hcmd. unfold handle_ws_command.
  destruct (fields !! "cmd") as [[| | | | c | |] |]; try discriminate Hcmd.
  simpl in Hcmd. apply String.eqb_eq in Hcmd. subst c. reflexivity.
Qed.

(** C10: a [set_threshold] or [set_gain] message whose [value] cannot be
    converted to an integer makes the handler raise; the exception
    leaves the receive loop of the observer, and the messages that
    follow are never handled.  The message
    [{"cmd": "set_threshold", "value": "abc"}] is such an input. *)
Theorem bad_value_escapes_handler :
  (forall (fields : gmap string json) (v : json) (e : exn) (w : World) (frames : list json),
      is_str (fields !! "cmd") "set_threshold" || is_str (fields !! "cmd") "set_gain" = true ->
      fields !! "value" = Some v ->
      int_of_json v = Raise e ->
      handle_ws_command (JObj fields) w = Raise e
      /\ receive_loop (JObj fields :: frames) w = (w, Escaped e, frames))
  /\ (exists fields : gmap string json,
        fields !! "cmd" = Some (JStr "set_threshold")
        /\ fields !! "value" = Some (JStr "abc")
        /\ forall (w : World) (frames : list json),
             handle_ws_command (JObj fields) w = Raise ValueError
             /\ receive_loop (JObj fields :: frames) w = (w, Escaped ValueError, frames)).
Proof.
  assert (Hgen : forall (fields : gmap string json) (v : json) (e : exn) (w : World),
             is_str (fields !! "cmd") "set_threshold" || is_str (fields !! "cmd") "set_gain" = true ->
             fields !! "value" = Some v ->
             int_of_json v = Raise e ->
             handle_ws_command (JObj fields) w = Raise e).
  { intros fields v e w Hcmd Hv Hint.
    apply orb_prop in Hcmd. destruct Hcmd as [Hcmd | Hcmd].
    - rewrite (handle_set_threshold fields w Hcmd).
      unfold getitem. rewrite Hv. simpl. rewrite Hint. reflexivity.
    - rewrite (handle_set_gain fields w Hcmd).
      unfold getitem. rewrite Hv. simpl. rewrite Hint. reflexivity. }
  split.
  - intros fields v e w frames Hcmd Hv Hint.
    pose proof (Hgen fields v e w Hcmd Hv Hint) as Hraise.
    split; [exact Hraise |]. cbn [receive_loop]. rewrite Hraise. reflexivity.
  - exists set_threshold_abc.
    split; [reflexivity | split; [reflexivity |]].
    intros w frames.
    assert (Hraise : handle_ws_command (JObj set_threshold_abc) w = Raise ValueError)
      by (apply (Hgen set_threshold_abc (JStr "abc")); reflexivity).
    split; [exact Hraise |]. cbn [receive_loop]. rewrite Hraise. reflexivity.
Qed.

(** ** Strings *)

Lemma str_app_assoc (a b c : string) : ((a ++ b) ++ c = a ++ (b ++ c))%string.
Proof. induction a as [| x a IH]; simpl; [reflexivity | now rewrite IH]. Qed.

Lemma str_app_nil_r (a : string) : (a ++ "")%string = a.
Proof. induction a as [| x a IH]; simpl; [reflexivity | now rewrite IH]. Qed.

Lemma str_length_app (a b : string) :
  String.length (a ++ b) = String.length a + String.length b.
Proof. induction a as [| x a IH]; simpl; [reflexivity | now rewrite IH]. Qed.

Lemma substring_prefix (a b : string) : substring 0 (String.length a) (a ++ b) = a.
Proof.
  induction a as [| x a IH]; simpl.
  - destruct b; reflexivity.
  - now rewrite IH.
Qed.

(** The text between two positions is what the matcher went over. *)
Lemma consumed_app (w s1 : string) : consumed (w ++ s1) s1 = w.
Proof.
  unfold consumed. rewrite str_length_app.
  replace (String.length w + String.length s1 - String.length s1)
    with (String.length w) by lia.
  apply substring_prefix.
Qed.

Lemma all_chars_app (p : ascii -> bool) (a b : string) :
  all_chars p (a ++ b) = all_chars p a && all_chars p b.
Proof.
  induction a as [| x a IH]; simpl; [reflexivity |].
  rewrite IH. now rewrite andb_assoc.
Qed.

(** ** What the matcher accepts *)

Section MatcherSound.
Context {R : Type}.
Implicit Types (k : string -> option R) (r : R).

Lemma m_star_sound (cl : cclass) k (s : string) r :
  m_star cl k s = Some r ->
  exists w s', s = (w ++ s')%string /\ all_chars (cmatch cl) w = true /\ k s' = Some r.
Proof.
  induction s as [| c s IH]; simpl; intros H.
  - exists "", "". auto.
  - destruct (cmatch cl c) eqn:Hc.
    + destruct (m_star cl k s) as [r' |] eqn:Hs.
      * injection H as ->. destruct (IH eq_refl) as (w & s' & -> & Hw & Hk).
        exists (String c w), s'. simpl. rewrite Hc, Hw. auto.
      * exists "", (String c s). auto.
    + exists "", (String c s). auto.
Qed.

Lemma m_atom_sound (a : atom) k (s : string) r :
  m_atom a k s = Some r ->
  exists w s', s = (w ++ s')%string /\ atom_lang a w /\ k s' = Some r.
Proof.
  destruct a as [cl q]. unfold m_atom, atom_lang. simpl.
  destruct q.
  - destruct s as [| c s]; [discriminate |].
    destruct (cmatch cl c) eqn:Hc; [| discriminate]. intros Hk.
    exists (String c ""), s. split; [reflexivity |]. split; [| exact Hk].
    exists c. auto.
  - apply m_star_sound.
  - destruct s as [| c s]; [discriminate |].
    destruct (cmatch cl c) eqn:Hc; [| discriminate]. intros H.
    destruct (m_star_sound _ _ _ _ H) as (w & s' & -> & Hw & Hk).
    exists (String c w), s'. simpl. rewrite Hc, Hw.
    split; [reflexivity |]. split; [| exact Hk]. split; [discriminate | reflexivity].
  - destruct s as [| c s].
    + intros Hk. exists "", "". auto.
    + destruct (cmatch cl c) eqn:Hc.
      * destruct (k s) as [r' |] eqn:Hks.
        -- intros H. injection H as ->.
           exists (String c ""), s. split; [reflexivity |]. split; [| exact Hks].
           right. exists c. auto.
        -- intros Hk. exists "", (String c s). auto.
      * intros Hk. exists "", (String c s). auto.
Qed.

Lemma m_atoms_sound (l : list atom) k (s : string) r :
  m_atoms l k s = Some r ->
  exists w s', s = (w ++ s')%string /\ atoms_lang l w /\ k s' = Some r.
Proof.
  revert s. induction l as [| a l IH]; simpl; intros s H.
  - exists "", s. auto.
  - destruct (m_atom_sound _ _ _ _ H) as (w1 & s1 & -> & Hw1 & H1).
    destruct (IH _ H1) as (w2 & s2 & -> & Hw2 & Hk).
    exists (w1 ++ w2)%string, s2. rewrite str_app_assoc.
    split; [reflexivity |]. split; [| exact Hk].
    exists w1, w2. auto.
Qed.
End MatcherSound.

(** A match found at [s] covers a word of the pattern, leaves [rest],
    and adds the text of the groups of that word. *)
Lemma m_nodes_sound (subject : string) (r : regex) (caps : list string) (s : string)
                    (m : match_obj) :
  m_nodes subject r caps s = Some m ->
  exists w new,
    s = (w ++ rest m)%string /\ groups m = (caps ++ new)%list /\ nodes_lang r w new.
Proof.
  revert caps s. induction r as [| n r IH]; intros caps s H.
  - simpl in H. injection H as <-. exists "", []. simpl. rewrite app_nil_r. auto.
  - destruct n as [cl q | body |].
    + simpl in H. destruct (m_atom_sound _ _ _ _ H) as (w1 & s1 & -> & Hw1 & H1).
      destruct (IH _ _ H1) as (w2 & new & -> & Hg & Hl).
      exists (w1 ++ w2)%string, new. rewrite str_app_assoc.
      repeat split; auto. exists w1, w2. auto.
    + simpl in H. destruct (m_atoms_sound _ _ _ _ H) as (w1 & s1 & -> & Hw1 & H1).
      rewrite consumed_app in H1.
      destruct (IH _ _ H1) as (w2 & new & -> & Hg & Hl).
      exists (w1 ++ w2)%string, (w1 :: new). rewrite str_app_assoc.
      split; [reflexivity |]. split.
      * rewrite Hg. now rewrite <- app_assoc.
      * exists w1, w2, new. auto.
    + simpl in H.
      destruct (Nat.eqb (String.length s) (String.length subject)); [| discriminate].
      destruct (IH _ _ H) as (w & new & -> & Hg & Hl).
      exists w, new. auto.
Qed.

Lemma re_match_sound (r : regex) (s : string) (m : match_obj) :
  re_match r s = Some m ->
  exists w, s = (w ++ rest m)%string /\ nodes_lang r w (groups m).
Proof.
  intros H. destruct (m_nodes_sound _ _ _ _ _ H) as (w & new & Hs & Hg & Hl).
  exists w. simpl in Hg. rewrite Hg. auto.
Qed.

Lemma search_from_sound (subject : string) (r : regex) (s : string) (m : match_obj) :
  search_from subject r s = Some m ->
  exists w, nodes_lang r w (groups m).
Proof.
  induction s as [| c s IH]; simpl; intros H.
  - destruct (m_nodes subject r [] "") as [m' |] eqn:Hm; [| discriminate].
    injection H as ->.
    destruct (m_nodes_sound _ _ _ _ _ Hm) as (w & new & _ & Hg & Hl).
    exists w. simpl in Hg. now rewrite Hg.
  - destruct (m_nodes subject r [] (String c s)) as [m' |] eqn:Hm.
    + injection H as ->.
      destruct (m_nodes_sound _ _ _ _ _ Hm) as (w & new & _ & Hg & Hl).
      exists w. simpl in Hg. now rewrite Hg.
    + now apply IH.
Qed.

Lemma re_search_sound (r : regex) (s : string) (m : match_obj) :
  re_search r s = Some m -> exists w, nodes_lang r w (groups m).
Proof. apply search_from_sound. Qed.

Lemma finditer_from_sound (subject : string) (r : regex) (skip : nat) (s : string) :
  Forall (fun m => exists w, nodes_lang r w (groups m)) (finditer_from subject r skip s).
Proof.
  revert skip. induction s as [| c s IH]; intros skip; simpl.
  - destruct skip; [| constructor].
    destruct (m_nodes subject r [] "") as [m |] eqn:Hm; [| constructor].
    constructor; [| constructor].
    destruct (m_nodes_sound _ _ _ _ _ Hm) as (w & new & _ & Hg & Hl).
    exists w. simpl in Hg. now rewrite Hg.
  - destruct skip; [| apply IH].
    destruct (m_nodes subject r [] (String c s)) as [m |] eqn:Hm; [| apply IH].
    constructor; [| apply IH].
    destruct (m_nodes_sound _ _ _ _ _ Hm) as (w & new & _ & Hg & Hl).
    exists w. simpl in Hg. now rewrite Hg.
Qed.

(** Each group of a match holds a word of the body of that group. *)
Lemma nodes_lang_groups (r : regex) (w : string) (caps : list string) :
  nodes_lang r w caps -> Forall2 atoms_lang (group_bodies r) caps.
Proof.
  revert w caps. induction r as [| n r IH]; intros w caps H.
  - destruct H as [_ ->]. constructor.
  - destruct n as [cl q | body |]; simpl in *.
    + destruct H as (w1 & w2 & _ & _ & H). exact (IH _ _ H).
    + destruct H as (w1 & w2 & caps' & _ & -> & Hb & H).
      constructor; [exact Hb | exact (IH _ _ H)].
    + exact (IH _ _ H).
Qed.

(** ** Integer conversion of matched digits *)

Lemma is_decimal_not_space (c : ascii) : is_decimal c = true -> is_space c = false.
Proof.
  destruct c as [b0 b1 b2 b3 b4 b5 b6 b7].
  destruct b0, b1, b2, b3, b4, b5, b6, b7; vm_compute; congruence.
Qed.

Lemma lstrip_first_not_space (c : ascii) (s : string) :
  is_space c = false -> lstrip (String c s) = String c s.
Proof. intros H. simpl. now rewrite H. Qed.

Lemma rstrip_no_space (s : string) :
  all_chars (fun c => negb (is_space c)) s = true -> rstrip s = s.
Proof.
  induction s as [| c s IH]; simpl; [reflexivity |].
  intros H. apply andb_prop in H. destruct H as [Hc Hs].
  rewrite (IH Hs). apply negb_true_iff in Hc. rewrite Hc.
  destruct s; reflexivity.
Qed.

Lemma all_chars_impl (p q : ascii -> bool) (s : string) :
  (forall c, p c = true -> q c = true) ->
  all_chars p s = true -> all_chars q s = true.
Proof.
  intros Hpq. induction s as [| c s IH]; simpl; [reflexivity |].
  intros H. apply andb_prop in H. destruct H as [Hc Hs].
  now rewrite (Hpq c Hc), (IH Hs).
Qed.

Lemma strip_digits (s : string) : all_chars is_decimal s = true -> strip s = s.
Proof.
  intros H. unfold strip.
  assert (Hl : lstrip s = s).
  { destruct s as [| c s]; [reflexivity |]. simpl in H.
    apply andb_prop in H. destruct H as [Hc _].
    apply lstrip_first_not_space. now apply is_decimal_not_space. }
  rewrite Hl. apply rstrip_no_space.
  apply (all_chars_impl is_decimal); [| exact H].
  intros c Hc. now rewrite (is_decimal_not_space c Hc).
Qed.

Lemma digits_value_total (s : string) (acc : Z) (after_digit : bool) :
  all_chars is_decimal s = true ->
  s <> "" \/ after_digit = true ->
  exists z, digits_value acc after_digit s = Some z.
Proof.
  revert acc after_digit. induction s as [| c s IH]; simpl; intros acc b Hall Hne.
  - destruct Hne as [Hne | ->]; [contradiction | eauto].
  - apply andb_prop in Hall. destruct Hall as [Hc Hs]. rewrite Hc.
    apply IH; auto.
Qed.

(** The limit counts digits, and a text has no more digits than
    characters. *)
Lemma count_digits_length (s : string) :
  (count_digits s <= N.of_nat (String.length s))%N.
Proof.
  induction s as [| c s IH]; [reflexivity |].
  cbn [count_digits String.length]. rewrite Nat2N.inj_succ.
  destruct (is_decimal c); lia.
Qed.

Lemma short_within (s : string) :
  short s -> (INT_MAX_STR_DIGITS <? count_digits s)%N = false.
Proof.
  unfold short. intros H. apply N.leb_le in H. apply N.ltb_ge.
  pose proof (count_digits_length s). lia.
Qed.

Lemma short_le (a b : string) :
  String.length a <= String.length b -> short b -> short a.
Proof.
  unfold short. intros Hle H. apply N.leb_le in H. apply N.leb_le. lia.
Qed.

(** [int] of a run of decimal digits is the number written, unless the
    run is longer than the limit. *)
Lemma int_of_str_digits (s : string) :
  s <> "" -> all_chars is_decimal s = true ->
  int_of_str s = if (INT_MAX_STR_DIGITS <? count_digits s)%N then Raise ValueError
                 else Ok (number s).
Proof.
  intros Hne Hall. unfold int_of_str, number. rewrite (strip_digits s Hall).
  destruct (digits_value_total s 0 false Hall (or_introl Hne)) as [z Hz].
  destruct s as [| c s]; [contradiction |].
  pose proof Hall as Hc. simpl in Hc. apply andb_prop in Hc. destruct Hc as [Hc _].
  destruct c as [b0 b1 b2 b3 b4 b5 b6 b7].
  destruct b0, b1, b2, b3, b4, b5, b6, b7; try discriminate Hc;
    cbv beta iota zeta delta [fst snd]; rewrite Hz; reflexivity.
Qed.

(** The same after a minus sign, which does not count as a digit. *)
Lemma int_of_str_minus_digits (s : string) :
  s <> "" -> all_chars is_decimal s = true ->
  int_of_str (String "-" s)
  = if (INT_MAX_STR_DIGITS <? count_digits s)%N then Raise ValueError
    else Ok (- number s)%Z.
Proof.
  intros Hne Hall. unfold int_of_str, number.
  assert (Hstrip : strip (String "-" s) = String "-" s).
  { unfold strip. rewrite lstrip_first_not_space by reflexivity.
    apply rstrip_no_space. simpl.
    apply (all_chars_impl is_decimal); [| exact Hall].
    intros c Hc. now rewrite (is_decimal_not_space c Hc). }
  rewrite Hstrip.
  destruct (digits_value_total s 0 false Hall (or_introl Hne)) as [z Hz].
  cbv beta iota zeta delta [fst snd]. rewrite Hz. reflexivity.
Qed.

(** [int] succeeds on a run of decimal digits within the limit. *)
Lemma int_of_digits (s : string) :
  s <> "" -> all_chars is_decimal s = true -> short s -> exists z, int_of_str s = Ok z.
Proof.
  intros Hne Hall Hshort. rewrite (int_of_str_digits s Hne Hall), (short_within s Hshort).
  eexists; reflexivity.
Qed.

(** [int] succeeds on such a run after a minus sign. *)
Lemma int_of_minus_digits (s : string) :
  s <> "" -> all_chars is_decimal s = true -> short (String "-" s) ->
  exists z, int_of_str (String "-" s) = Ok z.
Proof.
  intros Hne Hall Hshort. rewrite (int_of_str_minus_digits s Hne Hall).
  pose proof (short_within _ Hshort) as Hw.
  change (count_digits (String "-" s)) with (count_digits s) in Hw.
  rewrite Hw. eexists; reflexivity.
Qed.

Lemma int_of_numeric (body : list atom) (g : string) :
  numeric body -> atoms_lang body g -> short g -> exists z, int_of_str g = Ok z.
Proof.
  intros [-> | ->]; simpl.
  - intros (w1 & w2 & -> & [Hne Hall] & ->). rewrite str_app_nil_r.
    now apply int_of_digits.
  - intros (w0 & w' & -> & Hsign & w1 & w2 & -> & [Hne Hall] & ->).
    rewrite str_app_nil_r. unfold atom_lang in Hsign. simpl in Hsign.
    destruct Hsign as [-> | (c & -> & Hc)].
    + now apply int_of_digits.
    + apply Ascii.eqb_eq in Hc. subst c. now apply int_of_minus_digits.
Qed.

Lemma nth_group_total (bodies : list (list atom)) (gs : list string)
                       (i : nat) (body : list atom) :
  Forall2 atoms_lang bodies gs ->
  nth_error bodies i = Some body ->
  exists g, nth_error gs i = Some g /\ atoms_lang body g.
Proof.
  intros HF. revert i. induction HF as [| b g bs gs' Hb _ IH]; intros i Hi.
  - destruct i; discriminate Hi.
  - destruct i as [| i]; simpl in *.
    + injection Hi as <-. eauto.
    + exact (IH i Hi).
Qed.

(** [m.group(i)] is defined for every group of the pattern. *)
Lemma group_total (bodies : list (list atom)) (m : match_obj)
                  (i : nat) (body : list atom) :
  Forall2 atoms_lang bodies (groups m) ->
  nth_error bodies i = Some body ->
  exists g, group m (S i) = Ok g /\ atoms_lang body g.
Proof.
  intros HF Hi. destruct (nth_group_total _ _ _ _ HF Hi) as (g & Hg & Hl).
  exists g. unfold group. rewrite Hg. auto.
Qed.

Lemma group_short (m : match_obj) (i : nat) (g : string) :
  Forall short (groups m) -> group m (S i) = Ok g -> short g.
Proof.
  intros HS Hg. unfold group in Hg.
  destruct (nth_error (groups m) i) as [g' |] eqn:Hnth; [| discriminate Hg].
  injection Hg as <-.
  exact (proj1 (List.Forall_forall short (groups m)) HS g' (nth_error_In _ _ Hnth)).
Qed.

(** [int(m.group(i))] is defined for every group of digits within the
    limit. *)
Lemma int_group_total (bodies : list (list atom)) (m : match_obj)
                      (i : nat) (body : list atom) :
  Forall2 atoms_lang bodies (groups m) ->
  Forall short (groups m) ->
  nth_error bodies i = Some body ->
  numeric body ->
  exists z, int_group m (S i) = Ok z.
Proof.
  intros HF HS Hi Hnum. destruct (group_total _ _ _ _ HF Hi) as (g & Hg & Hl).
  destruct (int_of_numeric body g Hnum Hl (group_short m i g HS Hg)) as [z Hz].
  exists z. unfold int_group. rewrite Hg. exact Hz.
Qed.

(** ** The line parser *)

Lemma mapM_total {A B : Type} (f : A -> result B) (l : list A) :
  Forall (fun x => exists y, f x = Ok y) l -> exists ys, mapM f l = Ok ys.
Proof.
  induction 1 as [| x l [y Hy] _ [ys Hys]]; simpl.
  - eexists; reflexivity.
  - rewrite Hy. simpl. rewrite Hys. eexists; reflexivity.
Qed.

(** No group of a match is longer than the word matched. *)
Lemma nodes_lang_lengths (r : regex) (w : string) (caps : list string) :
  nodes_lang r w caps -> Forall (fun g => String.length g <= String.length w) caps.
Proof.
  revert w caps. induction r as [| n r IH]; intros w caps H.
  - destruct H as [_ ->]. constructor.
  - destruct n as [cl q | body |]; simpl in H.
    + destruct H as (w1 & w2 & -> & _ & H).
      eapply List.Forall_impl; [| exact (IH _ _ H)].
      intros g Hg. cbv beta in Hg |- *. rewrite str_length_app. lia.
    + destruct H as (w1 & w2 & caps' & -> & -> & _ & H). constructor.
      * rewrite str_length_app. lia.
      * eapply List.Forall_impl; [| exact (IH _ _ H)].
        intros g Hg. cbv beta in Hg |- *. rewrite str_length_app. lia.
    + exact (IH _ _ H).
Qed.

(** What a match inside a short text gives: every group holds a word of
    its body and is short. *)
Lemma matched_groups (r : regex) (w s : string) (caps : list string) :
  nodes_lang r w caps -> String.length w <= String.length s -> short s ->
  Forall2 atoms_lang (group_bodies r) caps /\ Forall short caps.
Proof.
  intros Hl Hle Hs. split; [exact (nodes_lang_groups _ _ _ Hl) |].
  eapply List.Forall_impl; [| exact (nodes_lang_lengths _ _ _ Hl)].
  intros g Hg. cbv beta in Hg. apply (short_le g s); [lia | exact Hs].
Qed.

Lemma re_match_groups (r : regex) (s : string) (m : match_obj) :
  re_match r s = Some m -> short s ->
  Forall2 atoms_lang (group_bodies r) (groups m) /\ Forall short (groups m).
Proof.
  intros H Hs. destruct (re_match_sound _ _ _ H) as (w & Heq & Hl).
  apply (matched_groups r w s); [exact Hl | | exact Hs].
  apply (f_equal String.length) in Heq. rewrite str_length_app in Heq. lia.
Qed.

Lemma search_from_groups (subject : string) (r : regex) (s : string) (m : match_obj) :
  search_from subject r s = Some m -> short s ->
  Forall2 atoms_lang (group_bodies r) (groups m) /\ Forall short (groups m).
Proof.
  induction s as [| c s IH]; simpl; intros H Hs.
  - destruct (m_nodes subject r [] "") as [m' |] eqn:Hm; [| discriminate].
    injection H as ->.
    destruct (m_nodes_sound _ _ _ _ _ Hm) as (w & new & Heq & Hg & Hl).
    simpl in Hg. rewrite Hg.
    apply (matched_groups r w ""); [exact Hl | | exact Hs].
    apply (f_equal String.length) in Heq. rewrite str_length_app in Heq. lia.
  - destruct (m_nodes subject r [] (String c s)) as [m' |] eqn:Hm.
    + injection H as ->.
      destruct (m_nodes_sound _ _ _ _ _ Hm) as (w & new & Heq & Hg & Hl).
      simpl in Hg. rewrite Hg.
      apply (matched_groups r w (String c s)); [exact Hl | | exact Hs].
      apply (f_equal String.length) in Heq. rewrite str_length_app in Heq. lia.
    + apply (IH H). apply (short_le s (String c s)); [simpl; lia | exact Hs].
Qed.

Lemma re_search_groups (r : regex) (s : string) (m : match_obj) :
  re_search r s = Some m -> short s ->
  Forall2 atoms_lang (group_bodies r) (groups m) /\ Forall short (groups m).
Proof. apply search_from_groups. Qed.

Lemma finditer_from_groups (subject : string) (r : regex) (skip : nat) (s : string) :
  short s ->
  Forall (fun m => Forall2 atoms_lang (group_bodies r) (groups m)
                   /\ Forall short (groups m))
         (finditer_from subject r skip s).
Proof.
  revert skip. induction s as [| c s IH]; intros skip Hs; simpl.
  - destruct skip; [| constructor].
    destruct (m_nodes subject r [] "") as [m |] eqn:Hm; [| constructor].
    constructor; [| constructor].
    destruct (m_nodes_sound _ _ _ _ _ Hm) as (w & new & Heq & Hg & Hl).
    simpl in Hg. rewrite Hg.
    apply (matched_groups r w ""); [exact Hl | | exact Hs].
    apply (f_equal String.length) in Heq. rewrite str_length_app in Heq. lia.
  - assert (Hs' : short s) by (apply (short_le s (String c s)); [simpl; lia | exact Hs]).
    destruct skip; [| apply IH; exact Hs'].
    destruct (m_nodes subject r [] (String c s)) as [m |] eqn:Hm; [| apply IH; exact Hs'].
    constructor; [| apply IH; exact Hs'].
    destruct (m_nodes_sound _ _ _ _ _ Hm) as (w & new & Heq & Hg & Hl).
    simpl in Hg. rewrite Hg.
    apply (matched_groups r w (String c s)); [exact Hl | | exact Hs].
    apply (f_equal String.length) in Heq. rewrite str_length_app in Heq. lia.
Qed.

(** Removing matches and trimming make a text no longer. *)
Lemma sub_empty_length (subject : string) (r : regex) (skip : nat) (s : string) :
  String.length (sub_empty_from subject r skip s) <= String.length s.
Proof.
  revert skip. induction s as [| c s IH]; intros skip; [reflexivity |].
  cbn [sub_empty_from].
  destruct skip as [| n]; [| specialize (IH n); simpl; lia].
  destruct (m_nodes subject r [] (String c s)) as [m |].
  - destruct (String.length (String c s) - String.length (rest m)) as [| n].
    + specialize (IH 0). simpl. lia.
    + specialize (IH n). simpl. lia.
  - specialize (IH 0). simpl. lia.
Qed.

Lemma lstrip_length (s : string) : String.length (lstrip s) <= String.length s.
Proof.
  induction s as [| c s IH]; simpl; [lia |].
  destruct (is_space c); simpl; lia.
Qed.

Lemma rstrip_length (s : string) : String.length (rstrip s) <= String.length s.
Proof.
  induction s as [| c s IH]; simpl; [lia |].
  destruct (rstrip s) as [| d t]; [destruct (is_space c) |]; simpl in *; lia.
Qed.

Lemma stripped_line_short (raw_line : string) :
  short raw_line -> short (strip (re_sub_empty ANSI_RE raw_line)).
Proof.
  apply short_le. unfold strip, re_sub_empty.
  pose proof (rstrip_length (lstrip (sub_empty_from raw_line ANSI_RE 0 raw_line))).
  pose proof (lstrip_length (sub_empty_from raw_line ANSI_RE 0 raw_line)).
  pose proof (sub_empty_length raw_line ANSI_RE 0 raw_line).
  lia.
Qed.

Ltac int_group_ok HF HS i :=
  let z := fresh "z" in
  let Hz := fresh "Hz" in
  destruct (int_group_total _ _ i _ HF HS eq_refl) as [z Hz];
  [ first [ left; reflexivity | right; reflexivity ]
  | rewrite Hz; clear Hz; cbn [mbind result_bind] ].

Ltac group_ok HF i :=
  let g := fresh "g" in
  let Hg := fresh "Hg" in
  destruct (group_total _ _ i _ HF eq_refl) as (g & Hg & _);
  rewrite Hg; clear Hg; cbn [mbind result_bind].

Ltac short_group_ok HF HS i :=
  let g := fresh "g" in
  let Hg := fresh "Hg" in
  let Hshort := fresh "Hshort" in
  destruct (group_total _ _ i _ HF eq_refl) as (g & Hg & _);
  pose proof (group_short _ i g HS Hg) as Hshort;
  rewrite Hg; clear Hg; cbn [mbind result_bind].

Lemma peer_of_match_total (pm : match_obj) :
  Forall2 atoms_lang (group_bodies MAP_PEER_RE) (groups pm) ->
  Forall short (groups pm) ->
  exists p, peer_of_match pm = Ok p.
Proof.
  intros Hl Hs. unfold peer_of_match.
  int_group_ok Hl Hs 0. int_group_ok Hl Hs 1. int_group_ok Hl Hs 2. int_group_ok Hl Hs 3.
  eexists; reflexivity.
Qed.

Lemma peers_total (peers_str : string) :
  short peers_str ->
  exists ps, mapM peer_of_match (re_finditer MAP_PEER_RE peers_str) = Ok ps.
Proof.
  intros Hs. apply mapM_total. unfold re_finditer.
  eapply List.Forall_impl; [| apply (finditer_from_groups _ _ _ _ Hs)].
  intros pm [Hl Hg]. now apply peer_of_match_total.
Qed.

(** On a line of at most [INT_MAX_STR_DIGITS] characters [parse_line]
    returns, either nothing or one event. *)
Lemma parse_line_short (now raw_line : string) :
  short raw_line -> exists r : option event, parse_line now raw_line = Ok r.
Proof.
  intros Hraw. apply stripped_line_short in Hraw.
  unfold parse_line.
  destruct (String.eqb (strip (re_sub_empty ANSI_RE raw_line)) "");
    [eexists; reflexivity |].
  destruct (re_match TIMESTAMP_RE (strip (re_sub_empty ANSI_RE raw_line)))
    as [ts_match |] eqn:Hts; [| eexists; reflexivity].
  destruct (re_match_groups _ _ _ Hts Hraw) as [Hl Hs].
  int_group_ok Hl Hs 0. short_group_ok Hl Hs 1.
  destruct (re_search DETECTION_RE g) as [m |] eqn:Hdet.
  { destruct (re_search_groups _ _ _ Hdet Hshort) as [Hd Hds].
    int_group_ok Hd Hds 1. int_group_ok Hd Hds 3. group_ok Hd 0. group_ok Hd 2.
    int_group_ok Hd Hds 4. int_group_ok Hd Hds 5. int_group_ok Hd Hds 6.
    eexists; reflexivity. }
  destruct (re_search DETECTION_COMM_RE g) as [m |] eqn:Hcomm.
  { destruct (re_search_groups _ _ _ Hcomm Hshort) as [Hd Hds].
    int_group_ok Hd Hds 1. int_group_ok Hd Hds 3. group_ok Hd 0. group_ok Hd 2.
    int_group_ok Hd Hds 4.
    eexists; reflexivity. }
  destruct (re_search CONNECTED_RE g) as [m |] eqn:Hcon.
  { destruct (re_search_groups _ _ _ Hcon Hshort) as [Hd Hds].
    int_group_ok Hd Hds 1. group_ok Hd 0. int_group_ok Hd Hds 3. group_ok Hd 2.
    group_ok Hd 4.
    eexists; reflexivity. }
  destruct (re_search MAP_RSP_RE g) as [m |] eqn:Hmap; [| eexists; reflexivity].
  destruct (re_search_groups _ _ _ Hmap Hshort) as [Hd Hds].
  short_group_ok Hd Hds 6.
  destruct (peers_total g0 Hshort0) as [ps Hps]. rewrite Hps. cbn [mbind result_bind].
  int_group_ok Hd Hds 0. group_ok Hd 1. int_group_ok Hd Hds 2. int_group_ok Hd Hds 3.
  eexists; reflexivity.
Qed.

(** C4: [parse_line] does raise.  On a line whose timestamp has 4301
    digits the conversion of the timestamp raises [ValueError], which
    nothing in [parse_line] catches; the patterns let through digit runs
    of any length and [int] does not take them all.  On every line of at
    most 4300 characters the function returns, either nothing or one
    event. *)
Theorem parse_line_raises_on_long_number (now : string) :
  parse_line now long_timestamp_line = Raise ValueError
  /\ forall raw_line, short raw_line ->
       exists r : option event, parse_line now raw_line = Ok r.
Proof.
  split.
  - vm_compute. reflexivity.
  - intros raw_line. apply parse_line_short.
Qed.

Lemma once_char_lang (c : ascii) (w : string) :
  atom_lang (CChar c, Once) w -> w = String c "".
Proof.
  intros (d & -> & Hd). simpl in Hd. apply Ascii.eqb_eq in Hd. now subst d.
Qed.

(** Where [TIMESTAMP_RE] matches, the line begins with the prefix. *)
Lemma timestamp_match_prefix (line : string) (m : match_obj) :
  re_match TIMESTAMP_RE line = Some m -> has_ts_prefix line.
Proof.
  intros H. destruct (re_match_sound _ _ _ H) as (w & -> & Hl).
  simpl in Hl.
  destruct Hl as (o & w1 & -> & Ho & ds & w2 & caps1 & -> & _ & Hds
                  & c & w3 & -> & Hc & ws1 & w4 & -> & Hws1
                  & i & w5 & -> & Hi & ws2 & w6 & -> & Hws2
                  & tail & w7 & caps2 & -> & _ & _ & -> & _).
  apply once_char_lang in Ho, Hc, Hi. subst o c i.
  destruct Hds as (d1 & d2 & -> & [Hne Hall] & ->).
  destruct Hws1 as [Hne1 Hall1]. destruct Hws2 as [Hne2 Hall2].
  simpl in Hall, Hall1, Hall2.
  exists d1, ws1, ws2, (tail ++ rest m)%string.
  repeat (split; [assumption |]).
  rewrite !str_app_nil_r, !str_app_assoc. reflexivity.
Qed.

(** C5: a line that, once the escape sequences are removed and the
    white space trimmed, does not begin with the timestamp prefix yields
    nothing, whatever follows. *)
Theorem parse_line_requires_prefix (now raw_line : string) :
  ~ has_ts_prefix (strip (re_sub_empty ANSI_RE raw_line)) ->
  parse_line now raw_line = Ok None.
Proof.
  intros Hno. unfold parse_line.
  destruct (String.eqb (strip (re_sub_empty ANSI_RE raw_line)) ""); [reflexivity |].
  destruct (re_match TIMESTAMP_RE (strip (re_sub_empty ANSI_RE raw_line)))
    as [ts_match |] eqn:Hts; [| reflexivity].
  exfalso. apply Hno. exact (timestamp_match_prefix _ _ Hts).
Qed.

Lemma parse_line_requires_prefix_witness :
  parse_line "t" "CMD:DETECTION A(1)-B(2) th:500 val:600 c:3" = Ok None.
Proof.
  apply (parse_line_requires_prefix "t" "CMD:DETECTION A(1)-B(2) th:500 val:600 c:3").
  intros (ds & ws1 & ws2 & tail & _ & _ & _ & _ & _ & _ & Heq).
  vm_compute in Heq. discriminate Heq.
Defined.

(** C3: a map response whose peer list is empty is not parsed.  The line
    ends at [adv:0:], or the white space that followed was trimmed, so
    the white space that [MAP_RSP_RE] asks for after the colon is not
    there and the line yields nothing.  The same header followed by one
    peer record, or by a fragment that is no peer record, yields a map
    event, with one peer and with none. *)
Theorem map_rsp_without_peers_is_dropped (now : string) :
  parse_line now "[123] I CMD:MAP_RSP from 5 ver:1.0 gain:3 voltage:3300 scan:1 adv:0:"
    = Ok None
  /\ parse_line now "[123] I CMD:MAP_RSP from 5 ver:1.0 gain:3 voltage:3300 scan:1 adv:0: "
    = Ok None
  /\ parse_line now
       "[123] I CMD:MAP_RSP from 5 ver:1.0 gain:3 voltage:3300 scan:1 adv:1: [7 th3:12 -70dBm dt:4]"
    = Ok (Some (Map (MapEvent 5 "1.0" 3 3300 [PeerInfo 7 12 (-70) 4] 123 now)))
  /\ parse_line now
       "[123] I CMD:MAP_RSP from 5 ver:1.0 gain:3 voltage:3300 scan:1 adv:1: [7 th3:12]"
    = Ok (Some (Map (MapEvent 5 "1.0" 3 3300 [] 123 now))).
Proof. repeat split; vm_compute; reflexivity. Qed.

(** The detection line of the protocol description, and what routing it
    does to the raw alarm state. *)
Example parse_detection_line (now : string) :
  parse_line now "[123] I CMD:DETECTION A(1)-B(2) th:500 val:600 c:3"
  = Ok (Some (Detection (DetectionEvent 1 2 "A" "B" 500 600 3 123 now))).
Proof. vm_compute. reflexivity. Qed.

Example route_detection_line :
  alarm_state (state (handle_event 1%float
     (Detection (DetectionEvent 1 2 "A" "B" 500 600 3 123 "t")) World_init)) = "alarm".
Proof. reflexivity. Qed.

(** * Further properties *)

(** ** Detections and the published status *)

(** Whatever the state, a call [set_alarm("alarm")] leaves a state whose
    effective state is [alarm]. *)
Lemma set_alarm_alarm_effective (s : SensorState) :
  get_effective_state (set_alarm "alarm" s) = "alarm".
Proof.
  unfold get_effective_state, set_alarm. simpl.
  rewrite (String.eqb_sym "alarm" (alarm_state s)).
  destruct (String.eqb (alarm_state s) "alarm"), (_acknowledged s),
    (String.eqb (alarm_mode s) "manual"); reflexivity.
Qed.

(** X1: routing a detection always shows: the raw and the effective
    state are [alarm] afterwards, in any mode and whatever was
    acknowledged before, the detection time is the clock reading, and
    the status put on the queue last says [alarm]. *)
Theorem detection_is_reported (now : float) (d : detection_event) (w : World) :
  alarm_state (state (handle_event now (Detection d) w)) = "alarm"
  /\ get_effective_state (state (handle_event now (Detection d) w)) = "alarm"
  /\ last_detection_time (state (handle_event now (Detection d) w)) = now
  /\ forall q, _broadcast_queue w = Some q ->
       exists st, _broadcast_queue (handle_event now (Detection d) w)
                  = Some (q ++ [QEvent (Detection d); QStatus st])%list
                  /\ st_alarm_state st = "alarm".
Proof.
  assert (Hst : state (handle_event now (Detection d) w)
                = add_event (Detection d)
                    (set_alarm "alarm" (with_last_detection_time now (state w)))).
  { unfold handle_event. rewrite state_broadcast_status, state_broadcast_event.
    reflexivity. }
  assert (Hadd : forall ev s, alarm_state (add_event ev s) = alarm_state s
                 /\ get_effective_state (add_event ev s) = get_effective_state s
                 /\ last_detection_time (add_event ev s) = last_detection_time s).
  { intros ev s. unfold add_event.
    destruct (Nat.ltb (max_events s) (length (ev :: events s))); auto. }
  destruct (Hadd (Detection d)
              (set_alarm "alarm" (with_last_detection_time now (state w))))
    as (Ha & He & Ht).
  rewrite Hst, Ha, He, Ht, set_alarm_alarm_effective.
  repeat split.
  intros q Hq. eexists. split.
  - unfold handle_event, broadcast_status, broadcast_event, put_nowait.
    simpl. rewrite Hq. simpl. rewrite <- app_assoc. reflexivity.
  - simpl. rewrite He. apply set_alarm_alarm_effective.
Qed.


Lemma put_nowait_none (item : queued) (w : World) :
  _broadcast_queue w = None -> put_nowait item w = w.
Proof. intros Hq. unfold put_nowait. now rewrite Hq. Qed.

Lemma handle_event_no_queue (now : float) (ev : event) (w : World) :
  _broadcast_queue w = None -> _broadcast_queue (handle_event now ev w) = None.
Proof.
  intros Hq. unfold handle_event.
  match goal with
  | |- context [broadcast_event ev ?w2] =>
      assert (Hq2 : _broadcast_queue w2 = None) by (destruct ev; exact Hq);
      unfold broadcast_status, broadcast_event;
      rewrite !(put_nowait_none _ _ Hq2); exact Hq2
  end.
Qed.



Lemma handle_event_configuration (now : float) (ev : event) (w : World) :
  configuration (state (handle_event now ev w)) = configuration (state w).
Proof.
  unfold handle_event. rewrite state_broadcast_status, state_broadcast_event.
  destruct ev; simpl;
    try (unfold add_event;
         match goal with |- context [Nat.ltb ?a ?b] => destruct (Nat.ltb a b) end);
    reflexivity.
Qed.

(** X3: routed events never touch the configuration: the link flag, the
    alarm mode, the capacity of the history, the port, the detection
    switch and the saved threshold are after any routed sequence what
    they were before. *)
Theorem route_keeps_configuration (timed : list (float * event)) (w : World) :
  configuration (state (route timed w)) = configuration (state w).
Proof.
  revert w. induction timed as [| te timed IH]; intros w; [reflexivity |].
  change (route (te :: timed) w) with (route timed (handle_event (fst te) (snd te) w)).
  rewrite IH. apply handle_event_configuration.
Qed.

(** ** Auto reset *)

Lemma check_auto_reset_noop (now : float) (w : World) :
  alarm_mode (state w) <> "auto" \/ alarm_state (state w) <> "alarm" ->
  check_auto_reset now w = w.
Proof.
  intros H. unfold check_auto_reset.
  destruct (String.eqb_spec (alarm_mode (state w)) "auto") as [Hm | Hm];
    destruct (String.eqb_spec (alarm_state (state w)) "alarm") as [Ha | Ha];
    simpl; try reflexivity.
  destruct H; contradiction.
Qed.

(** X4: outside mode [auto], or in a raw state other than [alarm], the
    auto-reset check changes nothing, whatever the clock says: an alarm
    in manual mode is never cleared by the passage of time. *)
Theorem check_auto_reset_inactive (now : float) (w : World) :
  alarm_mode (state w) <> "auto" \/ alarm_state (state w) <> "alarm" ->
  check_auto_reset now w = w.
Proof. exact (check_auto_reset_noop now w). Qed.

Lemma check_auto_reset_inactive_witness :
  check_auto_reset 1000%float (mkWorld (set_alarm "alarm" manual_clear) (Some []))
  = mkWorld (set_alarm "alarm" manual_clear) (Some []).
Proof.
  apply (check_auto_reset_inactive 1000%float
           (mkWorld (set_alarm "alarm" manual_clear) (Some []))).
  left. discriminate.
Defined.

(** X5: when the check fires it publishes one status, which says
    [clear], and drops the acknowledgement; a second check, at any
    later clock reading, changes nothing more. *)
Theorem check_auto_reset_publishes_clear (now later : float) (w : World) (q : list queued) :
  alarm_mode (state w) = "auto" ->
  alarm_state (state w) = "alarm" ->
  PrimFloat.ltb 4.0 (PrimFloat.sub now (last_detection_time (state w))) = true ->
  _broadcast_queue w = Some q ->
  _broadcast_queue (check_auto_reset now w)
  = Some (q ++ [QStatus (StatusMsg (serial_connected (state w)) "clear" "auto"
                                   (detection_enabled (state w)))])%list
  /\ _acknowledged (state (check_auto_reset now w)) = false
  /\ check_auto_reset later (check_auto_reset now w) = check_auto_reset now w.
Proof.
  intros Hmode Hstate Hlate Hq.
  assert (Hfired : check_auto_reset now w = broadcast_status (on_state (set_alarm "clear") w)).
  { unfold check_auto_reset, AUTO_RESET_TIMEOUT. now rewrite Hmode, Hstate, Hlate. }
  rewrite Hfired. split; [| split].
  - rewrite (broadcast_status_queue _ q) by exact Hq.
    unfold status_of, get_effective_state. simpl. rewrite Hmode. reflexivity.
  - rewrite state_broadcast_status. simpl. rewrite Hstate. reflexivity.
  - apply check_auto_reset_noop. right.
    rewrite state_broadcast_status. simpl. discriminate.
Qed.

Lemma check_auto_reset_publishes_clear_witness :
  _broadcast_queue (check_auto_reset 104.5%float alarmed_world)
  = Some ([] ++ [QStatus (StatusMsg (serial_connected (state alarmed_world)) "clear" "auto"
                                    (detection_enabled (state alarmed_world)))])%list
  /\ _acknowledged (state (check_auto_reset 104.5%float alarmed_world)) = false
  /\ check_auto_reset 200%float (check_auto_reset 104.5%float alarmed_world)
     = check_auto_reset 104.5%float alarmed_world.
Proof.
  apply (check_auto_reset_publishes_clear 104.5%float 200%float alarmed_world []);
    reflexivity.
Defined.

(** ** Acknowledgement *)

(** X6: acknowledging twice is acknowledging once; in manual mode the
    effective state is [clear] afterwards, and in any other mode neither
    the raw nor the effective state changes. *)
Theorem acknowledge_effect (s : SensorState) :
  acknowledge (acknowledge s) = acknowledge s
  /\ (alarm_mode s = "manual" -> get_effective_state (acknowledge s) = "clear")
  /\ (alarm_mode s <> "manual" ->
      alarm_state (acknowledge s) = alarm_state s
      /\ get_effective_state (acknowledge s) = get_effective_state s).
Proof.
  unfold acknowledge, get_effective_state.
  destruct (String.eqb_spec (alarm_mode s) "manual") as [Hm | Hm]; simpl.
  - rewrite Hm. simpl. split; [reflexivity |]. split; [reflexivity |].
    intros Hne. contradiction.
  - destruct (String.eqb_spec (alarm_mode s) "manual") as [Hm' | _]; [contradiction |].
    simpl. rewrite !andb_false_r.
    split; [reflexivity |]. split; [intros Heq; contradiction |].
    intros _. split; reflexivity.
Qed.

Lemma acknowledge_effect_witness :
  get_effective_state (acknowledge (set_alarm "alarm" manual_clear)) = "clear"
  /\ alarm_state (acknowledge (set_alarm "alarm" SensorState_init))
     = alarm_state (set_alarm "alarm" SensorState_init)
  /\ get_effective_state (acknowledge (set_alarm "alarm" SensorState_init))
     = get_effective_state (set_alarm "alarm" SensorState_init).
Proof.
  split.
  - apply (proj1 (proj2 (acknowledge_effect (set_alarm "alarm" manual_clear)))).
    reflexivity.
  - apply (proj2 (proj2 (acknowledge_effect (set_alarm "alarm" SensorState_init)))).
    discriminate.
Defined.

(** X7: an acknowledgement given in mode [auto] does not show, but it
    stays: when an observer acknowledges an alarm in mode [auto] and the
    mode is then set to [manual], the raw state is still [alarm], the
    effective state is [clear], and no auto-reset check changes that. *)
Theorem acknowledged_alarm_hidden_by_manual (now : float) (w : World) :
  alarm_mode (state w) = "auto" ->
  alarm_state (state w) = "alarm" ->
  exists w',
    receive_loop [acknowledge_msg; set_mode_msg "manual"] w = (w', Disconnected, [])
    /\ alarm_state (state w') = "alarm"
    /\ get_effective_state (state w') = "clear"
    /\ check_auto_reset now w' = w'.
Proof.
  intros Hmode Hstate.
  exists (broadcast_status (on_state (with_alarm_mode "manual")
            (broadcast_status (on_state acknowledge w)))).
  assert (Hack : acknowledge (state w) = with_alarm "alarm" true (state w)).
  { unfold acknowledge. rewrite Hmode, Hstate. reflexivity. }
  split; [reflexivity |].
  rewrite !state_broadcast_status. simpl. rewrite state_broadcast_status. simpl.
  rewrite Hack. split; [reflexivity |]. split; [reflexivity |].
  apply check_auto_reset_noop. left.
  rewrite state_broadcast_status. simpl. discriminate.
Qed.

Lemma acknowledged_alarm_hidden_by_manual_witness :
  exists w',
    receive_loop [acknowledge_msg; set_mode_msg "manual"] alarmed_world
    = (w', Disconnected, [])
    /\ alarm_state (state w') = "alarm"
    /\ get_effective_state (state w') = "clear"
    /\ check_auto_reset 1000%float w' = w'.
Proof.
  apply (acknowledged_alarm_hidden_by_manual 1000%float alarmed_world); reflexivity.
Defined.

(** ** Serial commands *)

Lemma send_serial_dropped (cmd : string) (w : World) :
  (forall port, serial_conn (state w) = Some port -> is_open port = false) ->
  send_serial cmd w = w.
Proof.
  intros H. unfold send_serial.
  destruct (serial_conn (state w)) as [port |]; [| reflexivity].
  now rewrite (H port eq_refl).
Qed.

Lemma send_all_closed (cmds : list string) (w : World) :
  (forall port, serial_conn (state w) = Some port -> is_open port = false) ->
  send_all cmds w = w.
Proof.
  intros H. unfold send_all.
  induction cmds as [| cmd cmds IH]; simpl; [reflexivity |].
  rewrite (send_serial_dropped cmd w H). exact IH.
Qed.

(** X8: while there is no port, or the port is closed, commands are
    dropped: a sequence of serial commands leaves everything as it was. *)
Theorem send_all_dropped (cmds : list string) (w : World) :
  (forall port, serial_conn (state w) = Some port -> is_open port = false) ->
  send_all cmds w = w.
Proof. exact (send_all_closed cmds w). Qed.

Lemma send_all_dropped_witness :
  send_all (threshold_sequence 500) manual_world = manual_world.
Proof.
  apply (send_all_dropped (threshold_sequence 500) manual_world).
  intros port H. discriminate H.
Defined.

Lemma send_all_open (cmds : list string) (w : World) (port : serial_port) :
  serial_conn (state w) = Some port ->
  is_open port = true ->
  send_all cmds w
  = on_state (with_serial_conn
               (Some (SerialPort true (written port ++ List.map wire cmds)%list))) w.
Proof.
  unfold send_all. revert w port.
  induction cmds as [| cmd cmds IH]; intros w port Hconn Hopen; simpl.
  - rewrite app_nil_r. destruct w as [s q]. destruct s. simpl in *.
    rewrite Hconn. destruct port as [o wr]. simpl in Hopen. now rewrite Hopen.
  - assert (Hstep : send_serial cmd w
                    = on_state (with_serial_conn
                        (Some (SerialPort true (written port ++ [wire cmd])%list))) w).
    { unfold send_serial. rewrite Hconn, Hopen. reflexivity. }
    rewrite Hstep.
    rewrite (IH (on_state (with_serial_conn
                   (Some (SerialPort true (written port ++ [wire cmd])%list))) w)
                (SerialPort true (written port ++ [wire cmd])%list) eq_refl eq_refl).
    simpl. rewrite <- app_assoc. reflexivity.
Qed.

(** X9: on an open port a sequence of commands is written in order,
    every command followed by a carriage return, after what was written
    before, and nothing else in the world changes. *)
Theorem send_all_written (cmds : list string) (w : World) (port : serial_port) :
  serial_conn (state w) = Some port ->
  is_open port = true ->
  send_all cmds w
  = on_state (with_serial_conn
               (Some (SerialPort true (written port ++ List.map wire cmds)%list))) w.
Proof. exact (send_all_open cmds w port). Qed.

Lemma send_all_written_witness :
  send_all ["/"; "cmd"; "map"] open_world
  = on_state (with_serial_conn
               (Some (SerialPort true ([] ++ List.map wire ["/"; "cmd"; "map"])%list)))
             open_world.
Proof.
  apply (send_all_written ["/"; "cmd"; "map"] open_world (SerialPort true []));
    reflexivity.
Defined.

(** ** The command dispatcher, further *)

Lemma handle_set_threshold_int (z : Z) (w : World) :
  handle_ws_command (set_threshold_msg z) w
  = Ok (send_all (threshold_sequence z) (on_state (with_detection true z) w)).
Proof. reflexivity. Qed.

Lemma handle_toggle_detection (w : World) :
  handle_ws_command toggle_detection_msg w
  = Ok (broadcast_status
          (send_all
             (threshold_sequence
                (if negb (detection_enabled (state w))
                 then saved_threshold (state w) else 0%Z))
             (on_state (with_detection (negb (detection_enabled (state w)))
                                       (saved_threshold (state w))) w))).
Proof. reflexivity. Qed.

Lemma serial_conn_broadcast_status (w : World) :
  serial_conn (state (broadcast_status w)) = serial_conn (state w).
Proof. now rewrite state_broadcast_status. Qed.

(** X10: the saved threshold survives switching detection off and on.
    On an open port, a [set_threshold] message with the integer [z]
    followed by two [toggle_detection] messages writes the threshold
    sequence for [z], then for 0, then for [z] again, and leaves
    detection enabled with [z] saved. *)
Theorem threshold_survives_toggle (z : Z) (w : World) (port : serial_port) :
  serial_conn (state w) = Some port ->
  is_open port = true ->
  exists w',
    receive_loop [set_threshold_msg z; toggle_detection_msg; toggle_detection_msg] w
    = (w', Disconnected, [])
    /\ serial_conn (state w')
       = Some (SerialPort true
                 (written port
                  ++ List.map wire (threshold_sequence z ++ threshold_sequence 0
                                    ++ threshold_sequence z))%list)
    /\ detection_enabled (state w') = true
    /\ saved_threshold (state w') = z.
Proof.
  intros Hconn Hopen.
  cbn [receive_loop].
  rewrite handle_set_threshold_int.
  rewrite (send_all_open (threshold_sequence z)
             (on_state (with_detection true z) w) port Hconn Hopen).
  set (w1 := on_state _ (on_state (with_detection true z) w)).
  rewrite (handle_toggle_detection w1).
  change (detection_enabled (state w1)) with true.
  change (saved_threshold (state w1)) with z.
  cbn [negb].
  rewrite (send_all_open (threshold_sequence 0)
             (on_state (with_detection false z) w1)
             (SerialPort true (written port ++ List.map wire (threshold_sequence z))%list)
             eq_refl eq_refl).
  set (w2 := broadcast_status _).
  rewrite (handle_toggle_detection w2).
  assert (Hen : detection_enabled (state w2) = false)
    by (unfold w2; now rewrite state_broadcast_status).
  assert (Hsaved : saved_threshold (state w2) = z)
    by (unfold w2; now rewrite state_broadcast_status).
  rewrite Hen, Hsaved. cbn [negb].
  assert (Hconn2 : serial_conn (state (on_state (with_detection true z) w2))
                   = Some (SerialPort true
                       ((written port ++ List.map wire (threshold_sequence z))
                        ++ List.map wire (threshold_sequence 0))%list)).
  { unfold w2. simpl. now rewrite state_broadcast_status. }
  rewrite (send_all_open (threshold_sequence z) _ _ Hconn2 eq_refl).
  eexists. split; [reflexivity |].
  rewrite !state_broadcast_status.
  cbn [state on_state serial_conn with_serial_conn with_detection written
       detection_enabled saved_threshold].
  split; [| split; reflexivity].
  rewrite !List.map_app, <- !app_assoc. reflexivity.
Qed.

Lemma threshold_survives_toggle_witness :
  exists w',
    receive_loop [set_threshold_msg 750; toggle_detection_msg; toggle_detection_msg]
                 open_world
    = (w', Disconnected, [])
    /\ serial_conn (state w')
       = Some (SerialPort true
                 ([] ++ List.map wire (threshold_sequence 750 ++ threshold_sequence 0
                                       ++ threshold_sequence 750))%list)
    /\ detection_enabled (state w') = true
    /\ saved_threshold (state w') = 750%Z.
Proof.
  apply (threshold_survives_toggle 750 open_world (SerialPort true [])); reflexivity.
Defined.

(** X11: a message that is not a JSON object, and a [set_threshold] or
    [set_gain] message without a [value] field, make the handler raise
    ([AttributeError], [KeyError]) before anything is changed; the
    receive loop ends there and the later messages are never handled. *)
Theorem malformed_message_escapes (msg : json) (w : World) (frames : list json) :
  ((forall fields, msg <> JObj fields) ->
     handle_ws_command msg w = Raise AttributeError
     /\ receive_loop (msg :: frames) w = (w, Escaped AttributeError, frames))
  /\ (forall fields,
        msg = JObj fields ->
        is_str (fields !! "cmd") "set_threshold" || is_str (fields !! "cmd") "set_gain" = true ->
        fields !! "value" = None ->
        handle_ws_command msg w = Raise KeyError
        /\ receive_loop (msg :: frames) w = (w, Escaped KeyError, frames)).
Proof.
  split.
  - intros Hno.
    assert (Hraise : handle_ws_command msg w = Raise AttributeError).
    { destruct msg; try reflexivity. exfalso. apply (Hno fields). reflexivity. }
    split; [exact Hraise |]. cbn [receive_loop]. now rewrite Hraise.
  - intros fields -> Hcmd Hvalue.
    assert (Hraise : handle_ws_command (JObj fields) w = Raise KeyError).
    { apply orb_prop in Hcmd. destruct Hcmd as [Hcmd | Hcmd].
      - rewrite (handle_set_threshold fields w Hcmd). unfold getitem.
        now rewrite Hvalue.
      - rewrite (handle_set_gain fields w Hcmd). unfold getitem.
        now rewrite Hvalue. }
    split; [exact Hraise |]. cbn [receive_loop]. now rewrite Hraise.
Qed.

Lemma malformed_message_escapes_witness :
  (handle_ws_command (JArr []) manual_world = Raise AttributeError
   /\ receive_loop [JArr []; acknowledge_msg] manual_world
      = (manual_world, Escaped AttributeError, [acknowledge_msg]))
  /\ (handle_ws_command (JObj {[ "cmd" := JStr "set_gain" ]}) manual_world = Raise KeyError
      /\ receive_loop [JObj {[ "cmd" := JStr "set_gain" ]}; acknowledge_msg] manual_world
         = (manual_world, Escaped KeyError, [acknowledge_msg])).
Proof.
  split.
  - apply (proj1 (malformed_message_escapes (JArr []) manual_world [acknowledge_msg])).
    intros fields H. discriminate H.
  - apply (proj2 (malformed_message_escapes (JObj {[ "cmd" := JStr "set_gain" ]})
                    manual_world [acknowledge_msg])
             {[ "cmd" := JStr "set_gain" ]}); reflexivity.
Defined.

(** X12: an object whose [cmd] field is missing, is not a string, or is
    none of the six known names is ignored: the handler returns and the
    world is what it was. *)
Theorem unknown_command_ignored (fields : gmap string json) (w : World) :
  forallb (fun name => negb (is_str (fields !! "cmd") name)) known_commands = true ->
  handle_ws_command (JObj fields) w = Ok w.
Proof.
  intros H. simpl in H.
  repeat (apply andb_prop in H; destruct H as [?H H]).
  repeat match goal with
         | Hn : negb _ = true |- _ => apply negb_true_iff in Hn
         end.
  unfold handle_ws_command.
  repeat match goal with
         | Hn : is_str _ _ = false |- _ => rewrite Hn; clear Hn
         end.
  reflexivity.
Qed.

Lemma unknown_command_ignored_witness :
  handle_ws_command (JObj {[ "cmd" := JStr "reboot"; "value" := JInt 1 ]}) manual_world
  = Ok manual_world.
Proof.
  apply (unknown_command_ignored {[ "cmd" := JStr "reboot"; "value" := JInt 1 ]}
           manual_world).
  reflexivity.
Defined.

Lemma send_serial_ingested (cmd : string) (w : World) :
  ingested (state (send_serial cmd w)) = ingested (state w).
Proof.
  unfold send_serial.
  destruct (serial_conn (state w)) as [port |]; [| reflexivity].
  destruct (is_open port); reflexivity.
Qed.

Lemma send_all_ingested (cmds : list string) (w : World) :
  ingested (state (send_all cmds w)) = ingested (state w).
Proof.
  unfold send_all. revert w.
  induction cmds as [| cmd cmds IH]; intros w; simpl; [reflexivity |].
  rewrite IH. apply send_serial_ingested.
Qed.

(** X13: no command of an observer touches what the serial reader
    maintains: after any message that the handler accepts, the link
    flag, the time of the last detection, the history, its capacity and
    the map cache are unchanged. *)
Theorem commands_keep_ingested (msg : json) (w w' : World) :
  handle_ws_command msg w = Ok w' ->
  ingested (state w') = ingested (state w).
Proof.
  destruct msg as [| b | z | f | s | items | fields]; try discriminate.
  unfold handle_ws_command.
  destruct (is_str (fields !! "cmd") "set_threshold").
  { destruct (getitem fields "value") as [v | e]; [| discriminate].
    cbn [mbind result_bind].
    destruct (int_of_json v) as [value | e]; [| discriminate].
    cbn [mbind result_bind mret result_ret].
    intros H. unfold mret, result_ret in H. injection H as <-. rewrite ?send_all_ingested, ?send_serial_ingested; reflexivity. }
  destruct (is_str (fields !! "cmd") "set_gain").
  { destruct (getitem fields "value") as [v | e]; [| discriminate].
    cbn [mbind result_bind].
    destruct (int_of_json v) as [value | e]; [| discriminate].
    cbn [mbind result_bind mret result_ret].
    intros H. unfold mret, result_ret in H. injection H as <-. rewrite ?send_all_ingested, ?send_serial_ingested; reflexivity. }
  destruct (is_str (fields !! "cmd") "map").
  { cbn [mret result_ret]. intros H. unfold mret, result_ret in H. injection H as <-. rewrite ?send_all_ingested, ?send_serial_ingested; reflexivity. }
  destruct (is_str (fields !! "cmd") "acknowledge").
  { cbn [mret result_ret]. intros H. unfold mret, result_ret in H. injection H as <-.
    rewrite state_broadcast_status. cbn [state on_state].
    unfold acknowledge. destruct (String.eqb (alarm_mode (state w)) "manual"); reflexivity. }
  destruct (is_str (fields !! "cmd") "toggle_detection").
  { cbn [mret result_ret]. intros H. unfold mret, result_ret in H. injection H as <-.
    rewrite ?state_broadcast_status, ?send_all_ingested, ?send_serial_ingested; reflexivity. }
  destruct (is_str (fields !! "cmd") "set_alarm_mode").
  { cbn [mret result_ret].
    destruct (default (JStr "auto") (fields !! "mode")) as [| | | | m | |];
      try (intros H; unfold mret, result_ret in H; injection H as <-; reflexivity).
    destruct (String.eqb m "auto" || String.eqb m "manual");
      intros H; unfold mret, result_ret in H; injection H as <-; [| reflexivity].
    now rewrite state_broadcast_status. }
  cbn [mret result_ret]. intros H. unfold mret, result_ret in H. injection H as <-. reflexivity.
Qed.

Lemma commands_keep_ingested_witness :
  ingested (state (broadcast_status (on_state acknowledge manual_world)))
  = ingested (state manual_world).
Proof.
  apply (commands_keep_ingested acknowledge_msg manual_world). reflexivity.
Defined.

(** ** The receive loop *)

Lemma receive_loop_disconnected (frames : list json) (w w' : World) (rest : list json) :
  receive_loop frames w = (w', Disconnected, rest) -> rest = [].
Proof.
  revert w. induction frames as [| msg frames IH]; intros w; cbn [receive_loop].
  - intros H. now injection H as _ <-.
  - destruct (handle_ws_command msg w) as [w1 | e]; [apply IH | discriminate].
Qed.



(** ** The map cache, further *)

Lemma map_reports_app (l1 l2 : list (float * event)) :
  map_reports (l1 ++ l2) = (map_reports l1 ++ map_reports l2)%list.
Proof. unfold map_reports. apply flat_map_app. Qed.

Lemma permutation_of_latest (l : list map_event) (u : Z) (timed : list (float * event)) :
  Permutation l (latest_report u timed) -> l = latest_report u timed.
Proof.
  unfold latest_report.
  destruct (List.find (of_unit u) (rev (map_reports timed))) as [m |]; intros H.
  - apply Permutation_length_1_inv. now symmetry.
  - apply Permutation_nil. now symmetry.
Qed.

Lemma filter_unit_removed (m : map_event) (l : list map_event) :
  List.filter (of_unit (unit_id m)) (List.filter (fun v => negb (same_unit m v)) l) = [].
Proof.
  induction l as [| v l IH]; simpl; [reflexivity |].
  destruct (same_unit m v) eqn:Hsame; simpl; [exact IH |].
  unfold of_unit, same_unit in *. now rewrite Hsame.
Qed.

Lemma filter_unit_kept (u : Z) (m : map_event) (l : list map_event) :
  unit_id m <> u ->
  List.filter (of_unit u) (List.filter (fun v => negb (same_unit m v)) l)
  = List.filter (of_unit u) l.
Proof.
  intros Hne. induction l as [| v l IH]; simpl; [reflexivity |].
  destruct (of_unit u v) eqn:Hv; destruct (same_unit m v) eqn:Hsame; simpl;
    rewrite ?Hv; try (now rewrite IH).
  unfold of_unit, same_unit in *. apply Z.eqb_eq in Hv, Hsame. congruence.
Qed.

Lemma map_data_latest (timed : list (float * event)) (u : Z) :
  List.filter (of_unit u) (map_data (state (route timed World_init)))
  = latest_report u timed.
Proof.
  induction timed as [| te timed IH] using rev_ind; [reflexivity |].
  rewrite route_app.
  change (route [te] (route timed World_init))
    with (handle_event (fst te) (snd te) (route timed World_init)).
  assert (Hrep : latest_report u (timed ++ [te])
                 = match snd te with
                   | Map m => if of_unit u m then [m] else latest_report u timed
                   | _ => latest_report u timed
                   end).
  { unfold latest_report. rewrite map_reports_app, List.rev_app_distr.
    unfold map_reports at 1. simpl.
    destruct (snd te) as [d | c | c | m]; simpl; try reflexivity.
    destruct (of_unit u m); reflexivity. }
  rewrite Hrep.
  destruct (snd te) as [d | c | c | m] eqn:Hev;
    try (rewrite map_data_handle_other by reflexivity; exact IH).
  assert (Hperm :
    Permutation
      (List.filter (of_unit u)
         (map_data (state (handle_event (fst te) (Map m) (route timed World_init)))))
      (List.filter (of_unit u)
         (List.filter (fun v => negb (same_unit m v))
            (map_data (state (route timed World_init)))) ++ List.filter (of_unit u) [m])).
  { rewrite <- List.filter_app. apply filter_permutation, map_data_handle_perm. }
  destruct (of_unit u m) eqn:Hu.
  - apply Permutation_length_1_inv. symmetry.
    etransitivity; [exact Hperm |].
    simpl. rewrite Hu.
    unfold of_unit in Hu. apply Z.eqb_eq in Hu. subst u.
    now rewrite filter_unit_removed.
  - apply permutation_of_latest.
    etransitivity; [exact Hperm |].
    simpl. rewrite Hu, app_nil_r. rewrite <- IH.
    unfold of_unit in Hu. apply Z.eqb_neq in Hu.
    now rewrite (filter_unit_kept u m _ Hu).
Qed.

(** X15: after any routed sequence, the cache holds for every unit its
    latest map report and nothing else: one entry if the unit reported,
    none if it did not. *)
Theorem map_data_latest_reports (timed : list (float * event)) (u : Z) :
  List.filter (of_unit u) (map_data (state (route timed World_init)))
  = latest_report u timed.
Proof. exact (map_data_latest timed u). Qed.

(** The cache is empty exactly when no map report was routed. *)
Lemma map_data_empty (timed : list (float * event)) :
  map_data (state (route timed World_init)) = [] <-> map_reports timed = [].
Proof.
  split; intros H.
  - destruct (rev (map_reports timed)) as [| m l] eqn:Hrev.
    + apply (f_equal (@rev map_event)) in Hrev. now rewrite rev_involutive in Hrev.
    + exfalso. pose proof (map_data_latest timed (unit_id m)) as Hl.
      unfold latest_report in Hl. rewrite Hrev, H in Hl. simpl in Hl.
      unfold of_unit in Hl. rewrite Z.eqb_refl in Hl. discriminate Hl.
  - destruct (map_data (state (route timed World_init))) as [| m l] eqn:Hdata;
      [reflexivity |].
    exfalso. pose proof (map_data_latest timed (unit_id m)) as Hl.
    unfold latest_report in Hl. rewrite Hdata, H in Hl. simpl in Hl.
    unfold of_unit in Hl. rewrite Z.eqb_refl in Hl. discriminate Hl.
Qed.

(** X28: what an observer is sent when it connects after any routed
    sequence: first the status, then the newest fifty events that are
    not map events, newest first, and last the whole map cache in one
    message, which is sent exactly when a map report has been routed. *)
Theorem connect_snapshot (timed : list (float * event)) :
  connect_messages (route timed World_init)
  = (WsStatus (status_of (state (route timed World_init)))
     :: List.map WsEvent (firstn 50 (history_of_routed timed))
     ++ match map_reports timed with
        | [] => []
        | _ :: _ => [WsMapFull (map_data (state (route timed World_init)))]
        end)%list.
Proof.
  unfold connect_messages. rewrite route_events.
  destruct (map_reports timed) as [| r rs] eqn:Hrep.
  - now rewrite (proj2 (map_data_empty timed) Hrep).
  - destruct (map_data (state (route timed World_init))) as [| m l] eqn:Hdata;
      [| reflexivity].
    apply (proj1 (map_data_empty timed)) in Hdata. congruence.
Qed.

(** ** The serial link *)

(** X16: after a fault of the link the effective state is
    [disconnected], whatever was acknowledged, and every later command
    is dropped; when the port is opened again the alarm is [clear] in
    every mode, and the new port has received the three bring-up
    commands and nothing else. *)
Theorem serial_fault_and_reopen (w : World) (cmds : list string) :
  get_effective_state (state (serial_failed w)) = "disconnected"
  /\ serial_connected (state (serial_failed w)) = false
  /\ send_all cmds (serial_failed w) = serial_failed w
  /\ get_effective_state (state (serial_opened (serial_failed w))) = "clear"
  /\ _acknowledged (state (serial_opened (serial_failed w))) = false
  /\ serial_conn (state (serial_opened (serial_failed w)))
     = Some (SerialPort true (List.map wire ["/"; "cmd"; "re 3 4"])).
Proof.
  assert (Hfailed : state (serial_failed w)
                    = with_serial_conn None
                        (set_alarm "disconnected"
                           (with_serial_connected false (state w)))).
  { unfold serial_failed. now rewrite state_broadcast_status. }
  split; [now rewrite Hfailed |]. split; [now rewrite Hfailed |].
  split.
  { apply send_all_closed. intros port Hport. rewrite Hfailed in Hport.
    discriminate Hport. }
  unfold serial_opened.
  set (w3 := broadcast_status _).
  rewrite (send_all_open ["/"; "cmd"; "re 3 4"] w3 (SerialPort true []))
    by (unfold w3; rewrite ?state_broadcast_status; reflexivity).
  unfold w3. cbn [state on_state]. rewrite state_broadcast_status.
  cbn [state on_state]. rewrite Hfailed.
  repeat split.
Qed.

(** ** The line buffer *)

Lemma split_newline_some (buffer line after : string) :
  split_newline buffer = Some (line, after) ->
  buffer = (line ++ String (ascii_of_N 10) after)%string
  /\ no_newline line = true
  /\ String.length after < String.length buffer.
Proof.
  revert line. induction buffer as [| c s IH]; simpl; intros line H; [discriminate |].
  destruct (is_newline c) eqn:Hc.
  - injection H as <- <-. unfold is_newline in Hc. apply N.eqb_eq in Hc.
    assert (c = ascii_of_N 10) as ->
      by (rewrite <- (ascii_N_embedding c); unfold code in Hc; now rewrite Hc).
    simpl. split; [reflexivity |]. split; [reflexivity |]. lia.
  - destruct (split_newline s) as [[l a] |]; [| discriminate].
    injection H as <- <-. destruct (IH l eq_refl) as (Hs & Hl & Hlen).
    subst s. simpl. unfold no_newline in *. simpl. rewrite Hc, Hl.
    split; [reflexivity |]. split; [reflexivity |].
    simpl in Hlen. lia.
Qed.

Lemma split_newline_none (buffer : string) :
  split_newline buffer = None -> no_newline buffer = true.
Proof.
  induction buffer as [| c s IH]; simpl; [reflexivity |].
  destruct (is_newline c) eqn:Hc; [discriminate |].
  destruct (split_newline s) as [[l a] |]; [discriminate |].
  intros _. unfold no_newline in *. simpl. rewrite Hc. now apply IH.
Qed.

(** With as many rounds as the buffer has characters the loop ends
    because no newline is left. *)
Lemma take_lines_sound (fuel : nat) (buffer : string) :
  String.length buffer <= fuel ->
  unsplit (fst (take_lines fuel buffer)) (snd (take_lines fuel buffer)) = buffer
  /\ Forall (fun line => no_newline line = true) (fst (take_lines fuel buffer))
  /\ no_newline (snd (take_lines fuel buffer)) = true.
Proof.
  revert buffer. induction fuel as [| fuel IH]; intros buffer Hlen.
  - destruct buffer; [| simpl in Hlen; lia]. simpl. auto.
  - simpl. destruct (split_newline buffer) as [[line after] |] eqn:Hsplit.
    + destruct (split_newline_some _ _ _ Hsplit) as (-> & Hline & Hshort).
      destruct (IH after) as (Hjoin & Hall & Hrest); [lia |].
      destruct (take_lines fuel after) as [lines remainder]. simpl in *.
      rewrite Hjoin. auto.
    + simpl. split; [reflexivity |]. split; [constructor |].
      now apply split_newline_none.
Qed.

Lemma no_newline_head (a b x y : string) :
  no_newline a = true -> no_newline b = true ->
  (a ++ String (ascii_of_N 10) x = b ++ String (ascii_of_N 10) y)%string ->
  a = b /\ x = y.
Proof.
  revert b. induction a as [| c a IH]; intros b Ha Hb H.
  - destruct b as [| d b]; simpl in H.
    + injection H as <-. auto.
    + injection H as <- _. simpl in Hb. discriminate Hb.
  - destruct b as [| d b]; simpl in H.
    + injection H as -> _. simpl in Ha. discriminate Ha.
    + injection H as <- H. unfold no_newline in *. simpl in Ha, Hb.
      apply andb_prop in Ha, Hb. destruct Ha as [_ Ha]. destruct Hb as [_ Hb].
      destruct (IH b Ha Hb H) as [-> ->]. auto.
Qed.

Lemma no_newline_app (a b : string) :
  no_newline (a ++ b) = no_newline a && no_newline b.
Proof. apply all_chars_app. Qed.

(** A text splits into lines and a remainder in one way only. *)
Lemma unsplit_unique (lines lines' : list string) (r r' : string) :
  Forall (fun line => no_newline line = true) lines ->
  Forall (fun line => no_newline line = true) lines' ->
  no_newline r = true -> no_newline r' = true ->
  unsplit lines r = unsplit lines' r' ->
  lines = lines' /\ r = r'.
Proof.
  intros Hl. revert lines'. induction Hl as [| l lines Hline _ IH];
    intros lines' Hl' Hr Hr' H.
  - destruct Hl' as [| l' lines' Hline' _]; simpl in H; [auto |].
    exfalso. rewrite H in Hr. rewrite no_newline_app in Hr.
    apply andb_prop in Hr. destruct Hr as [_ Hr]. discriminate Hr.
  - destruct Hl' as [| l' lines' Hline' Hl']; simpl in H.
    + exfalso. rewrite <- H in Hr'. rewrite no_newline_app in Hr'.
      apply andb_prop in Hr'. destruct Hr' as [_ Hr']. discriminate Hr'.
    + destruct (no_newline_head _ _ _ _ Hline Hline' H) as [-> Htail].
      destruct (IH lines' Hl' Hr Hr' Htail) as [-> ->]. auto.
Qed.

Lemma unsplit_app (lines lines' : list string) (r : string) :
  unsplit (lines ++ lines') r = unsplit lines (unsplit lines' r).
Proof. unfold unsplit. apply fold_right_app. Qed.

Lemma unsplit_append (lines : list string) (r text : string) :
  unsplit lines (r ++ text) = (unsplit lines r ++ text)%string.
Proof.
  induction lines as [| l lines IH]; simpl; [reflexivity |].
  rewrite IH. rewrite str_app_assoc. reflexivity.
Qed.

Lemma feed_sound (buffer text : string) :
  unsplit (fst (feed buffer text)) (snd (feed buffer text)) = (buffer ++ text)%string
  /\ Forall (fun line => no_newline line = true) (fst (feed buffer text))
  /\ no_newline (snd (feed buffer text)) = true.
Proof. unfold feed. apply take_lines_sound. lia. Qed.

(** X17: a read loses and invents nothing: the lines taken off the
    buffer, each followed by a newline, and what stays in the buffer
    make up the old buffer followed by the text read; no line and no
    remainder holds a newline, so the loop has taken every complete
    line. *)
Theorem feed_round_trip (buffer text : string) :
  unsplit (fst (feed buffer text)) (snd (feed buffer text)) = (buffer ++ text)%string
  /\ Forall (fun line => no_newline line = true) (fst (feed buffer text))
  /\ no_newline (snd (feed buffer text)) = true.
Proof. apply feed_sound. Qed.

(** X18: how the text arrives does not matter: reading two pieces one
    after the other gives the lines, in order, and the remainder that
    reading them as one piece gives. *)
Theorem feed_chunks (buffer text1 text2 : string) :
  fst (feed buffer (text1 ++ text2))
  = (fst (feed buffer text1) ++ fst (feed (snd (feed buffer text1)) text2))%list
  /\ snd (feed buffer (text1 ++ text2)) = snd (feed (snd (feed buffer text1)) text2).
Proof.
  destruct (feed_sound buffer (text1 ++ text2)) as (Hjoin & Hlines & Hrest).
  destruct (feed_sound buffer text1) as (Hjoin1 & Hlines1 & Hrest1).
  destruct (feed_sound (snd (feed buffer text1)) text2) as (Hjoin2 & Hlines2 & Hrest2).
  apply unsplit_unique; try assumption.
  - apply Forall_app. split; assumption.
  - rewrite Hjoin, unsplit_app, Hjoin2, unsplit_append, Hjoin1.
    now rewrite str_app_assoc.
Qed.

(** ** The delivery round *)

Lemma remove_step_prefix (send_ok : nat -> bool) (good : list nat) (ws : nat)
                         (registry : list nat) :
  Forall (fun g => send_ok g = true) good ->
  send_ok ws = false ->
  (if existsb (Nat.eqb ws) (good ++ registry)
   then remove_first ws (good ++ registry) else (good ++ registry)%list)
  = (good ++ (if existsb (Nat.eqb ws) registry
              then remove_first ws registry else registry))%list.
Proof.
  intros Hgood Hws. induction Hgood as [| g good Hg _ IH]; simpl; [reflexivity |].
  assert (Hne : Nat.eqb ws g = false).
  { apply Nat.eqb_neq. intros ->. congruence. }
  rewrite Hne. simpl. rewrite (Nat.eqb_sym g ws), Hne.
  destruct (existsb (Nat.eqb ws) (good ++ registry)),
           (existsb (Nat.eqb ws) registry); simpl in *; congruence.
Qed.

Lemma remove_failed_prefix (send_ok : nat -> bool) (good failed registry : list nat) :
  Forall (fun g => send_ok g = true) good ->
  Forall (fun ws => send_ok ws = false) failed ->
  fold_left (fun reg ws => if existsb (Nat.eqb ws) reg then remove_first ws reg else reg)
            failed (good ++ registry)%list
  = (good ++ fold_left (fun reg ws => if existsb (Nat.eqb ws) reg
                                      then remove_first ws reg else reg)
                       failed registry)%list.
Proof.
  intros Hgood Hfailed. revert registry.
  induction Hfailed as [| ws failed Hws _ IH]; intros registry; simpl; [reflexivity |].
  rewrite (remove_step_prefix send_ok good ws registry Hgood Hws). apply IH.
Qed.

(** X19: a delivery round removes from the registry exactly the
    observers whose send failed: the registry after the round is the
    list of the observers that received the message, in their old
    order. *)
Theorem deliver_prunes_failed (send_ok : nat -> bool) (websockets : list nat) :
  snd (deliver send_ok websockets) = List.filter send_ok websockets
  /\ fst (deliver send_ok websockets) = snd (deliver send_ok websockets).
Proof.
  assert (H : snd (deliver send_ok websockets) = List.filter send_ok websockets).
  { unfold deliver. cbn [snd].
    induction websockets as [| ws l IH]; [reflexivity |]. simpl.
    destruct (send_ok ws) eqn:Hws; simpl.
    - rewrite (remove_failed_prefix send_ok [ws] _ l).
      + simpl. now rewrite IH.
      + constructor; [exact Hws | constructor].
      + apply List.Forall_forall. intros x Hx. apply List.filter_In in Hx.
        destruct Hx as [_ Hx]. now apply negb_true_iff in Hx.
    - replace (Nat.eqb ws ws) with true
        by (symmetry; apply Nat.eqb_eq; reflexivity).
      simpl. exact IH. }
  split; [exact H |]. rewrite H. reflexivity.
Qed.

(** ** What the parser builds *)

Lemma digit_value_nonneg (c : ascii) : is_decimal c = true -> (0 <= digit_value c)%Z.
Proof.
  unfold is_decimal, between, digit_value. intros H.
  apply andb_prop in H. destruct H as [H _]. apply N.leb_le in H. lia.
Qed.

Lemma digits_value_nonneg (s : string) (acc : Z) (after_digit : bool) (z : Z) :
  (0 <= acc)%Z -> digits_value acc after_digit s = Some z -> (0 <= z)%Z.
Proof.
  revert acc after_digit. induction s as [| c s IH]; simpl; intros acc b Hacc H.
  - destruct b; [injection H as <-; exact Hacc | discriminate].
  - destruct (is_decimal c) eqn:Hc.
    + pose proof (digit_value_nonneg c Hc) as Hd.
      apply (IH (10 * acc + digit_value c)%Z true); [lia | exact H].
    + destruct ((code c =? 95)%N && b); [| discriminate]. exact (IH _ _ Hacc H).
Qed.

Lemma number_nonneg (s : string) : (0 <= number s)%Z.
Proof.
  unfold number. destruct (digits_value 0 false s) as [z |] eqn:Hz; [| lia].
  apply (digits_value_nonneg s 0 false z); [lia | exact Hz].
Qed.

(** What [int] returns for a run of decimal digits is not negative. *)
Lemma int_of_digits_nonneg (s : string) (z : Z) :
  s <> "" -> all_chars is_decimal s = true ->
  int_of_str s = Ok z -> (0 <= z)%Z.
Proof.
  intros Hne Hall. rewrite (int_of_str_digits s Hne Hall).
  destruct (INT_MAX_STR_DIGITS <? count_digits s)%N; [discriminate |].
  intros H. injection H as <-. apply number_nonneg.
Qed.

Lemma int_group_nonneg (bodies : list (list atom)) (m : match_obj) (i : nat) (z : Z) :
  Forall2 atoms_lang bodies (groups m) ->
  nth_error bodies i = Some [(CDigit, Plus)] ->
  int_group m (S i) = Ok z -> (0 <= z)%Z.
Proof.
  intros HF Hi. destruct (group_total _ _ _ _ HF Hi) as (g & Hg & Hl).
  simpl in Hl. destruct Hl as (w1 & w2 & -> & [Hne Hall] & ->).
  rewrite str_app_nil_r in Hg.
  unfold int_group. rewrite Hg. cbn [mbind result_bind].
  now apply int_of_digits_nonneg.
Qed.

Lemma group_name (bodies : list (list atom)) (m : match_obj) (i : nat) :
  Forall2 atoms_lang bodies (groups m) ->
  nth_error bodies i = Some [(CWord, Plus)] ->
  exists g, group m (S i) = Ok g /\ is_name g.
Proof.
  intros HF Hi. destruct (group_total _ _ _ _ HF Hi) as (g & Hg & Hl).
  simpl in Hl. destruct Hl as (w1 & w2 & -> & [Hne Hall] & ->).
  rewrite str_app_nil_r in Hg. exists w1. split; [exact Hg |]. split; assumption.
Qed.

Lemma group_not_empty (bodies : list (list atom)) (m : match_obj) (i : nat)
                      (cl : cclass) :
  Forall2 atoms_lang bodies (groups m) ->
  nth_error bodies i = Some [(cl, Plus)] ->
  exists g, group m (S i) = Ok g /\ g <> "".
Proof.
  intros HF Hi. destruct (group_total _ _ _ _ HF Hi) as (g & Hg & Hl).
  simpl in Hl. destruct Hl as (w1 & w2 & -> & [Hne Hall] & ->).
  rewrite str_app_nil_r in Hg. exists w1. auto.
Qed.

Ltac nonneg_in H HF i :=
  let z := fresh "z" in
  let Hz := fresh "Hz" in
  let Hnn := fresh "Hnn" in
  match type of HF with
  | Forall2 _ _ (groups ?m) =>
      destruct (int_group m (S i)) as [z |] eqn:Hz;
      [ pose proof (int_group_nonneg _ m i z HF eq_refl Hz) as Hnn; clear Hz
      | discriminate H ];
      cbn [mbind result_bind] in H
  end.

Ltac name_in H HF i :=
  let g := fresh "g" in
  let Hg := fresh "Hg" in
  let Hname := fresh "Hname" in
  destruct (group_name _ _ i HF eq_refl) as (g & Hg & Hname);
  rewrite Hg in H; clear Hg; cbn [mbind result_bind] in H.

Ltac group_in H HF i :=
  let g := fresh "g" in
  let Hg := fresh "Hg" in
  destruct (group_total _ _ i _ HF eq_refl) as (g & Hg & _);
  rewrite Hg in H; clear Hg; cbn [mbind result_bind] in H.

Ltac parsed H :=
  unfold mret, result_ret in H; injection H as <-.

Lemma peer_of_match_wf (pm : match_obj) (p : peer_info) :
  (exists w, nodes_lang MAP_PEER_RE w (groups pm)) ->
  peer_of_match pm = Ok p -> peer_wf p.
Proof.
  intros [w Hl] H. apply nodes_lang_groups in Hl. unfold peer_of_match in H.
  nonneg_in H Hl 0. nonneg_in H Hl 1.
  destruct (int_group pm 3) as [rssi |]; [| discriminate H].
  cbn [mbind result_bind] in H.
  nonneg_in H Hl 3. parsed H. repeat split; assumption.
Qed.

Lemma mapM_forall {A B : Type} (f : A -> result B) (P : B -> Prop)
                  (l : list A) (ys : list B) :
  Forall (fun x => forall y, f x = Ok y -> P y) l ->
  mapM f l = Ok ys -> Forall P ys.
Proof.
  intros HF. revert ys. induction HF as [| x l Hx _ IH]; simpl; intros ys H.
  - injection H as <-. constructor.
  - destruct (f x) as [y | e] eqn:Hfx; [| discriminate]. simpl in H.
    destruct (mapM f l) as [ys' | e]; [| discriminate]. simpl in H.
    injection H as <-. constructor; [now apply Hx | now apply IH].
Qed.

Lemma peers_wf (peers_str : string) (ps : list peer_info) :
  mapM peer_of_match (re_finditer MAP_PEER_RE peers_str) = Ok ps ->
  Forall peer_wf ps.
Proof.
  apply mapM_forall. unfold re_finditer.
  eapply List.Forall_impl; [| apply finditer_from_sound].
  intros pm Hl p. now apply peer_of_match_wf.
Qed.

(** X20: every event that [parse_line] returns is well formed: unit
    numbers, threshold, value, count, gain, voltage and device timestamp
    are not negative, the identifiers are non-empty runs of word
    characters, the peers of a map event have non-negative identifier,
    threshold and delay, and the ingestion timestamp is the one read
    from the clock. *)
Theorem parse_line_event_wf (now raw_line : string) (ev : event) :
  parse_line now raw_line = Ok (Some ev) -> event_wf now ev.
Proof.
  unfold parse_line. intros H.
  destruct (String.eqb (strip (re_sub_empty ANSI_RE raw_line)) "");
    [discriminate H |].
  destruct (re_match TIMESTAMP_RE (strip (re_sub_empty ANSI_RE raw_line)))
    as [ts_match |] eqn:Hts; [| discriminate H].
  destruct (re_match_sound _ _ _ Hts) as (w & _ & Hl).
  apply nodes_lang_groups in Hl.
  nonneg_in H Hl 0. group_in H Hl 1.
  destruct (re_search DETECTION_RE g) as [m |] eqn:Hdet.
  { destruct (re_search_sound _ _ _ Hdet) as (wd & Hd). apply nodes_lang_groups in Hd.
    nonneg_in H Hd 1. nonneg_in H Hd 3. name_in H Hd 0. name_in H Hd 2.
    nonneg_in H Hd 4. nonneg_in H Hd 5. nonneg_in H Hd 6.
    parsed H. simpl. repeat split; assumption || apply Hname || apply Hname0. }
  destruct (re_search DETECTION_COMM_RE g) as [m |] eqn:Hcomm.
  { destruct (re_search_sound _ _ _ Hcomm) as (wd & Hd). apply nodes_lang_groups in Hd.
    nonneg_in H Hd 1. nonneg_in H Hd 3. name_in H Hd 0. name_in H Hd 2.
    nonneg_in H Hd 4.
    parsed H. simpl. repeat split; assumption || apply Hname || apply Hname0. }
  destruct (re_search CONNECTED_RE g) as [m |] eqn:Hcon.
  { destruct (re_search_sound _ _ _ Hcon) as (wd & Hd). apply nodes_lang_groups in Hd.
    nonneg_in H Hd 1. name_in H Hd 0. nonneg_in H Hd 3. name_in H Hd 2.
    group_in H Hd 4.
    parsed H. simpl. repeat split; assumption || apply Hname || apply Hname0. }
  destruct (re_search MAP_RSP_RE g) as [m |] eqn:Hmap; [| discriminate H].
  destruct (re_search_sound _ _ _ Hmap) as (wd & Hd). apply nodes_lang_groups in Hd.
  group_in H Hd 6.
  destruct (mapM peer_of_match (re_finditer MAP_PEER_RE g0)) as [ps | e] eqn:Hps;
    [| discriminate H].
  cbn [mbind result_bind] in H.
  nonneg_in H Hd 0.
  destruct (group_not_empty _ _ 1 _ Hd eq_refl) as (ver & Hver & Hvne).
  rewrite Hver in H. cbn [mbind result_bind] in H.
  nonneg_in H Hd 2. nonneg_in H Hd 3.
  parsed H. simpl. repeat split; try assumption.
  exact (peers_wf _ _ Hps).
Qed.

Lemma parse_line_event_wf_witness :
  event_wf "t" (Detection (DetectionEvent 1 2 "A" "B" 500 600 3 123 "t")).
Proof.
  apply (parse_line_event_wf "t" "[123] I CMD:DETECTION A(1)-B(2) th:500 val:600 c:3").
  vm_compute. reflexivity.
Defined.

(** ** Completeness of the matcher on unambiguous words *)

Section MatcherComplete.
Context {R : Type}.
Implicit Types (k : string -> option R) (r : R).

Lemma m_star_first (cl : cclass) k (w s : string) r :
  all_chars (cmatch cl) w = true ->
  stops cl s = true ->
  k s = Some r ->
  m_star cl k (w ++ s) = Some r.
Proof.
  intros Hall Hstop Hk. induction w as [| c w IH]; simpl.
  - destruct s as [| d s]; simpl; [exact Hk |].
    simpl in Hstop. apply negb_true_iff in Hstop. now rewrite Hstop.
  - simpl in Hall. apply andb_prop in Hall. destruct Hall as [Hc Hw].
    rewrite Hc, (IH Hw). reflexivity.
Qed.

Lemma m_atom_first (a : atom) k (w s : string) r :
  atom_first a w s ->
  k s = Some r ->
  m_atom a k (w ++ s) = Some r.
Proof.
  destruct a as [cl q]. unfold atom_first, m_atom. simpl fst. simpl snd.
  intros Hw Hk. destruct q.
  - destruct Hw as (c & -> & Hc). simpl. now rewrite Hc.
  - destruct Hw as [Hall Hstop]. now apply m_star_first.
  - destruct Hw as (Hne & Hall & Hstop).
    destruct w as [| c w]; [contradiction |].
    simpl in Hall. apply andb_prop in Hall. destruct Hall as [Hc Hall].
    simpl. rewrite Hc. now apply m_star_first.
  - destruct Hw as [[-> Hstop] | (c & -> & Hc)]; simpl.
    + destruct s as [| d s]; [exact Hk |].
      simpl in Hstop. apply negb_true_iff in Hstop. now rewrite Hstop.
    + now rewrite Hc, Hk.
Qed.

Lemma m_atoms_first (l : list atom) k (w s : string) r :
  atoms_first l w s ->
  k s = Some r ->
  m_atoms l k (w ++ s) = Some r.
Proof.
  revert w. induction l as [| a l IH]; simpl; intros w Hw Hk.
  - now subst w.
  - destruct Hw as (w1 & w2 & -> & Ha & Hl).
    rewrite str_app_assoc. apply m_atom_first; [exact Ha |].
    now apply IH.
Qed.
End MatcherComplete.

(** On a word where every quantifier has taken all it can, the matcher
    finds that word and those groups. *)
Lemma m_nodes_first (subject : string) (r : regex) (w : string)
                    (caps0 caps : list string) (s : string) :
  nodes_first r w caps s ->
  m_nodes subject r caps0 (w ++ s) = Some (MatchObj (caps0 ++ caps) s).
Proof.
  revert w caps0 caps. induction r as [| n r IH]; intros w caps0 caps Hw.
  - destruct Hw as [-> ->]. simpl. now rewrite app_nil_r.
  - destruct n as [cl q | body |]; simpl in Hw.
    + destruct Hw as (w1 & w2 & -> & Ha & Hr).
      simpl. rewrite str_app_assoc.
      apply (m_atom_first (cl, q)); [exact Ha |]. now apply IH.
    + destruct Hw as (w1 & w2 & caps' & -> & -> & Hb & Hr).
      simpl. rewrite str_app_assoc.
      apply m_atoms_first; [exact Hb |].
      cbv beta. rewrite consumed_app.
      rewrite (IH w2 (caps0 ++ [w1])%list caps' Hr).
      now rewrite <- app_assoc.
    + contradiction.
Qed.

(** The same in steps, one node of the pattern at a time. *)
Lemma nodes_first_char (c : ascii) (r : regex) (w : string)
                       (caps : list string) (s : string) :
  nodes_first r w caps s ->
  nodes_first (At (CChar c) Once :: r) (String c w) caps s.
Proof.
  intros H. exists (String c ""), w. split; [reflexivity |]. split; [| exact H].
  exists c. split; [reflexivity |]. simpl. apply Ascii.eqb_refl.
Qed.

Lemma nodes_first_lit (text : string) (r : regex) (w : string)
                      (caps : list string) (s : string) :
  nodes_first r w caps s ->
  nodes_first (lit text ++ r)%list (text ++ w) caps s.
Proof.
  intros H. induction text as [| c text IH]; [exact H |].
  simpl. now apply nodes_first_char.
Qed.

Lemma nodes_first_plus (cl : cclass) (r : regex) (w1 w2 : string)
                       (caps : list string) (s : string) :
  w1 <> "" -> all_chars (cmatch cl) w1 = true -> stops cl (w2 ++ s) = true ->
  nodes_first r w2 caps s ->
  nodes_first (At cl Plus :: r) (w1 ++ w2) caps s.
Proof.
  intros Hne Hall Hstop H. exists w1, w2. split; [reflexivity |].
  split; [| exact H]. repeat split; assumption.
Qed.

Lemma nodes_first_group_plus (cl : cclass) (r : regex) (w1 w2 : string)
                             (caps : list string) (s : string) :
  w1 <> "" -> all_chars (cmatch cl) w1 = true -> stops cl (w2 ++ s) = true ->
  nodes_first r w2 caps s ->
  nodes_first (Group [(cl, Plus)] :: r) (w1 ++ w2) (w1 :: caps) s.
Proof.
  intros Hne Hall Hstop H. exists w1, w2, caps.
  split; [reflexivity |]. split; [reflexivity |]. split; [| exact H].
  exists w1, "". rewrite str_app_nil_r. split; [reflexivity |].
  split; [| reflexivity]. repeat split; assumption.
Qed.

Lemma nodes_first_group_star (cl : cclass) (r : regex) (w1 w2 : string)
                             (caps : list string) (s : string) :
  all_chars (cmatch cl) w1 = true -> stops cl (w2 ++ s) = true ->
  nodes_first r w2 caps s ->
  nodes_first (Group [(cl, Star)] :: r) (w1 ++ w2) (w1 :: caps) s.
Proof.
  intros Hall Hstop H. exists w1, w2, caps.
  split; [reflexivity |]. split; [reflexivity |]. split; [| exact H].
  exists w1, "". rewrite str_app_nil_r. split; [reflexivity |].
  split; [| reflexivity]. split; assumption.
Qed.

Lemma nodes_first_last_plus (cl : cclass) (w : string) (s : string) :
  w <> "" -> all_chars (cmatch cl) w = true -> stops cl s = true ->
  nodes_first [Group [(cl, Plus)]] w [w] s.
Proof.
  intros Hne Hall Hstop. exists w, "", []. rewrite str_app_nil_r.
  split; [reflexivity |]. split; [reflexivity |]. split; [| split; reflexivity].
  exists w, "". rewrite str_app_nil_r. split; [reflexivity |].
  split; [| reflexivity]. repeat split; assumption.
Qed.

Lemma nodes_first_last_star (cl : cclass) (w : string) (s : string) :
  all_chars (cmatch cl) w = true -> stops cl s = true ->
  nodes_first [Group [(cl, Star)]] w [w] s.
Proof.
  intros Hall Hstop. exists w, "", []. rewrite str_app_nil_r.
  split; [reflexivity |]. split; [reflexivity |]. split; [| split; reflexivity].
  exists w, "". rewrite str_app_nil_r. split; [reflexivity |].
  split; [| reflexivity]. split; assumption.
Qed.

Lemma nodes_first_last_once (cl : cclass) (c : ascii) (s : string) :
  cmatch cl c = true ->
  nodes_first [Group [(cl, Once)]] (String c "") [String c ""] s.
Proof.
  intros Hc. exists (String c ""), "", [].
  split; [reflexivity |]. split; [reflexivity |]. split; [| split; reflexivity].
  exists (String c ""), "". split; [reflexivity |]. split; [| reflexivity].
  exists c. auto.
Qed.

(** ** Character classes apart *)

Lemma is_word_not_space (c : ascii) : is_word c = true -> is_space c = false.
Proof.
  destruct c as [b0 b1 b2 b3 b4 b5 b6 b7].
  destruct b0, b1, b2, b3, b4, b5, b6, b7; vm_compute; congruence.
Qed.

Lemma is_word_plain (c : ascii) : is_word c = true -> plain c = true.
Proof.
  destruct c as [b0 b1 b2 b3 b4 b5 b6 b7].
  destruct b0, b1, b2, b3, b4, b5, b6, b7; vm_compute; congruence.
Qed.

Lemma is_decimal_word (c : ascii) : is_decimal c = true -> is_word c = true.
Proof.
  intros H. unfold is_word, is_alnum. now rewrite H.
Qed.

Lemma stops_in_front (cl : cclass) (p : ascii -> bool) (w x : string) :
  (forall c, p c = true -> cmatch cl c = false) ->
  w <> "" -> all_chars p w = true ->
  stops cl (w ++ x) = true.
Proof.
  intros Hp Hne Hall. destruct w as [| c w]; [contradiction |].
  simpl in *. apply andb_prop in Hall. destruct Hall as [Hc _].
  now rewrite (Hp c Hc).
Qed.

Lemma space_stops_at_name (a x : string) : is_name a -> stops CSpace (a ++ x) = true.
Proof.
  intros [Hne Hall]. apply (stops_in_front CSpace is_word); try assumption.
  intros c Hc. simpl. now apply is_word_not_space.
Qed.

Lemma space_stops_at_digits (n x : string) : is_digits n -> stops CSpace (n ++ x) = true.
Proof.
  intros [Hne Hall]. apply (stops_in_front CSpace is_decimal); try assumption.
  intros c Hc. simpl. now apply is_decimal_not_space.
Qed.

Lemma name_plain (a : string) : is_name a -> all_chars plain a = true.
Proof.
  intros [_ Hall]. apply (all_chars_impl is_word); [| exact Hall].
  apply is_word_plain.
Qed.

Lemma digits_plain (n : string) : is_digits n -> all_chars plain n = true.
Proof.
  intros [_ Hall]. apply (all_chars_impl is_decimal); [| exact Hall].
  intros c Hc. now apply is_word_plain, is_decimal_word.
Qed.

Lemma str_app_not_empty_r (a b : string) : b <> "" -> (a ++ b)%string <> "".
Proof. destruct a; simpl; [auto | discriminate]. Qed.

Lemma str_app_not_empty_l (a b : string) : a <> "" -> (a ++ b)%string <> "".
Proof. destruct a; simpl; [contradiction | discriminate]. Qed.

Lemma rstrip_app_end (a b : string) :
  b <> "" -> rstrip b = b -> rstrip (a ++ b) = (a ++ b)%string.
Proof.
  intros Hne Hb. induction a as [| c a IH]; simpl; [exact Hb |].
  rewrite IH.
  destruct (a ++ b)%string eqn:Hab; [| reflexivity].
  exfalso. now apply (str_app_not_empty_r a b Hne).
Qed.

Lemma rstrip_digits (n : string) : is_digits n -> rstrip n = n.
Proof.
  intros [_ Hall]. apply rstrip_no_space.
  apply (all_chars_impl is_decimal); [| exact Hall].
  intros c Hc. now rewrite (is_decimal_not_space c Hc).
Qed.

(** [int] of a run of digits within the limit is the number they
    write. *)
Lemma int_of_digits_number (n : string) :
  is_digits n -> short n -> int_of_str n = Ok (number n).
Proof.
  intros [Hne Hall] Hs. now rewrite (int_of_str_digits n Hne Hall), (short_within n Hs).
Qed.

(** ** Lines without escape sequences *)

Lemma sub_empty_plain (subject s : string) :
  all_chars plain s = true -> sub_empty_from subject ANSI_RE 0 s = s.
Proof.
  induction s as [| c s IH]; simpl; [reflexivity |].
  intros H. apply andb_prop in H. destruct H as [Hc Hs].
  unfold plain in Hc. apply andb_prop in Hc. destruct Hc as [Hc _].
  apply negb_true_iff in Hc.
  unfold m_atom at 1. cbn [fst snd cmatch].
  change (ascii_of_pos 27) with (ascii_of_N 27). rewrite Hc.
  now rewrite (IH Hs).
Qed.

(** The head of a line with a timestamp and a plain content: nothing is
    removed or trimmed, and [TIMESTAMP_RE] splits it into the timestamp
    and the content. *)
Lemma timestamp_line (ts content : string) :
  is_digits ts ->
  content <> "" ->
  all_chars plain content = true ->
  stops CSpace content = true ->
  rstrip content = content ->
  strip (re_sub_empty ANSI_RE ("[" ++ ts ++ "] I " ++ content))
    = ("[" ++ ts ++ "] I " ++ content)%string
  /\ re_match TIMESTAMP_RE ("[" ++ ts ++ "] I " ++ content)
     = Some (MatchObj [ts; content] "").
Proof.
  intros Hts Hne Hplain Hstop Hrstrip.
  assert (Hsub : re_sub_empty ANSI_RE ("[" ++ ts ++ "] I " ++ content)
                 = ("[" ++ ts ++ "] I " ++ content)%string).
  { apply sub_empty_plain. rewrite !all_chars_app.
    rewrite (digits_plain ts Hts), Hplain. reflexivity. }
  split.
  - rewrite Hsub. unfold strip.
    change ("[" ++ ts ++ "] I " ++ content)%string
      with (String "[" (ts ++ "] I " ++ content)).
    rewrite lstrip_first_not_space by reflexivity.
    change (String "[" (ts ++ "] I " ++ content))
      with ("[" ++ ts ++ "] I " ++ content)%string.
    repeat (apply rstrip_app_end;
            [repeat (apply str_app_not_empty_r); exact Hne |]).
    exact Hrstrip.
  - unfold re_match, TIMESTAMP_RE. cbn [app]. cbn [m_nodes].
    rewrite Nat.eqb_refl.
    rewrite <- (str_app_nil_r ("[" ++ ts ++ "] I " ++ content)) at 2.
    change [ts; content] with ([] ++ [ts; content])%list.
    apply m_nodes_first.
    apply (nodes_first_lit "[").
    cbn [app]. apply nodes_first_group_plus;
      [apply Hts | apply Hts | reflexivity |].
    change ("] I " ++ content)%string with ("]" ++ " " ++ "I" ++ " " ++ content)%string.
    apply (nodes_first_lit "]"). cbn [app].
    apply (nodes_first_plus CSpace _ " "); [discriminate | reflexivity | reflexivity |].
    apply (nodes_first_lit "I"). cbn [app].
    apply (nodes_first_plus CSpace _ " "); [discriminate | reflexivity | |].
    + rewrite str_app_nil_r. exact Hstop.
    + apply nodes_first_last_star; [| reflexivity].
      apply (all_chars_impl plain); [| exact Hplain].
      intros c Hc. unfold plain in Hc. apply andb_prop in Hc.
      destruct Hc as [_ Hc]. exact Hc.
Qed.

Lemma search_from_here (subject : string) (r : regex) (s : string) (m : match_obj) :
  m_nodes subject r [] s = Some m -> search_from subject r s = Some m.
Proof. intros H. destruct s; simpl; now rewrite H. Qed.

Lemma re_search_first (r : regex) (w : string) (caps : list string) :
  nodes_first r w caps "" -> re_search r w = Some (MatchObj caps "").
Proof.
  intros H. unfold re_search. apply search_from_here.
  rewrite <- (str_app_nil_r w) at 2.
  exact (m_nodes_first w r w [] caps "" H).
Qed.

Lemma parse_line_head (now ts content : string) :
  is_digits ts ->
  content <> "" ->
  all_chars plain content = true ->
  stops CSpace content = true ->
  rstrip content = content ->
  parse_line now ("[" ++ ts ++ "] I " ++ content)
  = (let ts_match := MatchObj [ts; content] "" in
     device_ts ← int_group ts_match 1;
     content ← group ts_match 2;
     match re_search DETECTION_RE content with
     | Some m =>
         unit_a ← int_group m 2;
         unit_b ← int_group m 4;
         id_a ← group m 1;
         id_b ← group m 3;
         threshold ← int_group m 5;
         value ← int_group m 6;
         count ← int_group m 7;
         mret (Some (Detection
           (DetectionEvent unit_a unit_b id_a id_b threshold value count device_ts now)))
     | None =>
     match re_search DETECTION_COMM_RE content with
     | Some m =>
         unit_a ← int_group m 2;
         unit_b ← int_group m 4;
         id_a ← group m 1;
         id_b ← group m 3;
         value ← int_group m 5;
         mret (Some (CommLoss
           (CommLossEvent unit_a unit_b id_a id_b value device_ts now)))
     | None =>
     match re_search CONNECTED_RE content with
     | Some m =>
         unit ← int_group m 2;
         id_unit ← group m 1;
         peer ← int_group m 4;
         id_peer ← group m 3;
         g5 ← group m 5;
         mret (Some (Connected
           (ConnectedEvent unit id_unit peer id_peer (String.eqb g5 "1") device_ts now)))
     | None =>
     match re_search MAP_RSP_RE content with
     | Some m =>
         peers_str ← group m 7;
         peers ← mapM peer_of_match (re_finditer MAP_PEER_RE peers_str);
         unit_id ← int_group m 1;
         version ← group m 2;
         gain ← int_group m 3;
         voltage ← int_group m 4;
         mret (Some (Map
           (MapEvent unit_id version gain voltage peers device_ts now)))
     | None => mret None
     end end end end).
Proof.
  intros Hts Hne Hplain Hstop Hrstrip.
  destruct (timestamp_line ts content Hts Hne Hplain Hstop Hrstrip) as [Hstrip Hmatch].
  unfold parse_line. rewrite Hstrip, Hmatch.
  replace (String.eqb ("[" ++ ts ++ "] I " ++ content) "") with false by reflexivity.
  reflexivity.
Qed.

Ltac first_lit text := apply (nodes_first_lit text); cbn [app].

Ltac first_space :=
  apply (nodes_first_plus CSpace _ " "); [discriminate | reflexivity | | ].

Ltac field_ok :=
  first [ split; [split; (discriminate || reflexivity) | reflexivity]
        | split; (discriminate || reflexivity) ].

Ltac not_empty :=
  repeat (apply str_app_not_empty_r);
  first [ discriminate | match goal with H : is_digits _ |- _ => apply H end ].

(** X21: every detection line of the protocol grammar whose numbers
    have at most 4300 digits each parses to the detection event of its
    fields: the identifiers are the two names, the numbers are the ones
    written in the line. *)
Theorem parse_detection_line_complete (now ts a n1 b n2 th val cnt : string) :
  is_number ts -> is_name a -> is_number n1 -> is_name b -> is_number n2 ->
  is_number th -> is_number val -> is_number cnt ->
  parse_line now (detection_line ts a n1 b n2 th val cnt)
  = Ok (Some (Detection
      (DetectionEvent (number n1) (number n2) a b
                      (number th) (number val) (number cnt) (number ts) now))).
Proof.
  intros [Hts Lts] Ha [Hn1 Ln1] Hb [Hn2 Ln2] [Hth Lth] [Hval Lval] [Hcnt Lcnt].
  unfold detection_line.
  set (content := ("CMD:DETECTION" ++ " " ++ a ++ "(" ++ n1 ++ ")-" ++ b ++ "(" ++ n2
                   ++ ")" ++ " " ++ "th:" ++ th ++ " " ++ "val:" ++ val
                   ++ " " ++ "c:" ++ cnt)%string).
  change ("[" ++ ts ++ "] I CMD:DETECTION " ++ a ++ "(" ++ n1 ++ ")-" ++ b ++ "(" ++ n2
          ++ ") th:" ++ th ++ " val:" ++ val ++ " c:" ++ cnt)%string
    with ("[" ++ ts ++ "] I " ++ content)%string.
  rewrite parse_line_head; try assumption.
  - assert (Hsearch : re_search DETECTION_RE content
                      = Some (MatchObj [a; n1; b; n2; th; val; cnt] "")).
    { apply re_search_first. unfold DETECTION_RE, content.
      first_lit "CMD:DETECTION".
      first_space; [rewrite str_app_assoc; now apply space_stops_at_name |].
      apply nodes_first_group_plus; [apply Ha | apply Ha | reflexivity |].
      first_lit "(".
      apply nodes_first_group_plus; [apply Hn1 | apply Hn1 | reflexivity |].
      first_lit ")-".
      apply nodes_first_group_plus; [apply Hb | apply Hb | reflexivity |].
      first_lit "(".
      apply nodes_first_group_plus; [apply Hn2 | apply Hn2 | reflexivity |].
      first_lit ")".
      first_space; [reflexivity |].
      first_lit "th:".
      apply nodes_first_group_plus; [apply Hth | apply Hth | reflexivity |].
      first_space; [reflexivity |].
      first_lit "val:".
      apply nodes_first_group_plus; [apply Hval | apply Hval | reflexivity |].
      first_space; [reflexivity |].
      first_lit "c:".
      apply nodes_first_last_plus; [apply Hcnt | apply Hcnt | reflexivity]. }
    cbv zeta. unfold int_group, group. cbn [groups nth_error mbind result_bind].
    rewrite (int_of_digits_number ts Hts Lts). cbn [mbind result_bind].
    rewrite Hsearch. cbn [groups nth_error mbind result_bind].
    rewrite (int_of_digits_number n1 Hn1 Ln1), (int_of_digits_number n2 Hn2 Ln2),
            (int_of_digits_number th Hth Lth), (int_of_digits_number val Hval Lval),
            (int_of_digits_number cnt Hcnt Lcnt).
    reflexivity.
  - unfold content. simpl. discriminate.
  - unfold content. rewrite !all_chars_app.
    rewrite (name_plain a Ha), (name_plain b Hb), (digits_plain n1 Hn1),
            (digits_plain n2 Hn2), (digits_plain th Hth), (digits_plain val Hval),
            (digits_plain cnt Hcnt).
    reflexivity.
  - reflexivity.
  - unfold content.
    repeat (apply rstrip_app_end; [not_empty |]).
    now apply rstrip_digits.
Qed.

Lemma parse_detection_line_complete_witness :
  parse_line "t" (detection_line "123" "A" "1" "B" "2" "500" "600" "3")
  = Ok (Some (Detection
      (DetectionEvent (number "1") (number "2") "A" "B"
                      (number "500") (number "600") (number "3") (number "123") "t"))).
Proof.
  apply (parse_detection_line_complete "t" "123" "A" "1" "B" "2" "500" "600" "3");
    field_ok.
Defined.

(** ** Patterns that cannot match *)

Lemma count_char_app (c : ascii) (a b : string) :
  count_char c (a ++ b) = count_char c a + count_char c b.
Proof. induction a as [| d a IH]; simpl; [reflexivity | rewrite IH; lia]. Qed.

Lemma count_char_none (c : ascii) (p : ascii -> bool) (s : string) :
  (forall d, p d = true -> Ascii.eqb d c = false) ->
  all_chars p s = true -> count_char c s = 0.
Proof.
  intros Hp. induction s as [| d s IH]; simpl; [reflexivity |].
  intros H. apply andb_prop in H. destruct H as [Hd Hs].
  now rewrite (Hp d Hd), (IH Hs).
Qed.

Lemma atom_lang_once_char (c : ascii) (w : string) :
  atom_lang (CChar c, Once) w -> w = String c "".
Proof. apply once_char_lang. Qed.

(** A word of a pattern holds every literal character of the pattern at
    least as often as the pattern asks for it. *)
Lemma nodes_lang_count (c : ascii) (r : regex) (w : string) (caps : list string) :
  nodes_lang r w caps -> literal_count c r <= count_char c w.
Proof.
  revert w caps. induction r as [| n r IH]; intros w caps H; simpl; [lia |].
  destruct n as [cl q | body |]; simpl in H.
  - destruct H as (w1 & w2 & -> & Ha & Hr). rewrite count_char_app.
    pose proof (IH _ _ Hr) as Hle.
    destruct cl; try lia. destruct q; try lia.
    apply atom_lang_once_char in Ha. subst w1. simpl. lia.
  - destruct H as (w1 & w2 & caps' & -> & _ & _ & Hr). rewrite count_char_app.
    pose proof (IH _ _ Hr). lia.
  - exact (IH _ _ H).
Qed.

Lemma search_from_split (subject : string) (r : regex) (s : string) (m : match_obj) :
  search_from subject r s = Some m ->
  exists before w, s = (before ++ w ++ rest m)%string /\ nodes_lang r w (groups m).
Proof.
  induction s as [| c s IH]; simpl; intros H.
  - destruct (m_nodes subject r [] "") as [m' |] eqn:Hm; [| discriminate].
    injection H as ->.
    destruct (m_nodes_sound _ _ _ _ _ Hm) as (w & new & Hs & Hg & Hl).
    exists "", w. simpl in Hg. rewrite Hg. auto.
  - destruct (m_nodes subject r [] (String c s)) as [m' |] eqn:Hm.
    + injection H as ->.
      destruct (m_nodes_sound _ _ _ _ _ Hm) as (w & new & Hs & Hg & Hl).
      exists "", w. simpl in Hg. rewrite Hg. auto.
    + destruct (IH H) as (before & w & -> & Hl).
      exists (String c before), w. auto.
Qed.

(** A text that holds a literal character of a pattern less often than
    the pattern asks for it has no match of the pattern anywhere. *)
Lemma re_search_too_few (c : ascii) (r : regex) (s : string) :
  count_char c s < literal_count c r -> re_search r s = None.
Proof.
  intros Hlt. destruct (re_search r s) as [m |] eqn:Hs; [| reflexivity].
  exfalso. destruct (search_from_split _ _ _ _ Hs) as (before & w & Heq & Hl).
  pose proof (nodes_lang_count c _ _ _ Hl) as Hle.
  rewrite Heq, !count_char_app in Hlt. lia.
Qed.

Lemma name_without (c : ascii) (a : string) :
  is_word c = false -> is_name a -> count_char c a = 0.
Proof.
  intros Hc [_ Hall]. apply (count_char_none c is_word); [| exact Hall].
  intros d Hd. destruct (Ascii.eqb_spec d c) as [-> |]; congruence.
Qed.

Lemma digits_without (c : ascii) (n : string) :
  is_word c = false -> is_digits n -> count_char c n = 0.
Proof.
  intros Hc [_ Hall]. apply (count_char_none c is_decimal); [| exact Hall].
  intros d Hd. apply is_decimal_word in Hd.
  destruct (Ascii.eqb_spec d c) as [-> |]; congruence.
Qed.

(** X22: every communication-loss line of the protocol grammar whose
    numbers have at most 4300 digits each parses to the
    communication-loss event of its fields; the detection pattern, tried
    first, does not match it. *)
Theorem parse_comm_loss_line_complete (now ts a n1 b n2 val : string) :
  is_number ts -> is_name a -> is_number n1 -> is_name b -> is_number n2 ->
  is_number val ->
  parse_line now (comm_loss_line ts a n1 b n2 val)
  = Ok (Some (CommLoss
      (CommLossEvent (number n1) (number n2) a b (number val) (number ts) now))).
Proof.
  intros [Hts Lts] Ha [Hn1 Ln1] Hb [Hn2 Ln2] [Hval Lval].
  unfold comm_loss_line.
  set (content := ("CMD:DETECTION-COMM" ++ " " ++ a ++ "(" ++ n1 ++ ")-" ++ b
                   ++ "(" ++ n2 ++ ")" ++ " " ++ val)%string).
  change ("[" ++ ts ++ "] I CMD:DETECTION-COMM " ++ a ++ "(" ++ n1 ++ ")-" ++ b
          ++ "(" ++ n2 ++ ") " ++ val)%string
    with ("[" ++ ts ++ "] I " ++ content)%string.
  rewrite parse_line_head; try assumption.
  - assert (Hdet : re_search DETECTION_RE content = None).
    { apply (re_search_too_few ":"). unfold content.
      rewrite !count_char_app.
      rewrite (name_without ":" a), (name_without ":" b), (digits_without ":" n1),
              (digits_without ":" n2), (digits_without ":" val) by (assumption || reflexivity).
      vm_compute. lia. }
    assert (Hsearch : re_search DETECTION_COMM_RE content
                      = Some (MatchObj [a; n1; b; n2; val] "")).
    { apply re_search_first. unfold DETECTION_COMM_RE, content.
      first_lit "CMD:DETECTION-COMM".
      first_space; [rewrite str_app_assoc; now apply space_stops_at_name |].
      apply nodes_first_group_plus; [apply Ha | apply Ha | reflexivity |].
      first_lit "(".
      apply nodes_first_group_plus; [apply Hn1 | apply Hn1 | reflexivity |].
      first_lit ")-".
      apply nodes_first_group_plus; [apply Hb | apply Hb | reflexivity |].
      first_lit "(".
      apply nodes_first_group_plus; [apply Hn2 | apply Hn2 | reflexivity |].
      first_lit ")".
      first_space; [now apply space_stops_at_digits |].
      apply nodes_first_last_plus; [apply Hval | apply Hval | reflexivity]. }
    cbv zeta. unfold int_group, group. cbn [groups nth_error mbind result_bind].
    rewrite (int_of_digits_number ts Hts Lts). cbn [mbind result_bind].
    rewrite Hdet, Hsearch. cbn [groups nth_error mbind result_bind].
    rewrite (int_of_digits_number n1 Hn1 Ln1), (int_of_digits_number n2 Hn2 Ln2),
            (int_of_digits_number val Hval Lval).
    reflexivity.
  - unfold content. simpl. discriminate.
  - unfold content. rewrite !all_chars_app.
    rewrite (name_plain a Ha), (name_plain b Hb), (digits_plain n1 Hn1),
            (digits_plain n2 Hn2), (digits_plain val Hval).
    reflexivity.
  - reflexivity.
  - unfold content.
    repeat (apply rstrip_app_end; [not_empty |]).
    now apply rstrip_digits.
Qed.

Lemma parse_comm_loss_line_complete_witness :
  parse_line "t" (comm_loss_line "124" "A" "1" "B" "2" "7")
  = Ok (Some (CommLoss
      (CommLossEvent (number "1") (number "2") "A" "B" (number "7") (number "124") "t"))).
Proof.
  apply (parse_comm_loss_line_complete "t" "124" "A" "1" "B" "2" "7");
    field_ok.
Defined.

(** X23: every connection line of the protocol grammar whose numbers
    have at most 4300 digits each parses to the connection event of its
    fields, connected exactly when the flag is 1; the two detection
    patterns, tried first, do not match it. *)
Theorem parse_connected_line_complete (now ts a n1 b n2 flag : string) :
  is_number ts -> is_name a -> is_number n1 -> is_name b -> is_number n2 ->
  flag = "0" \/ flag = "1" ->
  parse_line now (connected_line ts a n1 b n2 flag)
  = Ok (Some (Connected
      (ConnectedEvent (number n1) a (number n2) b (String.eqb flag "1")
                      (number ts) now))).
Proof.
  intros [Hts Lts] Ha [Hn1 Ln1] Hb [Hn2 Ln2] Hflag.
  unfold connected_line.
  set (content := ("CMD:CONNECTED" ++ " " ++ a ++ "(" ++ n1 ++ ")" ++ " "
                   ++ "connected:" ++ b ++ "(" ++ n2 ++ ")" ++ " " ++ flag)%string).
  change ("[" ++ ts ++ "] I CMD:CONNECTED " ++ a ++ "(" ++ n1 ++ ") connected:" ++ b
          ++ "(" ++ n2 ++ ") " ++ flag)%string
    with ("[" ++ ts ++ "] I " ++ content)%string.
  assert (Hflag_ne : flag <> "") by (destruct Hflag as [-> | ->]; discriminate).
  assert (Hflag_plain : all_chars plain flag = true)
    by (destruct Hflag as [-> | ->]; reflexivity).
  assert (Hflag_hyphen : count_char "-" flag = 0)
    by (destruct Hflag as [-> | ->]; reflexivity).
  rewrite parse_line_head; try assumption.
  - assert (Hhyphen : count_char "-" content = 0).
    { unfold content. rewrite !count_char_app.
      rewrite (name_without "-" a), (name_without "-" b), (digits_without "-" n1),
              (digits_without "-" n2), Hflag_hyphen by (assumption || reflexivity).
      reflexivity. }
    assert (Hdet : re_search DETECTION_RE content = None).
    { apply (re_search_too_few "-"). rewrite Hhyphen. vm_compute. lia. }
    assert (Hcomm : re_search DETECTION_COMM_RE content = None).
    { apply (re_search_too_few "-"). rewrite Hhyphen. vm_compute. lia. }
    assert (Hsearch : re_search CONNECTED_RE content
                      = Some (MatchObj [a; n1; b; n2; flag] "")).
    { apply re_search_first. unfold CONNECTED_RE, content.
      first_lit "CMD:CONNECTED".
      first_space; [rewrite str_app_assoc; now apply space_stops_at_name |].
      apply nodes_first_group_plus; [apply Ha | apply Ha | reflexivity |].
      first_lit "(".
      apply nodes_first_group_plus; [apply Hn1 | apply Hn1 | reflexivity |].
      first_lit ")".
      first_space; [reflexivity |].
      first_lit "connected:".
      apply nodes_first_group_plus; [apply Hb | apply Hb | reflexivity |].
      first_lit "(".
      apply nodes_first_group_plus; [apply Hn2 | apply Hn2 | reflexivity |].
      first_lit ")".
      first_space; [destruct Hflag as [-> | ->]; reflexivity |].
      destruct Hflag as [-> | ->]; apply nodes_first_last_once; reflexivity. }
    cbv zeta. unfold int_group, group. cbn [groups nth_error mbind result_bind].
    rewrite (int_of_digits_number ts Hts Lts). cbn [mbind result_bind].
    rewrite Hdet, Hcomm, Hsearch. cbn [groups nth_error mbind result_bind].
    rewrite (int_of_digits_number n1 Hn1 Ln1), (int_of_digits_number n2 Hn2 Ln2).
    reflexivity.
  - unfold content. simpl. discriminate.
  - unfold content. rewrite !all_chars_app.
    rewrite (name_plain a Ha), (name_plain b Hb), (digits_plain n1 Hn1),
            (digits_plain n2 Hn2), Hflag_plain.
    reflexivity.
  - reflexivity.
  - unfold content.
    repeat (apply rstrip_app_end;
            [repeat (apply str_app_not_empty_r); exact Hflag_ne |]).
    destruct Hflag as [-> | ->]; reflexivity.
Qed.

Lemma parse_connected_line_complete_witness :
  parse_line "t" (connected_line "125" "A" "1" "B" "2" "0")
  = Ok (Some (Connected
      (ConnectedEvent (number "1") "A" (number "2") "B" (String.eqb "0" "1")
                      (number "125") "t"))).
Proof.
  apply (parse_connected_line_complete "t" "125" "A" "1" "B" "2" "0");
    try field_ok.
  left. reflexivity.
Defined.

(** ** Peer records *)

Lemma nodes_first_group (body : list atom) (r : regex) (w1 w2 : string)
                        (caps : list string) (s : string) :
  atoms_first body w1 (w2 ++ s) ->
  nodes_first r w2 caps s ->
  nodes_first (Group body :: r) (w1 ++ w2) (w1 :: caps) s.
Proof.
  intros Hb H. exists w1, w2, caps. auto.
Qed.

Lemma nodes_first_lit_end (text : string) (s : string) :
  nodes_first (lit text) text [] s.
Proof.
  induction text as [| c text IH]; simpl; [auto |].
  now apply nodes_first_char.
Qed.

Lemma digit_is_not_minus (c : ascii) : is_decimal c = true -> Ascii.eqb c "-" = false.
Proof.
  intros Hc. destruct (Ascii.eqb_spec c "-") as [-> |]; [discriminate Hc | reflexivity].
Qed.

Lemma int_of_minus_digits_number (n : string) :
  is_digits n -> short n -> int_of_str (String "-" n) = Ok (- number n)%Z.
Proof.
  intros [Hne Hall] Hs.
  now rewrite (int_of_str_minus_digits n Hne Hall), (short_within n Hs).
Qed.

(** A peer record, in front of any text, is a first match of
    [MAP_PEER_RE] with its four fields as groups. *)
Lemma peer_record_first (p : peer_fields) (s : string) :
  peer_fields_ok p ->
  nodes_first MAP_PEER_RE (peer_text p)
              [pf_id p; pf_threshold p; rssi_text p; pf_dt p] s.
Proof.
  intros ([Hid Lid] & [Hth Lth] & [Hrssi Lrssi] & [Hdt Ldt]).
  unfold MAP_PEER_RE, peer_text.
  change ("[" ++ pf_id p ++ " th3:" ++ pf_threshold p ++ " " ++ rssi_text p
          ++ "dBm dt:" ++ pf_dt p ++ "]")%string
    with ("[" ++ pf_id p ++ " " ++ "th3:" ++ pf_threshold p ++ " " ++ rssi_text p
          ++ "dBm" ++ " " ++ "dt:" ++ pf_dt p ++ "]")%string.
  first_lit "[".
  apply nodes_first_group_plus; [apply Hid | apply Hid | reflexivity |].
  first_space; [reflexivity |].
  first_lit "th3:".
  apply nodes_first_group_plus; [apply Hth | apply Hth | reflexivity |].
  first_space.
  { unfold rssi_text. destruct (pf_negative p); [reflexivity |].
    rewrite str_app_assoc. now apply space_stops_at_digits. }
  apply nodes_first_group.
  { unfold rssi_text. destruct (pf_negative p).
    - exists "-", (pf_rssi p). split; [reflexivity |]. split.
      + right. exists "-"%char. auto.
      + exists (pf_rssi p), "". rewrite str_app_nil_r. split; [reflexivity |].
        split; [| reflexivity].
        split; [apply Hrssi |]. split; [apply Hrssi | reflexivity].
    - exists "", (pf_rssi p). split; [reflexivity |]. split.
      + left. split; [reflexivity |].
        rewrite str_app_assoc.
        apply (stops_in_front (CChar "-") is_decimal);
          [intros c Hc; simpl; now apply digit_is_not_minus | apply Hrssi | apply Hrssi].
      + exists (pf_rssi p), "". rewrite str_app_nil_r. split; [reflexivity |].
        split; [| reflexivity].
        split; [apply Hrssi |]. split; [apply Hrssi | reflexivity]. }
  first_lit "dBm".
  first_space; [reflexivity |].
  first_lit "dt:".
  apply nodes_first_group_plus; [apply Hdt | apply Hdt | reflexivity |].
  apply nodes_first_lit_end.
Qed.

Lemma peer_of_match_value (p : peer_fields) (s : string) :
  peer_fields_ok p ->
  peer_of_match (MatchObj [pf_id p; pf_threshold p; rssi_text p; pf_dt p] s)
  = Ok (peer_value p).
Proof.
  intros ([Hid Lid] & [Hth Lth] & [Hrssi Lrssi] & [Hdt Ldt]).
  unfold peer_of_match, int_group, group.
  cbn [groups nth_error mbind result_bind].
  rewrite (int_of_digits_number _ Hid Lid). cbn [mbind result_bind].
  rewrite (int_of_digits_number _ Hth Lth). cbn [mbind result_bind].
  assert (Hr : int_of_str (rssi_text p)
               = Ok (if pf_negative p then (- number (pf_rssi p))%Z
                     else number (pf_rssi p))).
  { unfold rssi_text. destruct (pf_negative p).
    - now apply int_of_minus_digits_number.
    - now apply int_of_digits_number. }
  rewrite Hr. cbn [mbind result_bind].
  rewrite (int_of_digits_number _ Hdt Ldt). reflexivity.
Qed.

Lemma finditer_from_cons (subject : string) (r : regex) (c : ascii) (x : string) :
  finditer_from subject r 0 (String c x)
  = match m_nodes subject r [] (String c x) with
    | Some m =>
        m :: finditer_from subject r
               (String.length (String c x) - String.length (rest m) - 1) x
    | None => finditer_from subject r 0 x
    end.
Proof. reflexivity. Qed.

Lemma finditer_skip (subject : string) (r : regex) (u s : string) :
  finditer_from subject r (String.length u) (u ++ s) = finditer_from subject r 0 s.
Proof.
  induction u as [| c u IH]; simpl; [| exact IH].
  destruct s; reflexivity.
Qed.

(** After a match the search goes on behind it. *)
Lemma finditer_match_here (subject : string) (r : regex) (c : ascii) (w s : string)
                          (caps : list string) :
  m_nodes subject r [] (String c (w ++ s)) = Some (MatchObj caps s) ->
  finditer_from subject r 0 (String c (w ++ s))
  = MatchObj caps s :: finditer_from subject r 0 s.
Proof.
  intros H. rewrite finditer_from_cons, H. cbn [rest]. f_equal.
  replace (String.length (String c (w ++ s)) - String.length s - 1)
    with (String.length w) by (simpl; rewrite str_length_app; lia).
  apply finditer_skip.
Qed.

(** The peers of a list of records are the peers the records describe,
    in order. *)
Lemma peers_of_records (subject : string) (ps : list peer_fields) :
  Forall peer_fields_ok ps ->
  mapM peer_of_match (finditer_from subject MAP_PEER_RE 0 (peers_tail ps))
  = Ok (List.map peer_value ps).
Proof.
  induction 1 as [| p ps Hp _ IH]; [reflexivity |].
  cbn [peers_tail fold_right].
  change (" " ++ peer_text p ++ fold_right _ "" ps)%string
    with (String " " (peer_text p ++ peers_tail ps)).
  rewrite finditer_from_cons.
  replace (m_nodes subject MAP_PEER_RE [] (String " " (peer_text p ++ peers_tail ps)))
    with (@None match_obj) by reflexivity.
  pose proof (m_nodes_first subject MAP_PEER_RE (peer_text p) [] _ (peers_tail ps)
                (peer_record_first p (peers_tail ps) Hp)) as Hm.
  cbn [app] in Hm.
  unfold peer_text in Hm |- *.
  change ("[" ++ ?x)%string with (String "[" x) in Hm |- *.
  set (body := (pf_id p ++ " th3:" ++ pf_threshold p ++ " " ++ rssi_text p
                ++ "dBm dt:" ++ pf_dt p ++ "]")%string) in *.
  change (String "[" body ++ peers_tail ps)%string
    with (String "[" (body ++ peers_tail ps)) in Hm |- *.
  rewrite (finditer_match_here _ _ _ _ _ _ Hm).
  cbn [mapM]. rewrite (peer_of_match_value p _ Hp). cbn [mbind result_bind].
  rewrite IH. reflexivity.
Qed.

(** ** Map responses *)

Lemma version_not_space (ver : string) :
  is_version ver -> all_chars (cmatch CNotSpace) ver = true.
Proof.
  intros [_ Hall]. apply (all_chars_impl version_char); [| exact Hall].
  intros c Hc. unfold version_char in Hc.
  apply andb_prop in Hc. destruct Hc as [Hc _].
  apply andb_prop in Hc. destruct Hc as [Hc _]. exact Hc.
Qed.

Lemma version_plain (ver : string) : is_version ver -> all_chars plain ver = true.
Proof.
  intros [_ Hall]. apply (all_chars_impl version_char); [| exact Hall].
  intros c Hc. unfold version_char in Hc.
  apply andb_prop in Hc. destruct Hc as [Hc _].
  apply andb_prop in Hc. destruct Hc as [_ Hc]. exact Hc.
Qed.

Lemma version_without_paren (ver : string) : is_version ver -> count_char "(" ver = 0.
Proof.
  intros [_ Hall]. apply (count_char_none "(" version_char); [| exact Hall].
  intros c Hc. unfold version_char in Hc.
  apply andb_prop in Hc. destruct Hc as [_ Hc].
  now apply negb_true_iff in Hc.
Qed.

(** A map response whose header is followed by a text [body] that does
    not begin or end with white space parses to the map event of the
    header fields, with the peers that [MAP_PEER_RE] finds in [body].
    The scan and advertisement counts are matched but not converted, so
    their length does not matter. *)
Lemma parse_map_line_body (now ts unit ver gain voltage scan adv body : string)
                          (found : list peer_info) :
  is_number ts -> is_number unit -> is_version ver -> is_number gain ->
  is_number voltage -> is_digits scan -> is_digits adv ->
  body <> "" -> all_chars plain body = true -> stops CSpace body = true ->
  rstrip body = body -> count_char "(" body = 0 ->
  mapM peer_of_match (re_finditer MAP_PEER_RE body) = Ok found ->
  parse_line now ("[" ++ ts ++ "] I CMD:MAP_RSP from " ++ unit ++ " ver:" ++ ver
                  ++ " gain:" ++ gain ++ " voltage:" ++ voltage ++ " scan:" ++ scan
                  ++ " adv:" ++ adv ++ ": " ++ body)
  = Ok (Some (Map (MapEvent (number unit) ver (number gain) (number voltage) found
                            (number ts) now))).
Proof.
  intros [Hts Lts] [Hunit Lunit] Hver [Hgain Lgain] [Hvolt Lvolt] Hscan Hadv
         Hne Hplain Hstop Hrstrip Hparen Hfound.
  set (content := ("CMD:MAP_RSP" ++ " " ++ "from" ++ " " ++ unit ++ " " ++ "ver:" ++ ver
                   ++ " " ++ "gain:" ++ gain ++ " " ++ "voltage:" ++ voltage
                   ++ " " ++ "scan:" ++ scan ++ " " ++ "adv:" ++ adv ++ ":"
                   ++ " " ++ body)%string).
  change ("[" ++ ts ++ "] I CMD:MAP_RSP from " ++ unit ++ " ver:" ++ ver
          ++ " gain:" ++ gain ++ " voltage:" ++ voltage ++ " scan:" ++ scan
          ++ " adv:" ++ adv ++ ": " ++ body)%string
    with ("[" ++ ts ++ "] I " ++ content)%string.
  rewrite parse_line_head; try assumption.
  - assert (Hcount : count_char "(" content = 0).
    { unfold content. rewrite !count_char_app.
      rewrite (digits_without "(" unit), (version_without_paren ver),
              (digits_without "(" gain), (digits_without "(" voltage),
              (digits_without "(" scan), (digits_without "(" adv), Hparen
        by (assumption || reflexivity).
      reflexivity. }
    assert (Hdet : re_search DETECTION_RE content = None).
    { apply (re_search_too_few "("). rewrite Hcount. vm_compute. lia. }
    assert (Hcomm : re_search DETECTION_COMM_RE content = None).
    { apply (re_search_too_few "("). rewrite Hcount. vm_compute. lia. }
    assert (Hconn : re_search CONNECTED_RE content = None).
    { apply (re_search_too_few "("). rewrite Hcount. vm_compute. lia. }
    assert (Hsearch : re_search MAP_RSP_RE content
                      = Some (MatchObj [unit; ver; gain; voltage; scan; adv; body] "")).
    { apply re_search_first. unfold MAP_RSP_RE, content.
      first_lit "CMD:MAP_RSP".
      first_space; [reflexivity |].
      first_lit "from".
      first_space; [rewrite str_app_assoc; now apply space_stops_at_digits |].
      apply nodes_first_group_plus; [apply Hunit | apply Hunit | reflexivity |].
      first_space; [reflexivity |].
      first_lit "ver:".
      apply nodes_first_group_plus;
        [apply Hver | now apply version_not_space | reflexivity |].
      first_space; [reflexivity |].
      first_lit "gain:".
      apply nodes_first_group_plus; [apply Hgain | apply Hgain | reflexivity |].
      first_space; [reflexivity |].
      first_lit "voltage:".
      apply nodes_first_group_plus; [apply Hvolt | apply Hvolt | reflexivity |].
      first_space; [reflexivity |].
      first_lit "scan:".
      apply nodes_first_group_plus; [apply Hscan | apply Hscan | reflexivity |].
      first_space; [reflexivity |].
      first_lit "adv:".
      apply nodes_first_group_plus; [apply Hadv | apply Hadv | reflexivity |].
      first_lit ":".
      first_space; [rewrite str_app_nil_r; exact Hstop |].
      apply nodes_first_last_star; [| reflexivity].
      apply (all_chars_impl plain); [| exact Hplain].
      intros c Hc. unfold plain in Hc. apply andb_prop in Hc.
      destruct Hc as [_ Hc]. exact Hc. }
    cbv zeta. unfold int_group, group. cbn [groups nth_error mbind result_bind].
    rewrite (int_of_digits_number ts Hts Lts). cbn [mbind result_bind].
    rewrite Hdet, Hcomm, Hconn, Hsearch. cbn [groups nth_error mbind result_bind].
    rewrite Hfound. cbn [mbind result_bind].
    rewrite (int_of_digits_number unit Hunit Lunit),
            (int_of_digits_number gain Hgain Lgain),
            (int_of_digits_number voltage Hvolt Lvolt).
    reflexivity.
  - unfold content. simpl. discriminate.
  - unfold content. rewrite !all_chars_app.
    rewrite (digits_plain unit Hunit), (version_plain ver Hver),
            (digits_plain gain Hgain), (digits_plain voltage Hvolt),
            (digits_plain scan Hscan), (digits_plain adv Hadv), Hplain.
    reflexivity.
  - reflexivity.
  - unfold content.
    repeat (apply rstrip_app_end;
            [repeat (apply str_app_not_empty_r); exact Hne |]).
    exact Hrstrip.
Qed.

Lemma rssi_plain (p : peer_fields) :
  is_digits (pf_rssi p) -> all_chars plain (rssi_text p) = true.
Proof.
  intros H. unfold rssi_text. destruct (pf_negative p); [| now apply digits_plain].
  rewrite all_chars_app, (digits_plain _ H). reflexivity.
Qed.

Lemma rssi_without_paren (p : peer_fields) :
  is_digits (pf_rssi p) -> count_char "(" (rssi_text p) = 0.
Proof.
  intros H. unfold rssi_text.
  destruct (pf_negative p); [| now apply digits_without].
  rewrite count_char_app, (digits_without "(" _ eq_refl H). reflexivity.
Qed.

Lemma peer_text_plain (p : peer_fields) :
  peer_fields_ok p -> all_chars plain (peer_text p) = true.
Proof.
  intros ([Hid Lid] & [Hth Lth] & [Hrssi Lrssi] & [Hdt Ldt]). unfold peer_text. rewrite !all_chars_app.
  rewrite (digits_plain _ Hid), (digits_plain _ Hth), (rssi_plain p Hrssi),
          (digits_plain _ Hdt).
  reflexivity.
Qed.

Lemma peer_text_without_paren (p : peer_fields) :
  peer_fields_ok p -> count_char "(" (peer_text p) = 0.
Proof.
  intros ([Hid Lid] & [Hth Lth] & [Hrssi Lrssi] & [Hdt Ldt]). unfold peer_text. rewrite !count_char_app.
  rewrite (digits_without "(" _ eq_refl Hid), (digits_without "(" _ eq_refl Hth),
          (rssi_without_paren p Hrssi), (digits_without "(" _ eq_refl Hdt).
  reflexivity.
Qed.

Lemma peers_tail_cons (p : peer_fields) (ps : list peer_fields) :
  peers_tail (p :: ps) = (" " ++ peer_text p ++ peers_tail ps)%string.
Proof. reflexivity. Qed.

Lemma peers_tail_plain (ps : list peer_fields) :
  Forall peer_fields_ok ps -> all_chars plain (peers_tail ps) = true.
Proof.
  induction 1 as [| p ps Hp _ IH]; [reflexivity |].
  rewrite peers_tail_cons, !all_chars_app, (peer_text_plain p Hp), IH. reflexivity.
Qed.

Lemma peers_tail_without_paren (ps : list peer_fields) :
  Forall peer_fields_ok ps -> count_char "(" (peers_tail ps) = 0.
Proof.
  induction 1 as [| p ps Hp _ IH]; [reflexivity |].
  rewrite peers_tail_cons, !count_char_app, (peer_text_without_paren p Hp), IH.
  reflexivity.
Qed.

(** A run of peer records ends with the bracket of the last one. *)
Lemma peers_rstrip (p : peer_fields) (ps : list peer_fields) :
  rstrip (peer_text p ++ peers_tail ps) = (peer_text p ++ peers_tail ps)%string.
Proof.
  revert p. induction ps as [| q ps IH]; intros p.
  - unfold peer_text. cbn [peers_tail fold_right]. rewrite str_app_nil_r.
    repeat (apply rstrip_app_end; [repeat (apply str_app_not_empty_r); discriminate |]).
    reflexivity.
  - rewrite peers_tail_cons.
    assert (Hne : (peer_text q ++ peers_tail ps)%string <> "") by discriminate.
    apply rstrip_app_end; [now apply str_app_not_empty_r |].
    apply (rstrip_app_end " "); [exact Hne | apply IH].
Qed.

(** X24: every map response of the protocol grammar with at least one
    peer record parses to the map event of its header fields whose peers
    are the peers of the records, all of them and in the order of the
    line.  The numbers that are converted have at most 4300 digits each,
    and the version is a non-empty run of characters other than white
    space, the escape character and the opening parenthesis. *)
Theorem parse_map_line_complete (now ts unit ver gain voltage scan adv : string)
                                (ps : list peer_fields) :
  is_number ts -> is_number unit -> is_version ver -> is_number gain ->
  is_number voltage -> is_digits scan -> is_digits adv ->
  ps <> [] -> Forall peer_fields_ok ps ->
  parse_line now (map_line ts unit ver gain voltage scan adv ps)
  = Ok (Some (Map (MapEvent (number unit) ver (number gain) (number voltage)
                            (List.map peer_value ps) (number ts) now))).
Proof.
  intros Hts Hunit Hver Hgain Hvolt Hscan Hadv Hne Hps.
  destruct ps as [| p ps]; [contradiction |].
  pose proof (Forall_inv Hps) as Hp. pose proof (Forall_inv_tail Hps) as Htail.
  change (map_line ts unit ver gain voltage scan adv (p :: ps))
    with ("[" ++ ts ++ "] I CMD:MAP_RSP from " ++ unit ++ " ver:" ++ ver
          ++ " gain:" ++ gain ++ " voltage:" ++ voltage ++ " scan:" ++ scan
          ++ " adv:" ++ adv ++ ": " ++ (peer_text p ++ peers_tail ps))%string.
  apply parse_map_line_body; try assumption.
  - discriminate.
  - now rewrite all_chars_app, (peer_text_plain p Hp), (peers_tail_plain ps Htail).
  - reflexivity.
  - apply peers_rstrip.
  - now rewrite count_char_app, (peer_text_without_paren p Hp),
                (peers_tail_without_paren ps Htail).
  - unfold re_finditer.
    rewrite <- (peers_of_records (peer_text p ++ peers_tail ps) (p :: ps) Hps).
    rewrite peers_tail_cons.
    change (" " ++ peer_text p ++ peers_tail ps)%string
      with (String " " (peer_text p ++ peers_tail ps)).
    rewrite (finditer_from_cons _ _ " ").
    reflexivity.
Qed.

Lemma parse_map_line_complete_witness :
  parse_line "t" (map_line "123" "5" "1.0" "3" "3300" "1" "2"
                    [PeerFields "7" "12" true "70" "4"; PeerFields "9" "30" false "5" "0"])
  = Ok (Some (Map (MapEvent (number "5") "1.0" (number "3") (number "3300")
       (List.map peer_value
          [PeerFields "7" "12" true "70" "4"; PeerFields "9" "30" false "5" "0"])
       (number "123") "t"))).
Proof.
  apply (parse_map_line_complete "t" "123" "5" "1.0" "3" "3300" "1" "2"
           [PeerFields "7" "12" true "70" "4"; PeerFields "9" "30" false "5" "0"]);
    try field_ok.
  - discriminate.
  - repeat constructor; discriminate.
Defined.

(** ** Map responses without peers *)

Lemma space_count_app (a b : string) :
  space_count (a ++ b) = space_count a + space_count b.
Proof. induction a as [| d a IH]; simpl; [reflexivity | rewrite IH; lia]. Qed.

Lemma space_count_none (p : ascii -> bool) (s : string) :
  (forall d, p d = true -> is_space d = false) ->
  all_chars p s = true -> space_count s = 0.
Proof.
  intros Hp. induction s as [| d s IH]; simpl; [reflexivity |].
  intros H. apply andb_prop in H. destruct H as [Hd Hs].
  now rewrite (Hp d Hd), (IH Hs).
Qed.

Lemma digits_without_space (n : string) : is_digits n -> space_count n = 0.
Proof.
  intros [_ Hall]. apply (space_count_none is_decimal); [| exact Hall].
  apply is_decimal_not_space.
Qed.

Lemma version_without_space (ver : string) : is_version ver -> space_count ver = 0.
Proof.
  intros [_ Hall]. apply (space_count_none version_char); [| exact Hall].
  intros c Hc. unfold version_char in Hc.
  apply andb_prop in Hc. destruct Hc as [Hc _].
  apply andb_prop in Hc. destruct Hc as [Hc _].
  now apply negb_true_iff in Hc.
Qed.

(** A word of a pattern holds at least one white-space character for
    every white-space run of the pattern. *)
Lemma nodes_lang_space_count (r : regex) (w : string) (caps : list string) :
  nodes_lang r w caps -> space_runs r <= space_count w.
Proof.
  revert w caps. induction r as [| n r IH]; intros w caps H; simpl; [lia |].
  destruct n as [cl q | body |]; simpl in H.
  - destruct H as (w1 & w2 & -> & Ha & Hr). rewrite space_count_app.
    pose proof (IH _ _ Hr) as Hle.
    destruct cl; try lia. destruct q; try lia.
    destruct Ha as [Hne Hall]. destruct w1 as [| c w1]; [contradiction |].
    simpl in Hall. apply andb_prop in Hall. destruct Hall as [Hc _].
    simpl in Hc. simpl. rewrite Hc. lia.
  - destruct H as (w1 & w2 & caps' & -> & _ & _ & Hr). rewrite space_count_app.
    pose proof (IH _ _ Hr). lia.
  - exact (IH _ _ H).
Qed.

Lemma re_search_too_few_spaces (r : regex) (s : string) :
  space_count s < space_runs r -> re_search r s = None.
Proof.
  intros Hlt. destruct (re_search r s) as [m |] eqn:Hs; [| reflexivity].
  exfalso. destruct (search_from_split _ _ _ _ Hs) as (before & w & Heq & Hl).
  pose proof (nodes_lang_space_count _ _ _ Hl) as Hle.
  rewrite Heq, !space_count_app in Hlt. lia.
Qed.

(** X25: a map response with no peer record yields no event, for
    every header whose timestamp has at most 4300 digits and whose
    version is a non-empty run of characters other than white space, the
    escape character and the opening parenthesis: the line ends at the
    colon after [adv], the white space the map pattern asks for behind
    it is missing, and no other pattern matches. *)
Theorem parse_map_line_without_peers (now ts unit ver gain voltage scan adv : string) :
  is_number ts -> is_digits unit -> is_version ver -> is_digits gain ->
  is_digits voltage -> is_digits scan -> is_digits adv ->
  parse_line now (map_line ts unit ver gain voltage scan adv []) = Ok None.
Proof.
  intros [Hts Lts] Hunit Hver Hgain Hvolt Hscan Hadv.
  set (content := ("CMD:MAP_RSP" ++ " " ++ "from" ++ " " ++ unit ++ " " ++ "ver:" ++ ver
                   ++ " " ++ "gain:" ++ gain ++ " " ++ "voltage:" ++ voltage
                   ++ " " ++ "scan:" ++ scan ++ " " ++ "adv:" ++ adv ++ ":")%string).
  change (map_line ts unit ver gain voltage scan adv [])
    with ("[" ++ ts ++ "] I " ++ content)%string.
  rewrite parse_line_head; try assumption.
  - assert (Hcount : count_char "(" content = 0).
    { unfold content. rewrite !count_char_app.
      rewrite (digits_without "(" unit), (version_without_paren ver),
              (digits_without "(" gain), (digits_without "(" voltage),
              (digits_without "(" scan), (digits_without "(" adv)
        by (assumption || reflexivity).
      reflexivity. }
    assert (Hdet : re_search DETECTION_RE content = None).
    { apply (re_search_too_few "("). rewrite Hcount. vm_compute. lia. }
    assert (Hcomm : re_search DETECTION_COMM_RE content = None).
    { apply (re_search_too_few "("). rewrite Hcount. vm_compute. lia. }
    assert (Hconn : re_search CONNECTED_RE content = None).
    { apply (re_search_too_few "("). rewrite Hcount. vm_compute. lia. }
    assert (Hmap : re_search MAP_RSP_RE content = None).
    { apply re_search_too_few_spaces. unfold content. rewrite !space_count_app.
      rewrite (digits_without_space unit), (version_without_space ver),
              (digits_without_space gain), (digits_without_space voltage),
              (digits_without_space scan), (digits_without_space adv)
        by assumption.
      vm_compute. lia. }
    cbv zeta. unfold int_group, group. cbn [groups nth_error mbind result_bind].
    rewrite (int_of_digits_number ts Hts Lts). cbn [mbind result_bind].
    rewrite Hdet, Hcomm, Hconn, Hmap. reflexivity.
  - unfold content. simpl. discriminate.
  - unfold content. rewrite !all_chars_app.
    rewrite (digits_plain unit Hunit), (version_plain ver Hver),
            (digits_plain gain Hgain), (digits_plain voltage Hvolt),
            (digits_plain scan Hscan), (digits_plain adv Hadv).
    reflexivity.
  - reflexivity.
  - unfold content.
    repeat (apply rstrip_app_end;
            [repeat (apply str_app_not_empty_r); discriminate |]).
    reflexivity.
Qed.

Lemma parse_map_line_without_peers_witness :
  parse_line "t" (map_line "123" "5" "1.0" "3" "3300" "1" "0" []) = Ok None.
Proof.
  apply (parse_map_line_without_peers "t" "123" "5" "1.0" "3" "3300" "1" "0");
    field_ok.
Defined.

(** ** Colour sequences and surrounding white space *)

Lemma sub_empty_text (subject text x : string) :
  all_chars no_escape text = true ->
  sub_empty_from subject ANSI_RE 0 (text ++ x)
  = (text ++ sub_empty_from subject ANSI_RE 0 x)%string.
Proof.
  induction text as [| c text IH]; [reflexivity |].
  intros H. simpl in H. apply andb_prop in H. destruct H as [Hc Htext].
  unfold no_escape in Hc. apply negb_true_iff in Hc.
  change (String c text ++ x)%string with (String c (text ++ x)).
  cbn [sub_empty_from].
  replace (m_nodes subject ANSI_RE [] (String c (text ++ x))) with (@None match_obj).
  - now rewrite (IH Htext).
  - unfold ANSI_RE. cbn [m_nodes]. unfold m_atom at 1. cbn [fst snd cmatch].
    change (ascii_of_pos 27) with (ascii_of_N 27). now rewrite Hc.
Qed.






Lemma sub_empty_no_escape (s : string) :
  all_chars no_escape s = true -> re_sub_empty ANSI_RE s = s.
Proof.
  intros H. unfold re_sub_empty. rewrite <- (str_app_nil_r s) at 2.
  rewrite (sub_empty_text s s "" H). simpl. apply str_app_nil_r.
Qed.



Lemma lstrip_spaces (a s : string) :
  all_chars is_space a = true -> lstrip (a ++ s) = lstrip s.
Proof.
  induction a as [| c a IH]; [reflexivity |]. simpl.
  intros H. apply andb_prop in H. destruct H as [Hc Ha]. rewrite Hc. now apply IH.
Qed.

Lemma rstrip_spaces (b : string) : all_chars is_space b = true -> rstrip b = "".
Proof.
  induction b as [| c b IH]; [reflexivity |]. simpl.
  intros H. apply andb_prop in H. destruct H as [Hc Hb]. now rewrite (IH Hb), Hc.
Qed.

Lemma rstrip_app_spaces (s b : string) :
  all_chars is_space b = true -> rstrip (s ++ b) = rstrip s.
Proof.
  intros Hb. induction s as [| c s IH]; simpl; [now apply rstrip_spaces |].
  now rewrite IH.
Qed.

Lemma strip_surrounded (a s b : string) :
  all_chars is_space a = true -> all_chars is_space b = true ->
  strip (a ++ s ++ b) = strip s.
Proof.
  intros Ha Hb. unfold strip. rewrite (lstrip_spaces a _ Ha).
  induction s as [| c s IH].
  - simpl. rewrite <- (str_app_nil_r b), (lstrip_spaces b "" Hb). reflexivity.
  - simpl. destruct (is_space c); [exact IH |].
    exact (rstrip_app_spaces (String c s) b Hb).
Qed.

Lemma is_space_no_escape (c : ascii) : is_space c = true -> no_escape c = true.
Proof.
  destruct c as [b0 b1 b2 b3 b4 b5 b6 b7].
  destruct b0, b1, b2, b3, b4, b5, b6, b7; vm_compute; congruence.
Qed.

(** X27: white space around a line does not change what the parser
    returns; in particular the carriage return that a line of the
    device ends with is ignored. *)
Theorem parse_line_ignores_margin (now a line b : string) :
  all_chars is_space a = true -> all_chars is_space b = true ->
  all_chars no_escape line = true ->
  parse_line now (a ++ line ++ b) = parse_line now line.
Proof.
  intros Ha Hb Hline. unfold parse_line.
  rewrite (sub_empty_no_escape line Hline).
  rewrite sub_empty_no_escape.
  - now rewrite (strip_surrounded a line b Ha Hb).
  - rewrite !all_chars_app, Hline.
    rewrite (all_chars_impl is_space no_escape a is_space_no_escape Ha).
    rewrite (all_chars_impl is_space no_escape b is_space_no_escape Hb).
    reflexivity.
Qed.

Lemma parse_line_ignores_margin_witness :
  parse_line "t" ("  " ++ "[123] I CMD:DETECTION A(1)-B(2) th:500 val:600 c:3"
                  ++ String (ascii_of_N 13) "")
  = parse_line "t" "[123] I CMD:DETECTION A(1)-B(2) th:500 val:600 c:3".
Proof.
  apply (parse_line_ignores_margin "t" "  "
           "[123] I CMD:DETECTION A(1)-B(2) th:500 val:600 c:3" (String (ascii_of_N 13) ""));
    reflexivity.
Defined.
